(** * pyLBM boundary conditions: a shallow embedding of [pyLBM/boundary.py]

    The file follows the Python module:
    - [Np]: the numpy operations the module relies on (integer-array
      indexing with wrap-around of negative indices, boolean masks,
      element-wise arithmetic), and the indexed reads and writes of the
      distribution field;
    - [Boundary_method] and its subclasses: [__init__], [set_iload],
      [set_rhs], [update], [prepare_rhs];
    - [Boundary_Velocity] and [Boundary]: the locator and the compiler;
    - the notions the statements use and a few concrete inputs;
    - the properties.

    Conventions.
    - Scalars (distances, distribution values) are real numbers: the
      rounding of float64 arithmetic is not modelled.  Integer arrays hold
      [Z].  A two-dimensional array is the list of its rows.
    - A Python exception is the [Raise] case of [result].  A method that
      mutates its object returns the object afterwards.
    - A dictionary is an association list in iteration order (insertion
      order for the dictionaries the module builds itself).
    - numpy broadcasts an operand whose length is one; every pair of
      operands met below has equal lengths as soon as the tables of an
      instance are rectangular and column-aligned, so the element-wise
      operations of the model raise [ValueError] on any length mismatch.
    - [stencil.py], [storage.py], the domain, the scheme and the logger are
      not part of the module: the stencil, the domain and the simulation are
      records of what the module reads of them. *)

From Stdlib Require Import String Reals ZArith List Bool Lia Lra Sorted.
Import ListNotations.

(** ** Exceptions *)

Inductive pyerr : Type := IndexError | KeyError | TypeError | ValueError.

(** [IndexError] and [KeyError] are the two subclasses of [LookupError]. *)
Definition is_LookupError (e : pyerr) : bool :=
  match e with IndexError | KeyError => true | _ => false end.

Inductive result (A : Type) : Type :=
| Ok (a : A)
| Raise (e : pyerr).
Arguments Ok {A} a.
Arguments Raise {A} e.

Definition bind {A B} (c : result A) (k : A -> result B) : result B :=
  match c with Ok a => k a | Raise e => Raise e end.

Declare Scope py_scope.
Delimit Scope py_scope with py.
Notation "x <- c ;; k" := (bind c (fun x => k))
  (at level 61, c at next level, right associativity) : py_scope.
Notation "' p <- c ;; k" := (bind c (fun x => let p := x in k))
  (at level 61, p pattern, c at next level, right associativity) : py_scope.
Open Scope py_scope.

Definition fmap {A B} (g : A -> B) (c : result A) : result B :=
  match c with Ok a => Ok (g a) | Raise e => Raise e end.

Fixpoint mapM {A B} (f : A -> result B) (l : list A) : result (list B) :=
  match l with
  | [] => Ok []
  | x :: l' => y <- f x ;; r <- mapM f l' ;; Ok (y :: r)
  end.

(** Element-wise combination of two arrays of the same length. *)
Fixpoint zipWithM {A B C} (f : A -> B -> result C) (a : list A) (b : list B)
  : result (list C) :=
  match a, b with
  | [], [] => Ok []
  | x :: a', y :: b' => z <- f x y ;; r <- zipWithM f a' b' ;; Ok (z :: r)
  | _, _ => Raise ValueError
  end.

Definition of_option {A} (e : pyerr) (o : option A) : result A :=
  match o with Some a => Ok a | None => Raise e end.

(** ** The numpy layer *)

Module Np.

(** A two-dimensional integer array, row by row. *)
Definition table := list (list Z).

(** Position [i] of an axis of length [n]: negative positions count from
    the end, anything else out of range raises. *)
Definition norm_index (n : nat) (i : Z) : result nat :=
  if ((0 <=? i) && (i <? Z.of_nat n))%Z then Ok (Z.to_nat i)
  else if ((- Z.of_nat n <=? i) && (i <? 0))%Z then Ok (Z.to_nat (i + Z.of_nat n))
  else Raise IndexError.

(** [a[i]] *)
Definition getitem {A} (a : list A) (i : Z) : result A :=
  j <- norm_index (length a) i ;; of_option IndexError (nth_error a j).

(** [a[k]] for an integer array [k] *)
Definition take {A} (a : list A) (k : list Z) : result (list A) :=
  mapM (getitem a) k.

(** [a[i]] for a non-negative literal [i], on a Python list or an array *)
Definition item {A} (a : list A) (i : nat) : result A :=
  of_option IndexError (nth_error a i).

(** [a[mask]] *)
Fixpoint compress {A} (mask : list bool) (a : list A) : result (list A) :=
  match mask, a with
  | [], [] => Ok []
  | m :: mask', x :: a' =>
      r <- compress mask' a' ;; Ok (if m then x :: r else r)
  | _, _ => Raise IndexError
  end.

(** [dst[mask] = src] *)
Fixpoint mask_assign {A} (dst : list A) (mask : list bool) (src : list A)
  : result (list A) :=
  match dst, mask with
  | [], [] => match src with [] => Ok [] | _ => Raise ValueError end
  | d :: dst', m :: mask' =>
      if m then
        match src with
        | x :: src' => r <- mask_assign dst' mask' src' ;; Ok (x :: r)
        | [] => Raise ValueError
        end
      else r <- mask_assign dst' mask' src ;; Ok (d :: r)
  | _, _ => Raise IndexError
  end.

Definition logical_not (mask : list bool) : list bool := map negb mask.

(** Number of columns of a table ([shape[1]]). *)
Definition ncols {A} (t : list (list A)) : nat :=
  match t with [] => 0 | r :: _ => length r end.

(** [size] of a table. *)
Definition size {A} (t : list (list A)) : nat := (length t * ncols t)%nat.

(** Column [j] of a table. *)
Definition column (t : table) (j : nat) : list Z :=
  map (fun r => nth j r 0%Z) t.

(** The columns of a table, left to right: what [tuple(t)] addresses. *)
Definition columns (t : table) : list (list Z) :=
  map (column t) (seq 0 (ncols t)).

(** [a.T] for an array [a] of shape [(n, dim)] *)
Definition transpose (dim : nat) (a : table) : table :=
  map (fun i => map (fun r => nth i r 0%Z) a) (seq 0 dim).

(** [a + b] on integer vectors and tables *)
Definition add1 (a b : list Z) : result (list Z) :=
  zipWithM (fun x y => Ok (x + y)%Z) a b.
Definition add2 (a b : table) : result table := zipWithM add1 a b.

(** [c * a] for an integer [c] *)
Definition scale2 (c : Z) (a : table) : table := map (map (Z.mul c)) a.

(** [np.zeros(shape)] with the shape of [t] *)
Definition zeros_like (t : table) : table := map (map (fun _ => 0%Z)) t.

(** [np.concatenate([a, b], axis=1)] *)
Definition hconcat (a b : table) : result table :=
  zipWithM (fun r1 r2 => Ok (r1 ++ r2)) a b.

(** [dst[r] = row] for a literal row number *)
Fixpoint set_row {A} (dst : list A) (r : nat) (row : A) : list A :=
  match dst, r with
  | [], _ => []
  | _ :: dst', O => row :: dst'
  | d :: dst', S r' => d :: set_row dst' r' row
  end.

End Np.

(** ** The distribution field

    The field handed to [update] is an array of rank [1 + dim] indexed by
    (velocity, spatial position); the storage class that wraps it is not part
    of this module, only its indexed read and write are used.  An index tuple
    of the wrong length raises (with fewer indices than axes numpy would
    address sub-arrays, which no field of a scheme is given). *)

Record Field : Type := mkField {
  shape : list nat;
  data : list nat -> R
}.

Fixpoint norm_multi (sh : list nat) (idx : list Z) : result (list nat) :=
  match sh, idx with
  | [], [] => Ok []
  | n :: sh', i :: idx' =>
      p <- Np.norm_index n i ;; r <- norm_multi sh' idx' ;; Ok (p :: r)
  | _, _ => Raise IndexError
  end.

Definition upd (d : list nat -> R) (p : list nat) (x : R) : list nat -> R :=
  fun q => if list_eq_dec Nat.eq_dec q p then x else d q.

(** Writes happen left to right: the last value written to a position stays. *)
Fixpoint scatter (d : list nat -> R) (ps : list (list nat)) (xs : list R)
  : list nat -> R :=
  match ps, xs with
  | p :: ps', x :: xs' => scatter (upd d p x) ps' xs'
  | _, _ => d
  end.

(** [f[tuple(t)]] *)
Definition Field_getitem (f : Field) (t : Np.table) : result (list R) :=
  mapM (fun c => p <- norm_multi (shape f) c ;; Ok (data f p)) (Np.columns t).

(** [f[tuple(t)] = xs] *)
Definition Field_setitem (f : Field) (t : Np.table) (xs : list R) : result Field :=
  ps <- mapM (norm_multi (shape f)) (Np.columns t) ;;
  if (length ps =? length xs)%nat
  then Ok (mkField (shape f) (scatter (data f) ps xs))
  else Raise ValueError.

(** ** Collaborators: stencil, prescribed values

    [stencil.py] and [storage.py] are not part of this module; the stencil is
    a record of the attributes [boundary.py] reads. *)

Record Velocity : Type := mkVelocity {
  Velocity_v : list Z;      (* [v.v], the direction vector *)
  Velocity_num : Z          (* [v.num] *)
}.

Record Stencil : Type := mkStencil {
  dim : nat;
  unvtot : nat;
  unique_velocities : list Velocity;
  Velocity_get_symmetric : Velocity -> Velocity;  (* [v.get_symmetric()] *)
  unum2index : Z -> option nat;                   (* a dict: number -> index *)
  num : list (list Z);                            (* [num[k]]: numbers of family k *)
  nv_ptr : list Z;
  get_symmetric : list Z;                         (* [stencil.get_symmetric()] *)
  get_all_velocities : Np.table                   (* shape [(nv, dim)] *)
}.

(** Modelled from the spec: [storage.Array], the container of moments and of
    distribution components the prescribed-value functions fill.  Only its
    content matters here: a matrix with one row per component and one column
    per boundary point ([Array(nv, nspace, 0, sorder)] is the zero matrix,
    [swaparray.reshape((nv, n))] the matrix itself). *)
Definition Array := list (list R).

(** A positional argument of a prescribed-value function: a coordinate array
    or an extra static argument. *)
Inductive pyarg : Type :=
| AArray (a : list R)
| AFloat (x : R).

(** [value(f, m, *args)] updates [f] and [m] in place. *)
Definition bcfun := Array -> Array -> list pyarg -> result (Array * Array).

(** What a tuple given as prescribed value may hold. *)
Inductive pyobj : Type :=
| PFunction (g : bcfun)
| PTuple (args : list pyarg)
| POther.

(** The ['value'] entry of a label. *)
Inductive pyvalue : Type :=
| VNone
| VFunction (g : bcfun)
| VTuple (items : list pyobj)
| VOther.

(** Dictionaries keyed by integers, in insertion order. *)
Fixpoint dict_get {V} (d : list (Z * V)) (k : Z) : option V :=
  match d with
  | [] => None
  | (k', x) :: d' => if (k' =? k)%Z then Some x else dict_get d' k
  end.

Fixpoint dict_set {V} (d : list (Z * V)) (k : Z) (x : V) : list (Z * V) :=
  match d with
  | [] => [(k, x)]
  | (k', y) :: d' => if (k' =? k)%Z then (k, x) :: d' else (k', y) :: dict_set d' k x
  end.

(** [np.unique]: the sorted distinct values. *)
Fixpoint insert_unique (x : Z) (l : list Z) : list Z :=
  match l with
  | [] => [x]
  | y :: l' =>
      if (x <? y)%Z then x :: l
      else if (x =? y)%Z then l
      else y :: insert_unique x l'
  end.

Definition unique (l : list Z) : list Z := fold_right insert_unique [] l.

(** ** Boundary_method *)

Inductive method_class : Type :=
| bounce_back
| Bouzidi_bounce_back
| anti_bounce_back
| Bouzidi_anti_bounce_back
| Neumann
| Neumann_x
| Neumann_y
| Neumann_z.

Record Boundary_method : Type := mkMethod {
  class_ : method_class;
  log : list string;            (* what [self.log.error] received *)
  istore : Np.table;
  feq : list (list R);
  rhs : list R;
  ilabel : list Z;
  distance : list R;
  stencil : Stencil;
  iload : list Np.table;
  value_bc : list (Z * pyvalue);
  s : list R                    (* Bouzidi classes only *)
}.

Definition with_iload (self : Boundary_method) (l : list Np.table) :=
  mkMethod (class_ self) (log self) (istore self) (feq self) (rhs self)
    (ilabel self) (distance self) (stencil self) l (value_bc self) (s self).

Definition with_s (self : Boundary_method) (x : list R) :=
  mkMethod (class_ self) (log self) (istore self) (feq self) (rhs self)
    (ilabel self) (distance self) (stencil self) (iload self) (value_bc self) x.

Definition with_rhs (self : Boundary_method) (x : list R) :=
  mkMethod (class_ self) (log self) (istore self) (feq self) x
    (ilabel self) (distance self) (stencil self) (iload self) (value_bc self) (s self).

Definition with_feq (self : Boundary_method) (x : list (list R)) :=
  mkMethod (class_ self) (log self) (istore self) x (rhs self)
    (ilabel self) (distance self) (stencil self) (iload self) (value_bc self) (s self).


Definition with_log (self : Boundary_method) (x : list string) :=
  mkMethod (class_ self) x (istore self) (feq self) (rhs self)
    (ilabel self) (distance self) (stencil self) (iload self) (value_bc self) (s self).

(** [np.zeros((nrows, n))] *)
Definition zeros (nrows : Z) (n : nat) : result (list (list R)) :=
  if (nrows <? 0)%Z then Raise ValueError
  else Ok (repeat (repeat 0%R n) (Z.to_nat nrows)).

(** [__init__] of [Boundary_method] and of its subclasses.  The Bouzidi
    classes also allocate [s] with [np.empty]: its content is unspecified
    until [set_iload] fills every entry, and nothing reads it before (with
    no load table [update] raises first); the model starts it at zero. *)
Definition Boundary_method_init (c : method_class) (istore_ : Np.table)
    (ilabel_ : list Z) (distance_ : list R) (stencil_ : Stencil)
    (value_bc_ : list (Z * pyvalue)) : result Boundary_method :=
  let n := Np.ncols istore_ in
  nv <- Np.getitem (nv_ptr stencil_) (-1) ;;
  feq_ <- zeros nv n ;;
  vbc <- mapM (fun k => x <- of_option KeyError (dict_get value_bc_ k) ;; Ok (k, x))
              (unique ilabel_) ;;
  Ok (mkMethod c [] istore_ feq_ (repeat 0%R n) ilabel_ distance_ stencil_ []
        vbc (repeat 0%R n)).

(** *** set_iload *)

(** [bounce_back.set_iload], inherited by [anti_bounce_back] *)
Definition bounce_back_set_iload (self : Boundary_method) : result Boundary_method :=
  k <- Np.item (istore self) 0 ;;
  ksym <- Np.take (get_symmetric (stencil self)) k ;;
  let v := get_all_velocities (stencil self) in
  vk <- Np.take v k ;;
  indices <- Np.add2 (tl (istore self)) (Np.transpose (dim (stencil self)) vk) ;;
  Ok (with_iload self (iload self ++ [ksym :: indices])).

Definition Rltb (x y : R) : bool := if Rlt_dec x y then true else false.

(** [t[0, mask] = src] and [t[1:, mask] = src] *)
Definition mask_assign_row0 (t : Np.table) (mask : list bool) (src : list Z)
  : result Np.table :=
  match t with
  | [] => Raise IndexError
  | r0 :: rest => r0' <- Np.mask_assign r0 mask src ;; Ok (r0' :: rest)
  end.

Definition mask_assign_rows1 (t : Np.table) (mask : list bool) (src : Np.table)
  : result Np.table :=
  match t with
  | [] => match src with [] => Ok [] | _ => Raise ValueError end
  | r0 :: rest =>
      rest' <- zipWithM (fun r x => Np.mask_assign r mask x) rest src ;;
      Ok (r0 :: rest')
  end.

(** [Bouzidi_bounce_back.set_iload], inherited by [Bouzidi_anti_bounce_back] *)
Definition Bouzidi_bounce_back_set_iload (self : Boundary_method)
  : result Boundary_method :=
  k <- Np.item (istore self) 0 ;;
  ksym <- Np.take (get_symmetric (stencil self)) k ;;
  let v := get_all_velocities (stencil self) in
  let d := dim (stencil self) in
  let iload1 := Np.zeros_like (istore self) in
  let iload2 := Np.zeros_like (istore self) in

  let mask := map (fun x => Rltb x (1/2)) (distance self) in
  ksym_m <- Np.compress mask ksym ;;
  iload1 <- mask_assign_row0 iload1 mask ksym_m ;;
  iload2 <- mask_assign_row0 iload2 mask ksym_m ;;
  istore_m <- mapM (Np.compress mask) (tl (istore self)) ;;
  k_m <- Np.compress mask k ;;
  vk_m <- Np.take v k_m ;;
  x1 <- Np.add2 istore_m (Np.transpose d vk_m) ;;
  iload1 <- mask_assign_rows1 iload1 mask x1 ;;
  x2 <- Np.add2 istore_m (Np.scale2 2 (Np.transpose d vk_m)) ;;
  iload2 <- mask_assign_rows1 iload2 mask x2 ;;
  dist_m <- Np.compress mask (distance self) ;;
  s1 <- Np.mask_assign (s self) mask (map (fun x => 2 * x)%R dist_m) ;;

  let mask := Np.logical_not mask in
  ksym_m <- Np.compress mask ksym ;;
  iload1 <- mask_assign_row0 iload1 mask ksym_m ;;
  k_m <- Np.compress mask k ;;
  iload2 <- mask_assign_row0 iload2 mask k_m ;;
  istore_m <- mapM (Np.compress mask) (tl (istore self)) ;;
  vk_m <- Np.take v k_m ;;
  x1 <- Np.add2 istore_m (Np.transpose d vk_m) ;;
  iload1 <- mask_assign_rows1 iload1 mask x1 ;;
  iload2 <- mask_assign_rows1 iload2 mask x1 ;;
  dist_m <- Np.compress mask (distance self) ;;
  s2 <- Np.mask_assign s1 mask (map (fun x => (1/2) / x)%R dist_m) ;;

  Ok (with_s (with_iload self (iload self ++ [iload1; iload2])) s2).

(** [Neumann.set_iload] *)
Definition Neumann_set_iload (self : Boundary_method) : result Boundary_method :=
  k <- Np.item (istore self) 0 ;;
  let v := get_all_velocities (stencil self) in
  vk <- Np.take v k ;;
  indices <- Np.add2 (tl (istore self)) (Np.transpose (dim (stencil self)) vk) ;;
  Ok (with_iload self (iload self ++ [k :: indices])).

(** [indices[r] += vkT[c]] *)
Definition iadd_row (indices : Np.table) (r : nat) (vkT : Np.table) (c : nat)
  : result Np.table :=
  old <- Np.item indices r ;;
  inc <- Np.item vkT c ;;
  new <- Np.add1 old inc ;;
  Ok (Np.set_row indices r new).

(** [Neumann_x.set_iload] *)
Definition Neumann_x_set_iload (self : Boundary_method) : result Boundary_method :=
  k <- Np.item (istore self) 0 ;;
  let v := get_all_velocities (stencil self) in
  let indices := tl (istore self) in
  vk <- Np.take v k ;;
  indices <- iadd_row indices 0 (Np.transpose (dim (stencil self)) vk) 0 ;;
  Ok (with_iload self (iload self ++ [k :: indices])).

(** [Neumann_y.set_iload] *)
Definition Neumann_y_set_iload (self : Boundary_method) : result Boundary_method :=
  k <- Np.item (istore self) 0 ;;
  let v := get_all_velocities (stencil self) in
  let indices := tl (istore self) in
  vk <- Np.take v k ;;
  indices <- iadd_row indices 1 (Np.transpose (dim (stencil self)) vk) 1 ;;
  Ok (with_iload self (iload self ++ [k :: indices])).

(** [Neumann_z.set_iload]: the source reads [indices[1] += v[k].T[2]] *)
Definition Neumann_z_set_iload (self : Boundary_method) : result Boundary_method :=
  k <- Np.item (istore self) 0 ;;
  let v := get_all_velocities (stencil self) in
  let indices := tl (istore self) in
  vk <- Np.take v k ;;
  indices <- iadd_row indices 1 (Np.transpose (dim (stencil self)) vk) 2 ;;
  Ok (with_iload self (iload self ++ [k :: indices])).

(** Method resolution along the class hierarchy. *)
Definition set_iload (self : Boundary_method) : result Boundary_method :=
  match class_ self with
  | bounce_back | anti_bounce_back => bounce_back_set_iload self
  | Bouzidi_bounce_back | Bouzidi_anti_bounce_back => Bouzidi_bounce_back_set_iload self
  | Neumann => Neumann_set_iload self
  | Neumann_x => Neumann_x_set_iload self
  | Neumann_y => Neumann_y_set_iload self
  | Neumann_z => Neumann_z_set_iload self
  end.

(** *** set_rhs *)

(** [a[i, j]] for an index [i] and a position [j] *)
Definition entry (a : list (list R)) (i : Z) (j : nat) : result R :=
  row <- Np.getitem a i ;; Np.item row j.

(** [a[k, np.arange(k.size)]]: entry [(k[j], j)] for every column [j] *)
Definition take_diag (a : list (list R)) (k : list Z) : result (list R) :=
  mapM (fun kj => entry a (fst kj) (snd kj)) (combine k (seq 0 (length k))).

(** [dst[:] = src] *)
Definition assign_all (dst src : list R) : result (list R) :=
  if (length dst =? length src)%nat then Ok src else Raise ValueError.

(** [bounce_back.set_rhs] and [Bouzidi_bounce_back.set_rhs] *)
Definition bounce_back_set_rhs (self : Boundary_method) : result Boundary_method :=
  k <- Np.item (istore self) 0 ;;
  ksym <- Np.take (get_symmetric (stencil self)) k ;;
  a <- take_diag (feq self) k ;;
  b <- take_diag (feq self) ksym ;;
  x <- zipWithM (fun u w => Ok (u - w)%R) a b ;;
  r <- assign_all (rhs self) x ;;
  Ok (with_rhs self r).

(** [anti_bounce_back.set_rhs] and [Bouzidi_anti_bounce_back.set_rhs] *)
Definition anti_bounce_back_set_rhs (self : Boundary_method) : result Boundary_method :=
  k <- Np.item (istore self) 0 ;;
  ksym <- Np.take (get_symmetric (stencil self)) k ;;
  a <- take_diag (feq self) k ;;
  b <- take_diag (feq self) ksym ;;
  x <- zipWithM (fun u w => Ok (u + w)%R) a b ;;
  r <- assign_all (rhs self) x ;;
  Ok (with_rhs self r).

(** [Neumann.set_rhs]: [pass] *)
Definition Neumann_set_rhs (self : Boundary_method) : result Boundary_method :=
  Ok self.

Definition set_rhs (self : Boundary_method) : result Boundary_method :=
  match class_ self with
  | bounce_back | Bouzidi_bounce_back => bounce_back_set_rhs self
  | anti_bounce_back | Bouzidi_anti_bounce_back => anti_bounce_back_set_rhs self
  | Neumann | Neumann_x | Neumann_y | Neumann_z => Neumann_set_rhs self
  end.

(** *** update

    [update] mutates the field it is given; the instance comes back with it
    so that what happens to the instance is part of the statement. *)

Definition vadd (a b : list R) : result (list R) :=
  zipWithM (fun x y => Ok (x + y)%R) a b.
Definition vmul (a b : list R) : result (list R) :=
  zipWithM (fun x y => Ok (x * y)%R) a b.

(** [bounce_back.update] *)
Definition bounce_back_update (self : Boundary_method) (f : Field)
  : result (Boundary_method * Field) :=
  l0 <- Np.item (iload self) 0 ;;
  a <- Field_getitem f l0 ;;
  x <- vadd a (rhs self) ;;
  f' <- Field_setitem f (istore self) x ;;
  Ok (self, f').

(** [Bouzidi_bounce_back.update] *)
Definition Bouzidi_bounce_back_update (self : Boundary_method) (f : Field)
  : result (Boundary_method * Field) :=
  l0 <- Np.item (iload self) 0 ;;
  a <- Field_getitem f l0 ;;
  sa <- vmul (s self) a ;;
  l1 <- Np.item (iload self) 1 ;;
  b <- Field_getitem f l1 ;;
  sb <- vmul (map (fun x => 1 - x)%R (s self)) b ;;
  y <- vadd sa sb ;;
  x <- vadd y (rhs self) ;;
  f' <- Field_setitem f (istore self) x ;;
  Ok (self, f').

(** [anti_bounce_back.update] *)
Definition anti_bounce_back_update (self : Boundary_method) (f : Field)
  : result (Boundary_method * Field) :=
  l0 <- Np.item (iload self) 0 ;;
  a <- Field_getitem f l0 ;;
  x <- vadd (map Ropp a) (rhs self) ;;
  f' <- Field_setitem f (istore self) x ;;
  Ok (self, f').

(** [Bouzidi_anti_bounce_back.update] *)
Definition Bouzidi_anti_bounce_back_update (self : Boundary_method) (f : Field)
  : result (Boundary_method * Field) :=
  l0 <- Np.item (iload self) 0 ;;
  a <- Field_getitem f l0 ;;
  sa <- vmul (map Ropp (s self)) a ;;
  l1 <- Np.item (iload self) 1 ;;
  b <- Field_getitem f l1 ;;
  sb <- vmul (map (fun x => x - 1)%R (s self)) b ;;
  y <- vadd sa sb ;;
  x <- vadd y (rhs self) ;;
  f' <- Field_setitem f (istore self) x ;;
  Ok (self, f').

(** [Neumann.update], inherited by the axis-restricted classes *)
Definition Neumann_update (self : Boundary_method) (f : Field)
  : result (Boundary_method * Field) :=
  l0 <- Np.item (iload self) 0 ;;
  a <- Field_getitem f l0 ;;
  f' <- Field_setitem f (istore self) a ;;
  Ok (self, f').

Definition update (self : Boundary_method) (f : Field)
  : result (Boundary_method * Field) :=
  match class_ self with
  | bounce_back => bounce_back_update self f
  | Bouzidi_bounce_back => Bouzidi_bounce_back_update self f
  | anti_bounce_back => anti_bounce_back_update self f
  | Bouzidi_anti_bounce_back => Bouzidi_anti_bounce_back_update self f
  | Neumann | Neumann_x | Neumann_y | Neumann_z => Neumann_update self f
  end.

(** *** prepare_rhs *)

(** What [prepare_rhs] reads of the simulation: [simulation._m.nv], the
    domain ([dim], [dx], [coords_halo]) and the scheme ([equilibrium] works in
    place on the moments, [m2f] fills the distribution from the moments). *)
Record Simulation : Type := mkSimulation {
  sim_nv : nat;
  sim_dim : nat;
  sim_dx : R;
  coords_halo : list (list R);
  scheme_equilibrium : Array -> Array;
  scheme_m2f : Array -> Array -> Array
}.

(** [np.where(a == key)[0]] *)
Fixpoint where_eq_from (j : nat) (a : list Z) (key : Z) : list nat :=
  match a with
  | [] => []
  | x :: a' =>
      if (x =? key)%Z then j :: where_eq_from (S j) a' key
      else where_eq_from (S j) a' key
  end.
Definition where_eq (a : list Z) (key : Z) : list nat := where_eq_from 0 a key.

(** [a[indices]] for the positions [np.where] returned *)
Definition take_at {A} (a : list A) (indices : list nat) : result (list A) :=
  mapM (Np.item a) indices.

(** [v[k, i]] *)
Definition take_component (v : Np.table) (k : list Z) (i : nat) : result (list Z) :=
  mapM (fun kj => row <- Np.getitem v kj ;; Np.item row i) k.

(** One pass of the loop that builds [coords]: the coordinate, along axis [i],
    of the points of the columns [indices], moved to the wall. *)
Definition wall_coordinate (sim : Simulation) (self : Boundary_method)
    (indices : list nat) (k : list Z) (s_ : list R) (i : nat) : result (list R) :=
  halo <- Np.item (coords_halo sim) i ;;
  row <- Np.item (istore self) (i + 1) ;;
  pos <- take_at row indices ;;
  x <- Np.take halo pos ;;
  vki <- take_component (get_all_velocities (stencil self)) k i ;;
  step <- zipWithM (fun a b => Ok (a * IZR b * sim_dx sim)%R) s_ vki ;;
  vadd x step.

(** The text given to [self.log.error], up to its layout. *)
Definition log_message : string :=
  "Function set in boundary must be the function name or a tuple of size 2 with function name and extra args.".

(** [row[indices] = xs] *)
Fixpoint put (row : list R) (indices : list nat) (xs : list R) : result (list R) :=
  match indices, xs with
  | [], [] => Ok row
  | j :: indices', x :: xs' =>
      if (j <? length row)%nat then put (Np.set_row row j x) indices' xs'
      else Raise IndexError
  | _, _ => Raise ValueError
  end.

(** [feq[:, indices] = f.swaparray.reshape((nv, n))] *)
Definition put_columns (feq_ : list (list R)) (indices : list nat) (nv : nat)
    (f : Array) : result (list (list R)) :=
  if (length f =? nv)%nat && forallb (fun r => (length r =? length indices)%nat) f
  then zipWithM (fun row xs => put row indices xs) feq_ f
  else Raise ValueError.

(** The call of the prescribed value on [(f, m, *coords)]; the second
    component tells whether [self.log.error] was called. *)
Definition call_value (value : pyvalue) (f m : Array) (coords : list pyarg)
  : bool * result (Array * Array) :=
  match value with
  | VFunction g => (false, g f m coords)
  | VTuple items =>
      (negb (length items =? 2)%nat,
       v1 <- Np.item items 1 ;;
       extra <- match v1 with PTuple a => Ok a | _ => Raise TypeError end ;;
       v0 <- Np.item items 0 ;;
       match v0 with
       | PFunction g => g f m (coords ++ extra)
       | _ => Raise TypeError
       end)
  | _ => (false, Ok (f, m))
  end.

(** The statements of the loop body from [k = ...] to the end of the loop
    that builds [coords]. *)
Definition wall_coordinates (sim : Simulation) (self : Boundary_method)
    (indices : list nat) : result (list (list R)) :=
  row0 <- Np.item (istore self) 0 ;;
  k <- take_at row0 indices ;;
  d <- take_at (distance self) indices ;;
  let s_ := map (fun x => 1 - x)%R d in
  mapM (wall_coordinate sim self indices k s_) (seq 0 (sim_dim sim)).

(** The body of the loop of [prepare_rhs] for one entry of [value_bc]: the
    instance afterwards and the exception raised, if any. *)
Definition prepare_rhs_label (sim : Simulation) (self : Boundary_method)
    (kv : Z * pyvalue) : Boundary_method * option pyerr :=
  let (key, value) := kv in
  match value with
  | VNone => (self, None)
  | _ =>
      let nv := sim_nv sim in
      let indices := where_eq (ilabel self) key in
      let n := length indices in
      match wall_coordinates sim self indices with
      | Raise e => (self, Some e)
      | Ok coords =>
          let m := repeat (repeat 0%R n) nv in
          let f := repeat (repeat 0%R n) nv in
          let (logged, called) := call_value value f m (map AArray coords) in
          let self1 := if logged then with_log self (log self ++ [log_message])
                       else self in
          match (fm <- called ;;
                 let m' := scheme_equilibrium sim (snd fm) in
                 let f' := scheme_m2f sim m' (fst fm) in
                 put_columns (feq self) indices nv f')
          with
          | Raise e => (self1, Some e)
          | Ok feq' => (with_feq self1 feq', None)
          end
      end
  end.

Arguments prepare_rhs_label : simpl never.

Fixpoint prepare_rhs_loop (sim : Simulation) (self : Boundary_method)
    (items : list (Z * pyvalue)) : Boundary_method * option pyerr :=
  match items with
  | [] => (self, None)
  | kv :: items' =>
      match prepare_rhs_label sim self kv with
      | (self', None) => prepare_rhs_loop sim self' items'
      | (self', Some e) => (self', Some e)
      end
  end.

(** [Boundary_method.prepare_rhs]; the entries of [value_bc] are visited in
    the order of the association list.  A Python dictionary promises no
    order of iteration; the statements about [prepare_rhs] hold for every
    list, hence whatever the order. *)
Definition prepare_rhs (self : Boundary_method) (sim : Simulation)
  : Boundary_method * option pyerr :=
  prepare_rhs_loop sim self (value_bc self).

(** ** Boundary_Velocity and Boundary *)

(** What the locator and the compiler read of the domain.  [flag] and
    [distance] are arrays of shape [(unvtot, *grid)]; they are given here as
    functions of the velocity index and the position. *)
Record Domain : Type := mkDomain {
  domain_stencil : Stencil;
  list_of_labels : list Z;
  grid : list nat;
  domain_flag : nat -> list nat -> Z;
  domain_distance : nat -> list nat -> R
}.

(** The positions of an array of shape [sh], in the order [np.where] lists
    them (last axis fastest). *)
Fixpoint positions (sh : list nat) : list (list nat) :=
  match sh with
  | [] => [[]]
  | n :: sh' => flat_map (fun i => map (cons i) (positions sh')) (seq 0 n)
  end.

Record Boundary_Velocity : Type := mkBV {
  bv_label : Z;
  bv_v : Velocity;
  bv_indices : Np.table;
  bv_distance : list R
}.

(** [Boundary_Velocity.__init__] *)
Definition Boundary_Velocity_init (domain : Domain) (label : Z) (ksym : nat)
  : result Boundary_Velocity :=
  let st := domain_stencil domain in
  self_v <- Np.item (unique_velocities st) ksym ;;
  let v := Velocity_get_symmetric st self_v in
  num_ <- of_option KeyError (unum2index st (Velocity_num v)) ;;
  let ind := filter (fun p => (domain_flag domain num_ p =? label)%Z)
                    (positions (grid domain)) in
  let indices := map (fun i => map (fun p => Z.of_nat (nth i p 0%nat)) ind)
                     (seq 0 (length (grid domain))) in
  indices <- (if (Np.size indices =? 0)%nat then Ok indices
              else zipWithM (fun row c => Ok (map (fun x => x + c)%Z row))
                            indices (Velocity_v v)) ;;
  Ok (mkBV label self_v indices (map (domain_distance domain num_) ind)).

(** One entry of the ['boundary_conditions'] dictionary: the ['method']
    dictionary (velocity family -> class, in iteration order) and the
    ['value'] entry, each absent or present. *)
Record bc_entry : Type := mkEntry {
  entry_method : option (list (Z * method_class));
  entry_value : option pyvalue
}.

(** The configuration: the ['boundary_conditions'] key, absent or present. *)
Definition Dico := option (list (Z * bc_entry)).

Definition method_class_eqb (a b : method_class) : bool :=
  match a, b with
  | bounce_back, bounce_back
  | Bouzidi_bounce_back, Bouzidi_bounce_back
  | anti_bounce_back, anti_bounce_back
  | Bouzidi_anti_bounce_back, Bouzidi_anti_bounce_back
  | Neumann, Neumann
  | Neumann_x, Neumann_x
  | Neumann_y, Neumann_y
  | Neumann_z, Neumann_z => true
  | _, _ => false
  end.

(** Dictionaries keyed by the method class, in insertion order
    ([istore] is an [OrderedDict]). *)
Fixpoint cdict_get {V} (d : list (method_class * V)) (k : method_class) : option V :=
  match d with
  | [] => None
  | (k', x) :: d' => if method_class_eqb k' k then Some x else cdict_get d' k
  end.

Fixpoint cdict_set {V} (d : list (method_class * V)) (k : method_class) (x : V)
  : list (method_class * V) :=
  match d with
  | [] => [(k, x)]
  | (k', y) :: d' =>
      if method_class_eqb k' k then (k, x) :: d' else (k', y) :: cdict_set d' k x
  end.

(** The four dictionaries the label loop fills. *)
Record tables : Type := mkTables {
  t_istore : list (method_class * Np.table);
  t_ilabel : list (method_class * list Z);
  t_distance : list (method_class * list R);
  t_value_bc : list (Z * pyvalue)
}.

(** What the innermost loop computes for one velocity before it stores
    anything: [istore_tmp], [ilabel_tmp] and [distance_tmp]. *)
Record block : Type := mkBlock {
  istore_tmp : Np.table;
  ilabel_tmp : list Z;
  distance_tmp : list R
}.

(** [enumerate(l)] *)
Definition enumerate {A} (l : list A) : list (nat * A) :=
  combine (seq 0 (length l)) l.

(** The first lines of the body of the innermost loop, for velocity [numk]
    at position [inumk] of family [k] on [label]: the block of columns to
    add, if the locator found any point. *)
Definition velocity_block (st : Stencil) (bv : list (Z * list Boundary_Velocity))
    (label : Z) (k : Z) (inumk : nat) (numk : Z) : result (option block) :=
  bv_label_ <- of_option KeyError (dict_get bv label) ;;
  i <- of_option KeyError (unum2index st numk) ;;
  b <- Np.item bv_label_ i ;;
  if negb (Np.size (bv_indices b) =? 0)%nat then
    let indices := bv_indices b in
    let n := Np.ncols indices in
    ptr <- Np.getitem (nv_ptr st) k ;;
    let velocity := repeat (Z.of_nat inumk + ptr)%Z n in
    Ok (Some (mkBlock (velocity :: indices) (repeat label n) (bv_distance b)))
  else Ok None.

(** The end of the body: the block goes to the tables of class [v]. *)
Definition store_block (v : method_class) (t : tables) (b : block) : result tables :=
  match cdict_get (t_istore t) v with
  | None =>
      Ok (mkTables (cdict_set (t_istore t) v (istore_tmp b))
                   (cdict_set (t_ilabel t) v (ilabel_tmp b))
                   (cdict_set (t_distance t) v (distance_tmp b))
                   (t_value_bc t))
  | Some old =>
      new <- Np.hconcat old (istore_tmp b) ;;
      il <- of_option KeyError (cdict_get (t_ilabel t) v) ;;
      di <- of_option KeyError (cdict_get (t_distance t) v) ;;
      Ok (mkTables (cdict_set (t_istore t) v new)
                   (cdict_set (t_ilabel t) v (il ++ ilabel_tmp b))
                   (cdict_set (t_distance t) v (di ++ distance_tmp b))
                   (t_value_bc t))
  end.

(** The body of the innermost loop *)
Definition add_velocity (st : Stencil) (bv : list (Z * list Boundary_Velocity))
    (label : Z) (k : Z) (v : method_class) (t : tables) (e : nat * Z)
  : result tables :=
  ob <- velocity_block st bv label k (fst e) (snd e) ;;
  match ob with
  | Some b => store_block v t b
  | None => Ok t
  end.

(** [for x in l] *)
Fixpoint for_each {St X} (body : St -> X -> result St) (l : list X) (st : St)
  : result St :=
  match l with
  | [] => Ok st
  | x :: l' => st' <- body st x ;; for_each body l' st'
  end.

(** The body of the loop over [methods.items()] *)
Definition add_family (st : Stencil) (bv : list (Z * list Boundary_Velocity))
    (label : Z) (t : tables) (kv : Z * method_class) : result tables :=
  let (k, v) := kv in
  nums <- Np.getitem (num st) k ;;
  for_each (add_velocity st bv label k v) (enumerate nums) t.

(** The body of the loop over the labels *)
Definition add_label (st : Stencil) (bv : list (Z * list Boundary_Velocity))
    (dico_bound : list (Z * bc_entry)) (t : tables) (label : Z) : result tables :=
  if (label =? -1)%Z then Ok t
  else if (label =? -2)%Z then Ok t
  else
    e <- of_option KeyError (dict_get dico_bound label) ;;
    let value := match entry_value e with Some x => x | None => VNone end in
    let t := mkTables (t_istore t) (t_ilabel t) (t_distance t)
                      (dict_set (t_value_bc t) label value) in
    methods <- of_option KeyError (entry_method e) ;;
    for_each (add_family st bv label) methods t.

(** The first loop: the locator records of every label and velocity *)
Definition build_bv (domain : Domain) : result (list (Z * list Boundary_Velocity)) :=
  for_each (fun bv label =>
              dummy_bv <- mapM (Boundary_Velocity_init domain label)
                               (seq 0 (unvtot (domain_stencil domain))) ;;
              Ok (dict_set bv label dummy_bv))
           (list_of_labels domain) [].

Record Boundary : Type := mkBoundary {
  bv : list (Z * list Boundary_Velocity);
  methods : list Boundary_method
}.

Definition empty_tables : tables := mkTables [] [] [] [].

(** The instance of class [k] in the last loop *)
Definition instantiate (st : Stencil) (t : tables) (k : method_class)
  : result Boundary_method :=
  is_ <- of_option KeyError (cdict_get (t_istore t) k) ;;
  il <- of_option KeyError (cdict_get (t_ilabel t) k) ;;
  di <- of_option KeyError (cdict_get (t_distance t) k) ;;
  Boundary_method_init k is_ il di st (t_value_bc t).

(** [Boundary.__init__] *)
Definition Boundary_init (domain : Domain) (dico : Dico) : result Boundary :=
  bv_ <- build_bv domain ;;
  let dico_bound := match dico with Some d => d | None => [] end in
  let st := domain_stencil domain in
  t <- for_each (add_label st bv_ dico_bound) (list_of_labels domain) empty_tables ;;
  methods_ <- mapM (instantiate st t) (map fst (t_istore t)) ;;
  Ok (mkBoundary bv_ methods_).

(** ** Notions used in the statements *)

(** [x + c * vk], component by component, for a spatial index [x] and a
    velocity [vk] (a component [vk] lacks counts as 0, as in
    [Np.transpose]). *)
Fixpoint shift (c : Z) (x vk : list Z) : list Z :=
  match x with
  | [] => []
  | xi :: x' => (xi + c * hd 0 vk)%Z :: shift c x' (tl vk)
  end.

(** Number of selected positions of a mask before position [j]: where
    [a[mask]] holds entry [j] of [a]. *)
Fixpoint rank (mask : list bool) (j : nat) : nat :=
  match j, mask with
  | S j', m :: mask' => ((if m then 1 else 0) + rank mask' j')%nat
  | _, _ => 0%nat
  end.

(** The interpolation weight of the Bouzidi classes at distance [d]. *)
Definition Bouzidi_s (d : R) : R :=
  if Rltb d (1/2) then (2 * d)%R else ((1/2) / d)%R.

(** Column [j] of the equilibrium table, one entry per row ([None] where a
    row is too short). *)
Definition feq_column (fq : list (list R)) (j : nat) : list (option R) :=
  map (fun row => nth_error row j) fq.

(** The value of the field at an index tuple, 0 where the tuple is out of
    range (only used to name the values a limit depends on). *)
Definition value_at (f : Field) (c : list Z) : R :=
  match norm_multi (shape f) c with Ok q => data f q | Raise _ => 0%R end.

Definition or_default {A} (d : A) (c : result A) : A :=
  match c with Ok a => a | Raise _ => d end.

(** The entries of the field the columns of a table address. *)
Definition targets (f : Field) (t : Np.table) : result (list (list nat)) :=
  mapM (norm_multi (shape f)) (Np.columns t).

(** The traversal the tables of [Boundary] are specified by: every label
    that is not reserved, in the order of the domain; for each, every
    (velocity family, class) assignment, in the order of the configuration;
    for each, every velocity of the family, in the order of the stencil; the
    block of the velocity, when the locator found points, tagged with the
    class. *)
Definition family_blocks (st : Stencil) (bv : list (Z * list Boundary_Velocity))
    (label : Z) (kv : Z * method_class) : result (list (method_class * block)) :=
  nums <- Np.getitem (num st) (fst kv) ;;
  bss <- mapM (fun e =>
                 ob <- velocity_block st bv label (fst kv) (fst e) (snd e) ;;
                 Ok (match ob with Some b => [(snd kv, b)] | None => [] end))
              (enumerate nums) ;;
  Ok (concat bss).

Definition label_blocks (st : Stencil) (bv : list (Z * list Boundary_Velocity))
    (dico_bound : list (Z * bc_entry)) (label : Z)
  : result (list (method_class * block)) :=
  if (label =? -1)%Z || (label =? -2)%Z then Ok []
  else
    e <- of_option KeyError (dict_get dico_bound label) ;;
    methods <- of_option KeyError (entry_method e) ;;
    bss <- mapM (family_blocks st bv label) methods ;;
    Ok (concat bss).

Definition traversal (domain : Domain) (dico : Dico)
  : result (list (method_class * block)) :=
  bv_ <- build_bv domain ;;
  let dico_bound := match dico with Some d => d | None => [] end in
  bss <- mapM (label_blocks (domain_stencil domain) bv_ dico_bound)
              (list_of_labels domain) ;;
  Ok (concat bss).

(** The blocks of class [v], in the order of the traversal. *)
Definition blocks_of (v : method_class) (bs : list (method_class * block))
  : list block :=
  map snd (filter (fun p => method_class_eqb (fst p) v) bs).

(** Two tables side by side, and a list of tables side by side, left to
    right (no table for no block). *)
Definition happ (a b : Np.table) : Np.table :=
  map (fun p => fst p ++ snd p) (combine a b).

Definition hcat (ts : list Np.table) : option Np.table :=
  match ts with
  | [] => None
  | t :: ts' => Some (fold_left happ ts' t)
  end.

(** The classes of a list in the order each is met first. *)
Definition first_seen (l : list method_class) : list method_class :=
  fold_left (fun acc c =>
               if existsb (fun c' => method_class_eqb c' c) acc then acc
               else acc ++ [c])
            l [].

Definition reserved (label : Z) : bool := (label =? -1)%Z || (label =? -2)%Z.

(** Lists appended in order (nothing for no list). *)
Definition group {A} (ls : list (list A)) : option (list A) :=
  match ls with
  | [] => None
  | _ => Some (concat ls)
  end.

(** The tables of the label loop hold the blocks [bs], class by class, in
    the order of [bs]; the classes come in the order they are first met. *)
Definition tables_spec (t : tables) (bs : list (method_class * block)) : Prop :=
  map fst (t_istore t) = first_seen (map fst bs) /\
  forall v,
    cdict_get (t_istore t) v = hcat (map istore_tmp (blocks_of v bs)) /\
    cdict_get (t_ilabel t) v = group (map ilabel_tmp (blocks_of v bs)) /\
    cdict_get (t_distance t) v = group (map distance_tmp (blocks_of v bs)).

(** The classes with two load tables. *)
Definition is_Bouzidi (c : method_class) : bool :=
  match c with
  | Bouzidi_bounce_back | Bouzidi_anti_bounce_back => true
  | _ => false
  end.

(** The geometry of an instance: everything but [feq] and the log. *)
Definition same_geometry (a b : Boundary_method) : Prop :=
  class_ a = class_ b /\ istore a = istore b /\ rhs a = rhs b /\
  ilabel a = ilabel b /\ distance a = distance b /\ stencil a = stencil b /\
  iload a = iload b /\ value_bc a = value_bc b /\ s a = s b.

(** Every locator record has one row of indices per axis of the grid. *)
Definition bv_ok (rank : nat) (bv : list (Z * list Boundary_Velocity)) : Prop :=
  forall label l b, dict_get bv label = Some l -> In b l ->
                    length (bv_indices b) = rank.

(** Every destination table has one row more than the grid has axes. *)
Definition rows_ok (rank : nat) (t : tables) : Prop :=
  forall v T, cdict_get (t_istore t) v = Some T -> length T = S rank.

(** A label that is not reserved and that the configuration does not
    cover, or covers without a ['method'] entry. *)
Definition uncovered (dico : Dico) (label : Z) : Prop :=
  reserved label = false /\
  let dico_bound := match dico with Some d => d | None => [] end in
  (dict_get dico_bound label = None \/
   exists e, dict_get dico_bound label = Some e /\ entry_method e = None).

(** The symmetric of every velocity of the stencil has one component per
    axis of the grid. *)
Definition consistent (domain : Domain) : Prop :=
  forall v,
    In v (unique_velocities (domain_stencil domain)) ->
    length (Velocity_v (Velocity_get_symmetric (domain_stencil domain) v))
    = length (grid domain).

(** Two fields hold the same values at the entries the columns of a table
    address. *)
Definition agree_on (f g : Field) (t : Np.table) : Prop :=
  forall c q, In c (Np.columns t) -> norm_multi (shape f) c = Ok q ->
              data f q = data g q.

(** An entry of the field that a column of the table addresses. *)
Definition addressed (f : Field) (t : Np.table) (p : list nat) : Prop :=
  exists c, In c (Np.columns t) /\ norm_multi (shape f) c = Ok p.

(** Two runs of [update] end alike: the same exception, or fields that
    agree on the entries [istore] addresses. *)
Definition same_outcome (f : Field) (t : Np.table)
    (r1 r2 : result (Boundary_method * Field)) : Prop :=
  match r1, r2 with
  | Ok (_, f'), Ok (_, g') =>
      forall p, addressed f t p -> data f' p = data g' p
  | Raise e1, Raise e2 => e1 = e2
  | _, _ => False
  end.

(** A table of [rows] rows, all of the same positive length, with one
    label and one distance per column. *)
Definition aligned (rows : nat) (T : Np.table) (il : list Z) (di : list R)
  : Prop :=
  length T = rows /\ (0 < Np.ncols T)%nat /\
  (forall row, In row T -> length row = Np.ncols T) /\
  length il = Np.ncols T /\ length di = Np.ncols T.

(** Every locator record has one row of indices per axis of the grid, each
    with one entry per distance. *)
Definition bv_aligned (rank : nat) (bv : list (Z * list Boundary_Velocity))
  : Prop :=
  forall label l b, dict_get bv label = Some l -> In b l ->
    length (bv_indices b) = rank /\
    forall row, In row (bv_indices b) -> length row = length (bv_distance b).

(** The number of load tables [update] reads. *)
Definition loads (c : method_class) : nat := if is_Bouzidi c then 2 else 1.

(** A table of [r] rows of length [n]; the number of selected positions of
    a mask; the number of axes [set_iload] of a class needs beyond what the
    shape of [istore] gives. *)
Definition rect {A} (r n : nat) (T : list (list A)) : Prop :=
  length T = r /\ forall row, In row T -> length row = n.

Definition ntrue (mask : list bool) : nat := length (filter (fun b => b) mask).

Definition axes_needed (c : method_class) : nat :=
  match c with
  | Neumann_x => 1 | Neumann_y => 2 | Neumann_z => 3
  | _ => 0
  end.

(** ** Concrete inputs

    Small stencils and instances on which the definitions are run. *)

(** Two velocities along z in three dimensions, each the symmetric of the
    other. *)
Definition stencil_z : Stencil :=
  mkStencil 3 2
    [mkVelocity [0; 0; 1]%Z 1; mkVelocity [0; 0; -1]%Z 2]
    (fun v => mkVelocity (map Z.opp (Velocity_v v))
                         (if (Velocity_num v =? 1)%Z then 2 else 1)%Z)
    (fun n => if (n =? 1)%Z then Some 0%nat
              else if (n =? 2)%Z then Some 1%nat else None)
    [[1; 2]%Z] [0; 2]%Z [1; 0]%Z
    [[0; 0; 1]; [0; 0; -1]]%Z.

(** One boundary point at (5, 5, 5) for velocity 0. *)
Definition one_point (c : method_class) : Boundary_method :=
  mkMethod c [] [[0]; [5]; [5]; [5]]%Z [[0]; [0]]%R [0]%R [7]%Z [1/4]%R
    stencil_z [] [(7%Z, VNone)] [0]%R.

(** The same point once [set_iload] has run for the bounce-back class. *)
Definition loaded_point : Boundary_method :=
  with_iload (one_point bounce_back) [[[1]; [5]; [5]; [6]]%Z].

(** A field of shape (2, 8, 8, 8) with the value 3 everywhere, and the same
    field after one entry has been written. *)
Definition field0 : Field := mkField [2; 8; 8; 8]%nat (fun _ => 3%R).
Definition field1 : Field :=
  mkField [2; 8; 8; 8]%nat (scatter (fun _ => 3%R) [[0; 5; 5; 5]%nat] [(3 + 0)%R]).

(** The field after [update] of the bounce-back and of the anti-bounce-back
    class on [loaded_point] with its forcing term set. *)
Definition field2 : Field :=
  mkField [2; 8; 8; 8]%nat
    (scatter (fun _ => 3%R) [[0; 5; 5; 5]%nat] [(3 + (0 - 0))%R]).
Definition field3 : Field :=
  mkField [2; 8; 8; 8]%nat
    (scatter (fun _ => 3%R) [[0; 5; 5; 5]%nat] [(- (3) + (0 + 0))%R]).

(** The same point with equilibrium 2 for velocity 0 and 1 for its
    symmetric, a field that is 0 everywhere, and the states the point and the
    field go through for the bounce-back and the anti-bounce-back class. *)
Definition sign_point (c : method_class) : Boundary_method :=
  mkMethod c [] [[0]; [5]; [5]; [5]]%Z [[2]; [1]]%R [0]%R [7]%Z [1/4]%R
    stencil_z [] [(7%Z, VNone)] [0]%R.
Definition sign_loaded (c : method_class) : Boundary_method :=
  with_iload (sign_point c) [[[1]; [5]; [5]; [6]]%Z].
Definition sign_ready (c : method_class) (r : R) : Boundary_method :=
  with_rhs (sign_loaded c) [r].
Definition field_zero : Field := mkField [2; 8; 8; 8]%nat (fun _ => 0%R).
Definition field_written (x : R) : Field :=
  mkField [2; 8; 8; 8]%nat (scatter (fun _ => 0%R) [[0; 5; 5; 5]%nat] [x]).

(** The point for the Bouzidi bounce-back class, at distance 1/4: after
    [set_iload], after [set_rhs], and the field [update] leaves. *)
Definition Bouzidi_loaded : Boundary_method :=
  with_s (with_iload (one_point Bouzidi_bounce_back)
            [[[1]; [5]; [5]; [6]]%Z; [[1]; [5]; [5]; [7]]%Z])
         [(2 * (1/4))%R].
Definition Bouzidi_ready : Boundary_method :=
  with_rhs Bouzidi_loaded [(0 - 0)%R].
Definition field4 : Field :=
  mkField [2; 8; 8; 8]%nat
    (scatter (fun _ => 3%R) [[0; 5; 5; 5]%nat]
       [(2 * (1/4) * 3 + (1 - 2 * (1/4)) * 3 + (0 - 0))%R]).

(** A simulation in three dimensions with two distribution components,
    whose scheme copies the moments; a prescribed-value function that sets
    every moment to 1; the point with a tuple of three items as prescribed
    value of its label. *)
Definition halo8 : list R := [0; 1; 2; 3; 4; 5; 6; 7]%R.
Definition copy_scheme : Simulation :=
  mkSimulation 2 3 1%R [halo8; halo8; halo8] (fun m => m) (fun m _ => m).
Definition set_one : bcfun :=
  fun f m _ => Ok (f, map (map (fun _ => 1%R)) m).
Definition three_items : list pyobj := [PFunction set_one; PTuple []; POther].
Definition tuple_point : Boundary_method :=
  mkMethod bounce_back [] [[0]; [5]; [5]; [5]]%Z [[0]; [0]]%R [0]%R [7]%Z [1/4]%R
    stencil_z [] [(7%Z, VTuple three_items)] [0]%R.

(** A domain in one dimension: two velocities, 1 and -1; four cells; the
    labels -1 (periodic) and 7; one cell flagged 7 for the velocity of
    index 0, at distance 1/4.  A configuration that gives label 7 to the
    bounce-back class, and the construction it yields. *)
Definition stencil_x : Stencil :=
  mkStencil 1 2
    [mkVelocity [1]%Z 1; mkVelocity [-1]%Z 2]
    (fun v => mkVelocity (map Z.opp (Velocity_v v))
                         (if (Velocity_num v =? 1)%Z then 2 else 1)%Z)
    (fun n => if (n =? 1)%Z then Some 0%nat
              else if (n =? 2)%Z then Some 1%nat else None)
    [[1; 2]%Z] [0; 2]%Z [1; 0]%Z
    [[1]; [-1]]%Z.

Definition domain_x : Domain :=
  mkDomain stencil_x [-1; 7]%Z [4]%nat
    (fun n p => match p with
                | [x] => if ((n =? 0) && (x =? 2))%nat then 7%Z else 0%Z
                | _ => 0%Z
                end)
    (fun _ _ => (1/4)%R).

Definition dico_x : Dico :=
  Some [(7%Z, mkEntry (Some [(0%Z, bounce_back)]) None)].

Definition boundary_x : Boundary :=
  or_default (mkBoundary [] []) (Boundary_init domain_x dico_x).

(** The same domain with a second label, 8, flagged on one cell for each
    velocity, both labels given to the bounce-back class. *)
Definition domain_two_labels : Domain :=
  mkDomain stencil_x [7; -2; 8]%Z [4]%nat
    (fun n p => match p with
                | [x] => if ((n =? 0) && (x =? 2))%nat then 7%Z
                         else if ((n =? 1) && (x =? 1))%nat then 8%Z
                         else if ((n =? 0) && (x =? 3))%nat then 8%Z
                         else 0%Z
                | _ => 0%Z
                end)
    (fun n _ => if (n =? 0)%nat then (1/4)%R else (3/4)%R).

Definition dico_two_labels : Dico :=
  Some [(8%Z, mkEntry (Some [(0%Z, bounce_back)]) None);
        (7%Z, mkEntry (Some [(0%Z, bounce_back)]) None)].

(** The point for the Bouzidi anti-bounce-back class: after [set_iload],
    after [set_rhs], and the field [update] leaves. *)
Definition Bouzidi_anti_loaded : Boundary_method :=
  with_s (with_iload (one_point Bouzidi_anti_bounce_back)
            [[[1]; [5]; [5]; [6]]%Z; [[1]; [5]; [5]; [7]]%Z])
         [(2 * (1/4))%R].
Definition Bouzidi_anti_ready : Boundary_method :=
  with_rhs Bouzidi_anti_loaded [(0 + 0)%R].
Definition field5 : Field :=
  mkField [2; 8; 8; 8]%nat
    (scatter (fun _ => 3%R) [[0; 5; 5; 5]%nat]
       [(- (2 * (1/4)) * 3 + (2 * (1/4) - 1) * 3 + (0 + 0))%R]).

(** The instance the construction on [domain_x] yields, for any class: one
    point in one dimension, velocity index 1 at position 3. *)
Definition line_point (c : method_class) : Boundary_method :=
  mkMethod c [] [[1]; [3]]%Z [[0]; [0]]%R [0]%R [7]%Z [1/4]%R
    stencil_x [] [(7%Z, VNone)] [0]%R.

(** The point with a function as prescribed value of its label, and the
    instance [prepare_rhs] leaves on [copy_scheme]. *)
Definition function_point : Boundary_method :=
  mkMethod bounce_back [] [[0]; [5]; [5]; [5]]%Z [[0]; [0]]%R [0]%R [7]%Z [1/4]%R
    stencil_z [] [(7%Z, VFunction set_one)] [0]%R.
Definition function_point_prepared : Boundary_method :=
  with_feq function_point [[1]; [1]]%R.

(** The locator record of label 7 on [domain_x] for the velocity of index 1:
    the cell 2, flagged for its symmetric, moved by that symmetric. *)
Definition bv_x : Boundary_Velocity :=
  mkBV 7 (mkVelocity [-1]%Z 2) [[3]]%Z [(1/4)%R].

(** A periodic line: the labels -1 and -2 only, no cell flagged; what the
    locator records on it. *)
Definition domain_periodic : Domain :=
  mkDomain stencil_x [-1; -2]%Z [4]%nat (fun _ _ => 0%Z) (fun _ _ => 0%R).
Definition bv_periodic : list (Z * list Boundary_Velocity) :=
  or_default [] (build_bv domain_periodic).

(** The point at distance [d] for the Bouzidi bounce-back class, what
    [set_iload] makes of it below 1/2 and from 1/2 on, the same with the
    forcing term set, and a field whose value tells the velocity index and
    the last coordinate of the entry apart. *)
Definition Bouzidi_at (d : R) : Boundary_method :=
  mkMethod Bouzidi_bounce_back [] [[0]; [5]; [5]; [5]]%Z [[0]; [0]]%R [0]%R
    [7]%Z [d] stencil_z [] [(7%Z, VNone)] [0]%R.
Definition Bouzidi_below (d : R) : Boundary_method :=
  with_s (with_iload (Bouzidi_at d)
            [[[1]; [5]; [5]; [6]]%Z; [[1]; [5]; [5]; [7]]%Z])
         [(2 * d)%R].
Definition Bouzidi_above (d : R) : Boundary_method :=
  with_s (with_iload (Bouzidi_at d)
            [[[1]; [5]; [5]; [6]]%Z; [[0]; [5]; [5]; [6]]%Z])
         [((1/2) / d)%R].
Definition field_ramp : Field :=
  mkField [2; 8; 8; 8]%nat
    (fun p => INR (10 * nth 0 p 0 + nth 3 p 0)%nat).
Definition field_below (d : R) : Field :=
  mkField [2; 8; 8; 8]%nat
    (scatter (data field_ramp) [[0; 5; 5; 5]%nat]
       [(2 * d * INR 16 + (1 - 2 * d) * INR 17 + (0 - 0))%R]).
Definition field_above (d : R) : Field :=
  mkField [2; 8; 8; 8]%nat
    (scatter (data field_ramp) [[0; 5; 5; 5]%nat]
       [((1/2) / d * INR 16 + (1 - (1/2) / d) * INR 6 + (0 - 0))%R]).

(** * Properties *)

(** ** The error monad and the list traversals *)

Lemma bind_Ok {A B} (c : result A) (k : A -> result B) (b : B) :
  bind c k = Ok b -> exists a, c = Ok a /\ k a = Ok b.
Proof. destruct c as [a|e]; simpl; [eauto | discriminate]. Qed.

Ltac inv_bind H :=
  repeat match type of H with
    | bind ?c ?k = Ok ?b =>
        let a := fresh "x" in
        let Ha := fresh "E" in
        apply bind_Ok in H; destruct H as (a & Ha & H)
    end.

Ltac inv_ok H := inv_bind H; injection H as H; subst.

Tactic Notation "bind_inv" hyp(H) ident(x) ident(E) :=
  apply bind_Ok in H; destruct H as (x & E & H).

Ltac inv_binds :=
  repeat match goal with
    | H : bind _ _ = Ok _ |- _ =>
        apply bind_Ok in H; destruct H as (? & ? & H)
    end.

Lemma of_option_Ok {A} (e : pyerr) (o : option A) (a : A) :
  of_option e o = Ok a -> o = Some a.
Proof. destruct o; simpl; congruence. Qed.

Lemma mapM_length {A B} (f : A -> result B) :
  forall l l', mapM f l = Ok l' -> length l' = length l.
Proof.
  induction l as [|x l IH]; simpl; intros l' H.
  - injection H as <-. reflexivity.
  - inv_ok H. simpl. f_equal. eauto.
Qed.

Lemma mapM_nth_error {A B} (f : A -> result B) :
  forall l l' j x, mapM f l = Ok l' -> nth_error l j = Some x ->
    exists y, f x = Ok y /\ nth_error l' j = Some y.
Proof.
  induction l as [|a l IH]; simpl; intros l' j x H Hj.
  - destruct j; discriminate.
  - inv_ok H. destruct j as [|j]; simpl in *.
    + injection Hj as ->. eauto.
    + eauto.
Qed.

Lemma zipWithM_length {A B C} (f : A -> B -> result C) :
  forall a b c, zipWithM f a b = Ok c -> length a = length c /\ length b = length c.
Proof.
  induction a as [|x a IH]; destruct b as [|y b]; simpl; intros c H;
    try discriminate.
  - injection H as <-. auto.
  - inv_ok H. simpl. destruct (IH _ _ E0). auto.
Qed.

Lemma zipWithM_total {A B C} (f : A -> B -> C) :
  forall a b, length a = length b ->
    exists c, zipWithM (fun x y => Ok (f x y)) a b = Ok c.
Proof.
  induction a as [|x a IH]; destruct b as [|y b]; simpl; intros H;
    try discriminate; eauto.
  destruct (IH b) as [c Hc]; [lia|]. rewrite Hc. simpl. eauto.
Qed.

(** ** Indexed writes of the field *)

Lemma scatter_frame : forall ps xs d q,
  ~ In q ps -> scatter d ps xs q = d q.
Proof.
  induction ps as [|p ps IH]; intros [|x xs] d q Hq; simpl; try reflexivity.
  rewrite IH by (simpl in Hq; tauto).
  unfold upd. destruct (list_eq_dec Nat.eq_dec q p) as [->|]; [|reflexivity].
  exfalso. apply Hq. left. reflexivity.
Qed.

Lemma scatter_written : forall ps xs d j p x,
  NoDup ps -> nth_error ps j = Some p -> nth_error xs j = Some x ->
  scatter d ps xs p = x.
Proof.
  induction ps as [|p0 ps IH]; intros [|x0 xs] d j p x Hnd Hp Hx;
    destruct j as [|j]; simpl in *; try discriminate.
  - injection Hp as ->. injection Hx as ->.
    rewrite scatter_frame by (inversion Hnd; assumption).
    unfold upd. destruct (list_eq_dec Nat.eq_dec p p); congruence.
  - inversion Hnd; subst. eauto.
Qed.

Lemma columns_length (t : Np.table) : length (Np.columns t) = Np.ncols t.
Proof. unfold Np.columns. rewrite length_map, length_seq. reflexivity. Qed.

Lemma columns_nth_error (t : Np.table) j :
  (j < Np.ncols t)%nat -> nth_error (Np.columns t) j = Some (Np.column t j).
Proof.
  intros H. unfold Np.columns.
  rewrite nth_error_map, nth_error_seq.
  destruct (Nat.ltb_spec j (Np.ncols t)); [reflexivity | lia].
Qed.

Lemma Field_setitem_shape f t xs f' :
  Field_setitem f t xs = Ok f' -> shape f' = shape f.
Proof.
  unfold Field_setitem. intros H. inv_bind H.
  destruct (length x =? length xs)%nat; [|discriminate].
  injection H as <-. reflexivity.
Qed.

Lemma Field_setitem_frame f t xs f' q :
  Field_setitem f t xs = Ok f' ->
  (forall c, In c (Np.columns t) -> norm_multi (shape f) c <> Ok q) ->
  data f' q = data f q.
Proof.
  unfold Field_setitem. intros H Hq. inv_bind H.
  destruct (length x =? length xs)%nat; [|discriminate].
  injection H as <-. simpl. apply scatter_frame.
  intros Hin. apply In_nth_error in Hin. destruct Hin as [j Hj].
  assert (Hlen : (j < length (Np.columns t))%nat).
  { rewrite <- (mapM_length _ _ _ E). apply nth_error_Some. congruence. }
  destruct (nth_error (Np.columns t) j) as [c|] eqn:Hc.
  2:{ apply nth_error_None in Hc. lia. }
  destruct (mapM_nth_error _ _ _ _ _ E Hc) as (p & Hp & Hp').
  apply (Hq c); [eapply nth_error_In; eauto | congruence].
Qed.

Lemma Field_setitem_written f t xs f' ps j p x :
  Field_setitem f t xs = Ok f' ->
  mapM (norm_multi (shape f)) (Np.columns t) = Ok ps ->
  NoDup ps -> nth_error ps j = Some p -> nth_error xs j = Some x ->
  data f' p = x.
Proof.
  unfold Field_setitem. intros H Hps Hnd Hp Hx. rewrite Hps in H. simpl in H.
  destruct (length ps =? length xs)%nat; [|discriminate].
  injection H as <-. simpl. eapply scatter_written; eauto.
Qed.

Lemma Field_getitem_nth f t a j c :
  Field_getitem f t = Ok a -> nth_error (Np.columns t) j = Some c ->
  exists q, norm_multi (shape f) c = Ok q /\ nth_error a j = Some (data f q).
Proof.
  unfold Field_getitem. intros H Hc.
  destruct (mapM_nth_error _ _ _ _ _ H Hc) as (y & Hy & Hj).
  inv_ok Hy. eauto.
Qed.

(** ** What [update] touches *)

Lemma update_self self f self' f' :
  update self f = Ok (self', f') ->
  self' = self /\ exists xs, Field_setitem f (istore self) xs = Ok f'.
Proof.
  unfold update, bounce_back_update, Bouzidi_bounce_back_update,
    anti_bounce_back_update, Bouzidi_anti_bounce_back_update, Neumann_update.
  intros H.
  destruct (class_ self); inv_bind H; injection H as <- <-; eauto.
Qed.

(** C7: [update] writes the entries of the field that the columns of its own
    [istore] address and no other; the shape of the field is kept; the
    instance, hence its destination, label, distance and load tables, is
    the same afterwards. *)
Theorem update_writes_only_istore :
  forall self f self' f',
    update self f = Ok (self', f') ->
    shape f' = shape f /\
    (forall q,
        (forall c, In c (Np.columns (istore self)) -> norm_multi (shape f) c <> Ok q) ->
        data f' q = data f q) /\
    istore self' = istore self /\ ilabel self' = ilabel self /\
    distance self' = distance self /\ iload self' = iload self.
Proof.
  intros self f self' f' H.
  destruct (update_self _ _ _ _ H) as (-> & xs & Hset).
  split; [eapply Field_setitem_shape; eauto|].
  split; [|auto].
  intros q Hq. eapply Field_setitem_frame; eauto.
Qed.

Lemma update_writes_only_istore_witness :
  shape field1 = shape field0 /\
  (forall q,
      (forall c, In c (Np.columns (istore loaded_point)) ->
                 norm_multi (shape field0) c <> Ok q) ->
      data field1 q = data field0 q) /\
  istore loaded_point = istore loaded_point /\
  ilabel loaded_point = ilabel loaded_point /\
  distance loaded_point = distance loaded_point /\
  iload loaded_point = iload loaded_point.
Proof.
  apply (update_writes_only_istore loaded_point field0 loaded_point field1).
  reflexivity.
Defined.

(** ** Neumann along z *)

(** C4: on a point at (5, 5, 5) whose velocity is (0, 0, 1), the load table
    of [Neumann_z] is (0; 5, 6, 5): the y row has moved by the z component of
    the velocity and the z row has not moved, where a neighbour along z would
    be (0; 5, 5, 6). *)
Theorem Neumann_z_moves_second_axis :
  fmap iload (set_iload (one_point Neumann_z)) = Ok [[[0]; [5]; [6]; [5]]%Z] /\
  [[0]; [5]; [6]; [5]]%Z <> [[0]; [5]; [5]; [6]]%Z /\
  fmap iload (set_iload (one_point Neumann_y)) = Ok [[[0]; [5]; [5]; [5]]%Z] /\
  fmap iload (set_iload (one_point Neumann)) = Ok [[[0]; [5]; [5]; [6]]%Z].
Proof.
  repeat split; try reflexivity. discriminate.
Qed.

(** In general the z class adds component 2 of the velocities to spatial
    row 1. *)
Lemma Neumann_z_set_iload_rows self self1 :
  Neumann_z_set_iload self = Ok self1 ->
  exists k vk y vz y',
    Np.item (istore self) 0 = Ok k /\
    Np.take (get_all_velocities (stencil self)) k = Ok vk /\
    Np.item (tl (istore self)) 1 = Ok y /\
    Np.item (Np.transpose (dim (stencil self)) vk) 2 = Ok vz /\
    Np.add1 y vz = Ok y' /\
    iload self1 = iload self ++ [k :: Np.set_row (tl (istore self)) 1 y'].
Proof.
  unfold Neumann_z_set_iload, iadd_row. intros H.
  bind_inv H k Hk. bind_inv H vk Hvk. bind_inv H ind Hind.
  bind_inv Hind y Hy. bind_inv Hind vz Hvz. bind_inv Hind y' Hy'.
  injection Hind as <-. injection H as <-. simpl.
  exists k, vk, y, vz, y'. repeat split; assumption.
Qed.

(** ** Deriving the load tables again *)

Lemma mask_assign_length {A} :
  forall (dst : list A) mask src r,
    Np.mask_assign dst mask src = Ok r -> length r = length dst.
Proof.
  induction dst as [|d dst IH]; intros [|m mask] src r H; simpl in H;
    try discriminate.
  - destruct src; [injection H as <-; reflexivity | discriminate].
  - destruct m.
    + destruct src as [|x src]; [discriminate|]. inv_ok H. simpl. f_equal. eauto.
    + inv_ok H. simpl. f_equal. eauto.
Qed.

(** The mask and its negation together cover every position: what was in
    the destination before the two assignments does not matter. *)
Lemma mask_assign_cover {A} :
  forall (dst : list A) mask a b r1 r2 dst',
    Np.mask_assign dst mask a = Ok r1 ->
    Np.mask_assign r1 (Np.logical_not mask) b = Ok r2 ->
    length dst' = length dst ->
    exists r1', Np.mask_assign dst' mask a = Ok r1' /\
                Np.mask_assign r1' (Np.logical_not mask) b = Ok r2.
Proof.
  induction dst as [|d dst IH]; intros [|m mask] a b r1 r2 [|d' dst'] H1 H2 Hl;
    simpl in *; try discriminate.
  - destruct a; [|discriminate]. injection H1 as <-. simpl in H2.
    exists []. auto.
  - destruct m; simpl in *.
    + destruct a as [|x a]; [discriminate|]. inv_ok H1. simpl in H2. inv_ok H2.
      destruct (IH mask a b _ _ dst' E E0) as (r1' & Ha & Hb); [lia|].
      rewrite Ha. simpl. eexists. split; [reflexivity|]. simpl.
      rewrite Hb. reflexivity.
    + inv_ok H1. simpl in H2. destruct b as [|y b]; [discriminate|]. inv_ok H2.
      destruct (IH mask a b _ _ dst' E E0) as (r1' & Ha & Hb); [lia|].
      rewrite Ha. simpl. eexists. split; [reflexivity|]. simpl.
      rewrite Hb. reflexivity.
Qed.

Ltac dedup :=
  repeat match goal with
    | H1 : ?c = Ok ?a, H2 : ?c = Ok ?b |- _ =>
        assert (a = b) by congruence; subst b; clear H2
    end.

Ltac replay :=
  repeat match goal with
    | H : ?c = Ok _ |- context [?c] => rewrite H; simpl
    end.

(** What one call of [set_iload] appends only depends on the geometry. *)
Lemma set_iload_appends self self1 :
  set_iload self = Ok self1 ->
  exists new,
    self1 = with_s (with_iload self (iload self ++ new)) (s self1) /\
    length new = (if is_Bouzidi (class_ self) then 2 else 1)%nat /\
    forall l,
      set_iload (with_s (with_iload self l) (s self1))
      = Ok (with_s (with_iload self (l ++ new)) (s self1)).
Proof.
  unfold set_iload. destruct self as [c lg ist fq rh il di st ld vb ss].
  simpl. intros H.
  destruct c; simpl;
    unfold bounce_back_set_iload, Neumann_set_iload, Neumann_x_set_iload,
      Neumann_y_set_iload, Neumann_z_set_iload, with_iload, with_s in *;
    simpl in *.
  2, 4: shelve.
  all: inv_binds; injection H as <-; simpl;
    eexists; split; [reflexivity|]; split; [reflexivity|];
    intros l; replay; reflexivity.
  Unshelve.
  all: unfold Bouzidi_bounce_back_set_iload, with_iload, with_s in *; simpl in *;
    inv_binds; injection H as <-; simpl; dedup;
    eexists; split; [reflexivity|]; split; [reflexivity|];
    intros l;
    match goal with
    | H1 : Np.mask_assign ?s0 ?m ?a = Ok ?r1,
      H2 : Np.mask_assign ?r1 _ ?b = Ok ?r2 |- _ =>
        destruct (mask_assign_cover _ _ _ _ _ _ r2 H1 H2) as (r1' & Ha & Hb);
        [ rewrite (mask_assign_length _ _ _ _ H2), (mask_assign_length _ _ _ _ H1);
          reflexivity
        | clear H1 H2; replay; reflexivity ]
    end.
Qed.

Ltac step_binds :=
  repeat match goal with
    | |- context [bind ?c _] => destruct c; simpl
    end.

(** [update] only looks at table 0 of [iload], and at table 1 for the
    Bouzidi classes. *)
Lemma update_same_loads self l2 f :
  Np.item l2 0 = Np.item (iload self) 0 ->
  (is_Bouzidi (class_ self) = true -> Np.item l2 1 = Np.item (iload self) 1) ->
  fmap snd (update (with_s (with_iload self l2) (s self)) f)
  = fmap snd (update self f).
Proof.
  destruct self as [c lg ist fq rh il di st ld vb ss]. simpl.
  intros H0 H1. unfold update. simpl.
  destruct c; simpl in *;
    unfold bounce_back_update, Bouzidi_bounce_back_update,
      anti_bounce_back_update, Bouzidi_anti_bounce_back_update, Neumann_update;
    simpl; rewrite H0; try rewrite (H1 eq_refl);
    step_binds; reflexivity.
Qed.

(** C9: a second call of [set_iload] on unchanged geometry succeeds when the
    first did and appends the tables the first call appended: every load
    table of the instance after one call is found unchanged, at the same
    position, after two; the interpolation weights are the same; [update]
    gives the same field. *)
Theorem set_iload_twice :
  forall self self1,
    set_iload self = Ok self1 ->
    exists self2,
      set_iload self1 = Ok self2 /\
      (forall i, (i < length (iload self1))%nat ->
                 nth_error (iload self2) i = nth_error (iload self1) i) /\
      (exists new, iload self1 = iload self ++ new /\
                   iload self2 = iload self1 ++ new) /\
      s self2 = s self1 /\
      istore self2 = istore self1 /\ distance self2 = distance self1 /\
      forall f, fmap snd (update self2 f) = fmap snd (update self1 f).
Proof.
  intros self self1 H.
  destruct (set_iload_appends _ _ H) as (new & Hself1 & Hlen & Hagain).
  pose proof (Hagain (iload self ++ new)) as H2.
  rewrite <- Hself1 in H2.
  assert (Hl1 : iload self1 = iload self ++ new) by (rewrite Hself1; reflexivity).
  eexists. split; [exact H2|]. simpl.
  split; [|split; [|split; [|split; [|split]]]].
  - intros i Hi. rewrite Hl1 in Hi. rewrite Hl1.
    apply nth_error_app1. exact Hi.
  - exists new. rewrite Hl1. auto.
  - reflexivity.
  - rewrite Hself1. reflexivity.
  - rewrite Hself1. reflexivity.
  - intros f.
    assert (Hc : class_ self1 = class_ self) by (rewrite Hself1; reflexivity).
    assert (E : with_s (with_iload self ((iload self ++ new) ++ new)) (s self1)
                = with_s (with_iload self1 ((iload self ++ new) ++ new)) (s self1)).
    { rewrite Hself1 at 2. reflexivity. }
    rewrite E. apply update_same_loads.
    + unfold Np.item. rewrite Hl1. f_equal.
      apply nth_error_app1. rewrite length_app.
      destruct (is_Bouzidi (class_ self)); lia.
    + rewrite Hc. intros Hb. rewrite Hb in Hlen.
      unfold Np.item. rewrite Hl1. f_equal.
      apply nth_error_app1. rewrite length_app. lia.
Qed.

Lemma set_iload_twice_witness :
  exists self2,
    set_iload loaded_point = Ok self2 /\
    (forall i, (i < length (iload loaded_point))%nat ->
               nth_error (iload self2) i = nth_error (iload loaded_point) i) /\
    (exists new, iload loaded_point = iload (one_point bounce_back) ++ new /\
                 iload self2 = iload loaded_point ++ new) /\
    s self2 = s loaded_point /\
    istore self2 = istore loaded_point /\ distance self2 = distance loaded_point /\
    forall f, fmap snd (update self2 f) = fmap snd (update loaded_point f).
Proof.
  apply (set_iload_twice (one_point bounce_back) loaded_point).
  reflexivity.
Defined.

(** ** Columns of the load tables *)

Lemma add1_nth a b c j :
  Np.add1 a b = Ok c -> nth j c 0%Z = (nth j a 0 + nth j b 0)%Z.
Proof.
  unfold Np.add1. revert b c j.
  induction a as [|x a IH]; intros [|y b] c j H; simpl in H; try discriminate.
  - injection H as <-. destruct j; reflexivity.
  - inv_ok H. destruct j as [|j]; simpl; [reflexivity|].
    apply IH. assumption.
Qed.

Lemma nth_scaled_component c a : forall (vkl : Np.table) j,
  nth j (map (Z.mul c) (map (fun r => nth a r 0%Z) vkl)) 0%Z
  = (c * nth a (nth j vkl []) 0)%Z.
Proof.
  induction vkl as [|r vkl IH]; intros [|j]; simpl; auto;
    destruct a; simpl; lia.
Qed.

Lemma hd_skipn (l : list Z) a : hd 0%Z (skipn a l) = nth a l 0%Z.
Proof.
  revert l. induction a as [|a IH]; intros [|x l]; simpl; auto.
Qed.

Lemma tl_skipn {A} (l : list A) a : tl (skipn a l) = skipn (S a) l.
Proof.
  revert l. induction a as [|a IH]; intros [|x l]; simpl; auto.
Qed.

(** Column [j] of [rows + c * vkl.T]: the column of [rows] moved by [c]
    times row [j] of [vkl]. *)
Lemma add2_transpose_column c (vkl : Np.table) j :
  forall rows a d ind,
    Np.add2 rows
      (Np.scale2 c (map (fun i => map (fun r => nth i r 0%Z) vkl) (seq a d)))
    = Ok ind ->
    Np.column ind j = shift c (Np.column rows j) (skipn a (nth j vkl [])).
Proof.
  unfold Np.add2, Np.scale2.
  induction rows as [|r rows IH]; intros a [|d] ind H; simpl in H;
    try discriminate.
  - injection H as <-. reflexivity.
  - inv_ok H. simpl. f_equal.
    + rewrite (add1_nth _ _ _ j E), nth_scaled_component, hd_skipn. reflexivity.
    + rewrite tl_skipn. eapply IH. eassumption.
Qed.

Lemma scale2_1 (t : Np.table) : Np.scale2 1 t = t.
Proof.
  unfold Np.scale2. rewrite <- (map_id t) at 2. apply map_ext. intros r.
  rewrite <- (map_id r) at 2. apply map_ext. intros x. lia.
Qed.

Lemma add2_transpose_column1 d (vkl : Np.table) j rows ind :
  Np.add2 rows (Np.transpose d vkl) = Ok ind ->
  Np.column ind j = shift 1 (Np.column rows j) (nth j vkl []).
Proof.
  intros H. rewrite <- (scale2_1 (Np.transpose d vkl)) in H.
  apply (add2_transpose_column 1 vkl j rows 0 d) in H. exact H.
Qed.

Lemma take_nth {A} (a : list A) k l j kj d :
  Np.take a k = Ok l -> nth_error k j = Some kj ->
  exists y, Np.getitem a kj = Ok y /\ nth_error l j = Some y /\ nth j l d = y.
Proof.
  intros H Hj. destruct (mapM_nth_error _ _ _ _ _ H Hj) as (y & Hy & Hl).
  exists y. repeat split; auto. apply nth_error_nth. exact Hl.
Qed.

(** A column of [istore] splits into the velocity index, found in row 0,
    and the spatial index, found in the rows below. *)
Lemma istore_column (t : Np.table) j kj x :
  (j < Np.ncols t)%nat -> Np.column t j = kj :: x ->
  exists k, Np.item t 0 = Ok k /\ nth_error k j = Some kj /\
            Np.column (tl t) j = x /\ length k = Np.ncols t.
Proof.
  destruct t as [|k rest]; simpl; intros Hj H; [discriminate|].
  injection H as H1 H2. exists k. repeat split; auto.
  rewrite <- H1. apply nth_error_nth'. exact Hj.
Qed.

Lemma zipWithM_nth_fwd {A B C} (f : A -> B -> result C) :
  forall a b c j x y, zipWithM f a b = Ok c ->
    nth_error a j = Some x -> nth_error b j = Some y ->
    exists z, f x y = Ok z /\ nth_error c j = Some z.
Proof.
  induction a as [|x0 a IH]; destruct b as [|y0 b]; simpl; intros c j x y H Hx Hy;
    try discriminate.
  - destruct j; discriminate.
  - inv_ok H. destruct j as [|j]; simpl in *.
    + injection Hx as ->. injection Hy as ->. eauto.
    + eauto.
Qed.

Lemma nth_error_exists {A} (l : list A) j :
  (j < length l)%nat -> exists x, nth_error l j = Some x.
Proof.
  intros H. destruct (nth_error l j) eqn:E; [eauto|].
  apply nth_error_None in E. lia.
Qed.

(** [bounce_back.set_iload]: column [j] of the table it appends. *)
Lemma bounce_back_load_column self self1 j kj x :
  bounce_back_set_iload self = Ok self1 ->
  (j < Np.ncols (istore self))%nat ->
  Np.column (istore self) j = kj :: x ->
  exists L ksym vk,
    self1 = with_iload self (iload self ++ [L]) /\
    Np.ncols L = Np.ncols (istore self) /\
    Np.getitem (get_symmetric (stencil self)) kj = Ok ksym /\
    Np.getitem (get_all_velocities (stencil self)) kj = Ok vk /\
    Np.column L j = ksym :: shift 1 x vk.
Proof.
  unfold bounce_back_set_iload. intros H Hj Hcol.
  destruct (istore_column _ _ _ _ Hj Hcol) as (k & Hk & Hkj & Hx & Hlen).
  rewrite Hk in H. simpl in H.
  bind_inv H ksyml Hsym. bind_inv H vkl Hvk. bind_inv H ind Hind.
  injection H as <-.
  destruct (take_nth _ _ _ _ _ 0%Z Hsym Hkj) as (ksym & Hs & Hs' & Hs'').
  destruct (take_nth _ _ _ _ _ (@nil Z) Hvk Hkj) as (vk & Hv & Hv' & Hv'').
  eexists _, ksym, vk. split; [reflexivity|].
  split; [simpl; rewrite (mapM_length _ _ _ Hsym); exact Hlen|].
  repeat split; auto.
  unfold Np.column at 1. simpl. f_equal; [exact Hs''|].
  fold (Np.column ind j).
  rewrite (add2_transpose_column1 _ _ j _ _ Hind), Hv'', Hx. reflexivity.
Qed.

(** [Neumann.set_iload]: column [j] of the table it appends. *)
Lemma Neumann_load_column self self1 j kj x :
  Neumann_set_iload self = Ok self1 ->
  (j < Np.ncols (istore self))%nat ->
  Np.column (istore self) j = kj :: x ->
  exists L vk,
    self1 = with_iload self (iload self ++ [L]) /\
    Np.ncols L = Np.ncols (istore self) /\
    Np.getitem (get_all_velocities (stencil self)) kj = Ok vk /\
    Np.column L j = kj :: shift 1 x vk.
Proof.
  unfold Neumann_set_iload. intros H Hj Hcol.
  destruct (istore_column _ _ _ _ Hj Hcol) as (k & Hk & Hkj & Hx & Hlen).
  rewrite Hk in H. simpl in H.
  bind_inv H vkl Hvk. bind_inv H ind Hind. injection H as <-.
  destruct (take_nth _ _ _ _ _ (@nil Z) Hvk Hkj) as (vk & Hv & Hv' & Hv'').
  eexists _, vk. split; [reflexivity|].
  split; [exact Hlen|].
  repeat split; auto.
  unfold Np.column at 1. simpl. f_equal.
  - apply nth_error_nth. exact Hkj.
  - fold (Np.column ind j).
    rewrite (add2_transpose_column1 _ _ j _ _ Hind), Hv'', Hx. reflexivity.
Qed.

(** ** Columns of the forcing term *)

Lemma nth_error_combine_seq {A} : forall (k : list A) a j kj,
  nth_error k j = Some kj ->
  nth_error (combine k (seq a (length k))) j = Some (kj, (a + j)%nat).
Proof.
  induction k as [|x k IH]; intros a [|j] kj H; simpl in *; try discriminate.
  - injection H as ->. rewrite Nat.add_0_r. reflexivity.
  - rewrite (IH (S a) j kj H). f_equal. f_equal. lia.
Qed.

Lemma take_diag_nth a k l j kj :
  take_diag a k = Ok l -> nth_error k j = Some kj ->
  exists y, entry a kj j = Ok y /\ nth_error l j = Some y.
Proof.
  unfold take_diag. intros H Hj.
  apply (nth_error_combine_seq _ 0%nat) in Hj.
  destruct (mapM_nth_error _ _ _ _ _ H Hj) as (y & Hy & Hl). eauto.
Qed.

(** [set_rhs] of the bounce-back classes: entry [j] is [feq[k] - feq[k*]]
    read in column [j]. *)
Lemma bounce_back_set_rhs_column self self2 k j kj ksym :
  bounce_back_set_rhs self = Ok self2 ->
  Np.item (istore self) 0 = Ok k -> nth_error k j = Some kj ->
  Np.getitem (get_symmetric (stencil self)) kj = Ok ksym ->
  exists a b,
    entry (feq self) kj j = Ok a /\ entry (feq self) ksym j = Ok b /\
    nth_error (rhs self2) j = Some (a - b)%R /\
    self2 = with_rhs self (rhs self2).
Proof.
  unfold bounce_back_set_rhs. intros H Hk Hkj Hsym.
  rewrite Hk in H. simpl in H.
  bind_inv H ksyml Hsyml. bind_inv H al Hal. bind_inv H bl Hbl.
  bind_inv H xl Hxl. bind_inv H r Hr. injection H as <-.
  destruct (mapM_nth_error _ _ _ _ _ Hsyml Hkj) as (ksym' & Hs & Hs').
  assert (ksym' = ksym) by congruence. subst ksym'.
  destruct (take_diag_nth _ _ _ _ _ Hal Hkj) as (a & Ha & Ha').
  destruct (take_diag_nth _ _ _ _ _ Hbl Hs') as (b & Hb & Hb').
  destruct (zipWithM_nth_fwd _ _ _ _ _ _ _ Hxl Ha' Hb') as (z & Hz & Hz').
  injection Hz as <-.
  unfold assign_all in Hr.
  destruct (length (rhs self) =? length xl)%nat; [|discriminate].
  injection Hr as <-.
  exists a, b. simpl. auto.
Qed.

(** [set_rhs] of the anti-bounce-back classes: [feq[k] + feq[k*]]. *)
Lemma anti_bounce_back_set_rhs_column self self2 k j kj ksym :
  anti_bounce_back_set_rhs self = Ok self2 ->
  Np.item (istore self) 0 = Ok k -> nth_error k j = Some kj ->
  Np.getitem (get_symmetric (stencil self)) kj = Ok ksym ->
  exists a b,
    entry (feq self) kj j = Ok a /\ entry (feq self) ksym j = Ok b /\
    nth_error (rhs self2) j = Some (a + b)%R /\
    self2 = with_rhs self (rhs self2).
Proof.
  unfold anti_bounce_back_set_rhs. intros H Hk Hkj Hsym.
  rewrite Hk in H. simpl in H.
  bind_inv H ksyml Hsyml. bind_inv H al Hal. bind_inv H bl Hbl.
  bind_inv H xl Hxl. bind_inv H r Hr. injection H as <-.
  destruct (mapM_nth_error _ _ _ _ _ Hsyml Hkj) as (ksym' & Hs & Hs').
  assert (ksym' = ksym) by congruence. subst ksym'.
  destruct (take_diag_nth _ _ _ _ _ Hal Hkj) as (a & Ha & Ha').
  destruct (take_diag_nth _ _ _ _ _ Hbl Hs') as (b & Hb & Hb').
  destruct (zipWithM_nth_fwd _ _ _ _ _ _ _ Hxl Ha' Hb') as (z & Hz & Hz').
  injection Hz as <-.
  unfold assign_all in Hr.
  destruct (length (rhs self) =? length xl)%nat; [|discriminate].
  injection Hr as <-.
  exists a, b. simpl. auto.
Qed.

(** ** Columns of [update] *)

Lemma targets_nth f t ps j p :
  targets f t = Ok ps -> nth_error ps j = Some p ->
  (j < Np.ncols t)%nat /\ norm_multi (shape f) (Np.column t j) = Ok p.
Proof.
  unfold targets. intros H Hp.
  assert (Hj : (j < Np.ncols t)%nat).
  { rewrite <- columns_length, <- (mapM_length _ _ _ H).
    apply nth_error_Some. congruence. }
  split; [exact Hj|].
  destruct (mapM_nth_error _ _ _ _ _ H (columns_nth_error t j Hj)) as (y & Hy & Hy').
  congruence.
Qed.

(** Reading the field through a load table with as many columns as
    [istore]: the value found for column [j]. *)
Lemma load_value f L a j :
  Field_getitem f L = Ok a -> (j < Np.ncols L)%nat ->
  exists q, norm_multi (shape f) (Np.column L j) = Ok q /\
            nth_error a j = Some (data f q) /\ length a = Np.ncols L.
Proof.
  intros H Hj.
  destruct (Field_getitem_nth _ _ _ _ _ H (columns_nth_error L j Hj)) as (q & Hq & Ha).
  exists q. repeat split; auto.
  unfold Field_getitem in H. rewrite (mapM_length _ _ _ H). apply columns_length.
Qed.

Lemma vadd_nth a b c j x :
  vadd a b = Ok c -> nth_error a j = Some x ->
  exists y, nth_error b j = Some y /\ nth_error c j = Some (x + y)%R.
Proof.
  unfold vadd. intros H Hx.
  destruct (zipWithM_length _ _ _ _ H) as [Hla Hlb].
  destruct (nth_error_exists b j) as [y Hy].
  { rewrite Hlb, <- Hla. apply nth_error_Some. congruence. }
  destruct (zipWithM_nth_fwd _ _ _ _ _ _ _ H Hx Hy) as (z & Hz & Hz').
  injection Hz as <-. eauto.
Qed.

Lemma vmul_nth a b c j y :
  vmul a b = Ok c -> nth_error b j = Some y ->
  exists x, nth_error a j = Some x /\ nth_error c j = Some (x * y)%R.
Proof.
  unfold vmul. intros H Hy.
  destruct (zipWithM_length _ _ _ _ H) as [Hla Hlb].
  destruct (nth_error_exists a j) as [x Hx].
  { rewrite Hla, <- Hlb. apply nth_error_Some. congruence. }
  destruct (zipWithM_nth_fwd _ _ _ _ _ _ _ H Hx Hy) as (z & Hz & Hz').
  injection Hz as <-. eauto.
Qed.

Lemma bounce_back_update_column self f self' f' L ps j p :
  bounce_back_update self f = Ok (self', f') ->
  Np.item (iload self) 0 = Ok L ->
  Np.ncols L = Np.ncols (istore self) ->
  targets f (istore self) = Ok ps -> NoDup ps -> nth_error ps j = Some p ->
  exists q r,
    norm_multi (shape f) (Np.column L j) = Ok q /\
    nth_error (rhs self) j = Some r /\
    data f' p = (data f q + r)%R.
Proof.
  unfold bounce_back_update. intros H HL Hn Hps Hnd Hp.
  destruct (targets_nth _ _ _ _ _ Hps Hp) as [Hj _].
  rewrite HL in H. simpl in H.
  bind_inv H a Ha. bind_inv H xs Hxs. bind_inv H g Hg. injection H as _ <-.
  destruct (load_value _ _ _ j Ha) as (q & Hq & Haj & _); [lia|].
  destruct (vadd_nth _ _ _ _ _ Hxs Haj) as (r & Hr & Hx).
  exists q, r. repeat split; auto.
  eapply Field_setitem_written; eauto.
Qed.


Lemma Neumann_update_column self f self' f' L ps j p :
  Neumann_update self f = Ok (self', f') ->
  Np.item (iload self) 0 = Ok L ->
  Np.ncols L = Np.ncols (istore self) ->
  targets f (istore self) = Ok ps -> NoDup ps -> nth_error ps j = Some p ->
  exists q,
    norm_multi (shape f) (Np.column L j) = Ok q /\
    data f' p = data f q.
Proof.
  unfold Neumann_update. intros H HL Hn Hps Hnd Hp.
  destruct (targets_nth _ _ _ _ _ Hps Hp) as [Hj _].
  rewrite HL in H. simpl in H.
  bind_inv H a Ha. bind_inv H g Hg. injection H as _ <-.
  destruct (load_value _ _ _ j Ha) as (q & Hq & Haj & _); [lia|].
  exists q. split; auto.
  eapply Field_setitem_written; eauto.
Qed.

Lemma Bouzidi_bounce_back_update_column self f self' f' L1 L2 ps j p :
  Bouzidi_bounce_back_update self f = Ok (self', f') ->
  Np.item (iload self) 0 = Ok L1 -> Np.item (iload self) 1 = Ok L2 ->
  Np.ncols L1 = Np.ncols (istore self) ->
  Np.ncols L2 = Np.ncols (istore self) ->
  targets f (istore self) = Ok ps -> NoDup ps -> nth_error ps j = Some p ->
  exists q1 q2 sj r,
    norm_multi (shape f) (Np.column L1 j) = Ok q1 /\
    norm_multi (shape f) (Np.column L2 j) = Ok q2 /\
    nth_error (s self) j = Some sj /\
    nth_error (rhs self) j = Some r /\
    data f' p = (sj * data f q1 + (1 - sj) * data f q2 + r)%R.
Proof.
  unfold Bouzidi_bounce_back_update. intros H HL1 HL2 Hn1 Hn2 Hps Hnd Hp.
  destruct (targets_nth _ _ _ _ _ Hps Hp) as [Hj _].
  rewrite HL1 in H. simpl in H.
  bind_inv H a Ha. bind_inv H sa Hsa.
  rewrite HL2 in H. simpl in H.
  bind_inv H b Hb. bind_inv H sb Hsb. bind_inv H y Hy. bind_inv H xs Hxs.
  bind_inv H g Hg. injection H as _ <-.
  destruct (load_value _ _ _ j Ha) as (q1 & Hq1 & Haj & _); [lia|].
  destruct (load_value _ _ _ j Hb) as (q2 & Hq2 & Hbj & _); [lia|].
  destruct (vmul_nth _ _ _ _ _ Hsa Haj) as (sj & Hsj & Hsaj).
  destruct (vmul_nth _ _ _ _ _ Hsb Hbj) as (tj & Htj & Hsbj).
  rewrite nth_error_map, Hsj in Htj. injection Htj as <-.
  destruct (vadd_nth _ _ _ _ _ Hy Hsaj) as (w & Hw & Hyj).
  rewrite Hsbj in Hw. injection Hw as <-.
  destruct (vadd_nth _ _ _ _ _ Hxs Hyj) as (r & Hr & Hx).
  exists q1, q2, sj, r. repeat split; auto.
  eapply Field_setitem_written; eauto.
Qed.

(** ** What [prepare_rhs] writes *)

Lemma set_row_other {A} : forall (l : list A) i x j,
  j <> i -> nth_error (Np.set_row l i x) j = nth_error l j.
Proof.
  induction l as [|y l IH]; intros [|i] x [|j] H; simpl; auto.
  congruence.
Qed.

Lemma put_frame : forall indices xs row row' j,
  put row indices xs = Ok row' -> ~ In j indices ->
  nth_error row' j = nth_error row j.
Proof.
  induction indices as [|i indices IH]; intros [|x xs] row row' j H Hj;
    simpl in H; try discriminate.
  - injection H as <-. reflexivity.
  - destruct (i <? length row)%nat; [|discriminate].
    rewrite (IH _ _ _ j H) by (simpl in Hj; tauto).
    apply set_row_other. simpl in Hj. intros ->. tauto.
Qed.

Lemma put_columns_frame fq indices nv f fq' j :
  put_columns fq indices nv f = Ok fq' -> ~ In j indices ->
  feq_column fq' j = feq_column fq j.
Proof.
  unfold put_columns, feq_column. intros H Hj.
  destruct (_ && _); [|discriminate].
  revert f fq' H.
  induction fq as [|row fq IH]; intros [|xs f] fq' H; simpl in H; try discriminate.
  - injection H as <-. reflexivity.
  - bind_inv H row' Hrow. bind_inv H rest Hrest. injection H as <-.
    simpl. f_equal; [eapply put_frame; eauto | eauto].
Qed.

Lemma where_eq_from_In : forall a key s j,
  In j (where_eq_from s a key) ->
  exists i, j = (s + i)%nat /\ nth_error a i = Some key.
Proof.
  induction a as [|x a IH]; intros key s j H; simpl in H; [tauto|].
  destruct (Z.eqb_spec x key) as [->|Hne].
  - destruct H as [<-|H].
    + exists 0%nat. split; [lia | reflexivity].
    + destruct (IH _ _ _ H) as (i & -> & Hi). exists (S i). split; [lia | exact Hi].
  - destruct (IH _ _ _ H) as (i & -> & Hi). exists (S i). split; [lia | exact Hi].
Qed.

Lemma where_eq_In a key j :
  In j (where_eq a key) -> nth_error a j = Some key.
Proof.
  intros H. destruct (where_eq_from_In _ _ _ _ H) as (i & -> & Hi). exact Hi.
Qed.

Lemma same_geometry_refl a : same_geometry a a.
Proof. repeat split. Qed.

Lemma same_geometry_trans a b c :
  same_geometry a b -> same_geometry b c -> same_geometry a c.
Proof.
  unfold same_geometry. intros H1 H2.
  repeat match goal with H : _ /\ _ |- _ => destruct H end.
  repeat split; congruence.
Qed.

(** One pass of the loop of [prepare_rhs] keeps the geometry and writes no
    column of [feq] but those of the label it handles. *)
Lemma prepare_rhs_label_frame sim self key value :
  let self' := fst (prepare_rhs_label sim self (key, value)) in
  same_geometry self' self /\
  (value = VNone -> self' = self) /\
  forall j, nth_error (ilabel self) j <> Some key ->
            feq_column (feq self') j = feq_column (feq self) j.
Proof.
  assert (Hnone : value = VNone \/ value <> VNone)
    by (destruct value; auto; right; discriminate).
  destruct Hnone as [-> | Hv].
  { simpl. split; [apply same_geometry_refl | auto]. }
  assert (E : prepare_rhs_label sim self (key, value) =
    let nv := sim_nv sim in
    let indices := where_eq (ilabel self) key in
    let n := length indices in
    match wall_coordinates sim self indices with
    | Raise e => (self, Some e)
    | Ok coords =>
        let m := repeat (repeat 0%R n) nv in
        let f := repeat (repeat 0%R n) nv in
        let (logged, called) := call_value value f m (map AArray coords) in
        let self1 := if logged then with_log self (log self ++ [log_message])
                     else self in
        match (fm <- called ;;
               let m' := scheme_equilibrium sim (snd fm) in
               let f' := scheme_m2f sim m' (fst fm) in
               put_columns (feq self) indices nv f')
        with
        | Raise e => (self1, Some e)
        | Ok feq' => (with_feq self1 feq', None)
        end
    end).
  { destruct value; try reflexivity. congruence. }
  rewrite E. clear E. cbv zeta.
  destruct (wall_coordinates sim self _) as [coords|e]; simpl.
  { destruct (call_value value _ _ _) as [logged called].
    destruct (bind called _) as [fq'|e] eqn:Hb; simpl.
    - split; [destruct logged; repeat split|].
      split; [intros; congruence|].
      intros j Hj. bind_inv Hb fm Hfm.
      assert (Hfr : feq_column fq' j = feq_column (feq self) j).
      { eapply put_columns_frame; eauto. intros Hin. apply Hj.
        apply where_eq_In. exact Hin. }
      destruct logged; exact Hfr.
    - split; [destruct logged; repeat split|].
      split; [intros; congruence|].
      intros j Hj. destruct logged; reflexivity. }
  split; [apply same_geometry_refl|]. split; [intros; congruence | reflexivity].
Qed.

Lemma prepare_rhs_loop_frame sim label : forall items self,
  (forall key value, In (key, value) items -> value = VNone \/ key <> label) ->
  let self' := fst (prepare_rhs_loop sim self items) in
  same_geometry self' self /\
  forall j, nth_error (ilabel self) j = Some label ->
            feq_column (feq self') j = feq_column (feq self) j.
Proof.
  induction items as [|[key value] items IH]; intros self Hitems; simpl.
  { split; [apply same_geometry_refl | reflexivity]. }
  destruct (prepare_rhs_label_frame sim self key value) as (Hg & Hnone & Hfr).
  destruct (prepare_rhs_label sim self (key, value)) as [self1 [e|]] eqn:E;
    simpl in *.
  - split; [exact Hg|]. intros j Hj.
    destruct (Hitems key value (or_introl eq_refl)) as [Hv | Hk].
    + rewrite (Hnone Hv). reflexivity.
    + apply Hfr. congruence.
  - destruct (IH self1) as (Hg' & Hfr').
    { intros k v Hin. apply (Hitems k v). right. exact Hin. }
    split; [eapply same_geometry_trans; eauto|].
    intros j Hj. rewrite Hfr'.
    + destruct (Hitems key value (or_introl eq_refl)) as [Hv | Hk].
      * rewrite (Hnone Hv). reflexivity.
      * apply Hfr. congruence.
    + destruct Hg as (_ & _ & _ & -> & _). exact Hj.
Qed.

Lemma mapM_In {A B} (f : A -> result B) : forall l l' y,
  mapM f l = Ok l' -> In y l' -> exists x, In x l /\ f x = Ok y.
Proof.
  induction l as [|a l IH]; simpl; intros l' y H Hy.
  - injection H as <-. destruct Hy.
  - bind_inv H b Hb. bind_inv H r Hr. injection H as <-.
    destruct Hy as [<-|Hy]; [eauto|].
    destruct (IH _ _ Hr Hy) as (x & Hx & Hfx). eauto.
Qed.

(** What [__init__] leaves in the instance. *)
Lemma Boundary_method_init_fields c ist il di st vbc self :
  Boundary_method_init c ist il di st vbc = Ok self ->
  class_ self = c /\ istore self = ist /\ ilabel self = il /\
  distance self = di /\ stencil self = st /\ iload self = [] /\ log self = [] /\
  rhs self = repeat 0%R (Np.ncols ist) /\
  (exists nv, feq self = repeat (repeat 0%R (Np.ncols ist)) nv) /\
  (forall k x, In (k, x) (value_bc self) -> dict_get vbc k = Some x).
Proof.
  unfold Boundary_method_init. intros H.
  bind_inv H nv Hnv. bind_inv H fq Hfq. bind_inv H vb Hvb. injection H as <-.
  simpl. repeat split; auto.
  - unfold zeros in Hfq. destruct (nv <? 0)%Z; [discriminate|].
    injection Hfq as <-. eauto.
  - intros k x Hin. destruct (mapM_In _ _ _ _ Hvb Hin) as (k' & _ & Hk).
    bind_inv Hk y Hy. injection Hk as <- <-.
    apply of_option_Ok in Hy. exact Hy.
Qed.

Lemma feq_column_zeros n nv j :
  (j < n)%nat -> feq_column (repeat (repeat 0%R n) nv) j = repeat (Some 0%R) nv.
Proof.
  intros Hj. unfold feq_column. rewrite map_repeat. f_equal.
  rewrite nth_error_repeat by exact Hj. reflexivity.
Qed.

Lemma entry_zero_column fq k j a nv :
  feq_column fq j = repeat (Some 0%R) nv -> entry fq k j = Ok a -> a = 0%R.
Proof.
  unfold entry, Np.getitem, Np.item. intros Hcol H.
  bind_inv H row Hrow. bind_inv Hrow i Hi.
  apply of_option_Ok in Hrow. apply of_option_Ok in H.
  assert (E : nth_error (feq_column fq j) i = Some (Some a)).
  { unfold feq_column. rewrite nth_error_map, Hrow. simpl. rewrite H. reflexivity. }
  rewrite Hcol in E.
  destruct (nth_error (repeat (Some 0%R) nv) i) as [y|] eqn:Ey; [|discriminate].
  apply nth_error_In, repeat_spec in Ey. congruence.
Qed.

(** ** The rules of the variants, column by column *)

(** The bounce-back rule.  [self] is a fresh instance, [set_iload] runs on
    it, then the equilibrium table may be filled ([selfp] has the geometry of
    [self1]), then [set_rhs] and [update] run. *)
Lemma bounce_back_column_rule self self1 selfp self2 self3 f f' ps j p k x :
  class_ self = bounce_back -> iload self = [] ->
  set_iload self = Ok self1 -> same_geometry selfp self1 ->
  set_rhs selfp = Ok self2 ->
  update self2 f = Ok (self3, f') ->
  targets f (istore self) = Ok ps -> NoDup ps -> nth_error ps j = Some p ->
  Np.column (istore self) j = k :: x ->
  exists L ksym vk q a b,
    iload self1 = [L] /\ Np.column L j = ksym :: shift 1 x vk /\
    Np.getitem (get_symmetric (stencil self)) k = Ok ksym /\
    Np.getitem (get_all_velocities (stencil self)) k = Ok vk /\
    norm_multi (shape f) (k :: x) = Ok p /\
    norm_multi (shape f) (ksym :: shift 1 x vk) = Ok q /\
    entry (feq selfp) k j = Ok a /\ entry (feq selfp) ksym j = Ok b /\
    data f' p = (data f q + (a - b))%R.
Proof.
  intros Hc Hnil H1 Hg H2 H3 Hps Hnd Hp Hcol.
  destruct (targets_nth _ _ _ _ _ Hps Hp) as [Hj Hnorm].
  unfold set_iload in H1. rewrite Hc in H1.
  destruct (bounce_back_load_column _ _ _ _ _ H1 Hj Hcol)
    as (L & ksym & vk & -> & Hn & Hsym & Hvk & HL).
  rewrite Hnil in *.
  destruct Hg as (Gc & Gi & _ & _ & _ & Gs & Gl & _). simpl in Gc, Gi, Gs, Gl.
  destruct (istore_column _ _ _ _ Hj Hcol) as (k0 & Hk0 & Hkj & _ & _).
  unfold set_rhs in H2. rewrite Gc, Hc in H2.
  rewrite <- Gi in Hk0. rewrite <- Gs in Hsym.
  destruct (bounce_back_set_rhs_column _ _ _ _ _ _ H2 Hk0 Hkj Hsym)
    as (a & b & Ha & Hb & Hr & Hself2).
  unfold update in H3. rewrite Hself2 in H3. simpl in H3. rewrite Gc, Hc in H3.
  rewrite <- Gi in Hps, Hn.
  destruct (bounce_back_update_column _ _ _ _ L _ _ _ H3
              (f_equal (fun l => Np.item l 0) Gl) Hn Hps Hnd Hp)
    as (q & r & Hq & Hr' & Hf).
  simpl in Hr'. rewrite Hr in Hr'. injection Hr' as <-.
  rewrite HL in Hq. rewrite Hcol in Hnorm. rewrite Gs in Hsym.
  exists L, ksym, vk, q, a, b. repeat split; auto.
Qed.


Lemma set_iload_keeps self self1 :
  set_iload self = Ok self1 ->
  class_ self1 = class_ self /\ istore self1 = istore self /\
  feq self1 = feq self /\ ilabel self1 = ilabel self /\
  value_bc self1 = value_bc self /\ stencil self1 = stencil self.
Proof.
  intros H. destruct (set_iload_appends _ _ H) as (new & -> & _).
  repeat split.
Qed.

(** C2: on a bounce-back instance built by [__init__], with its load table
    derived by [set_iload] and its forcing term set by [set_rhs] (the
    equilibrium table may have been filled in between), [update] writes in
    every column, of velocity index [k], symmetric index [ksym] and spatial
    index [x], the value read at [(ksym, x + v[k])] plus
    [feq[k] - feq[ksym]] of that column, the columns naming distinct entries
    of the field.  When the instance comes from [__init__] and
    [prepare_rhs], and the label of the column has no prescribed value, the
    equilibrium entries of the column are 0 and the value written is the value
    read: 3 if 3 was read. *)
Theorem bounce_back_reflection_rule :
  forall self self1 selfp self2 self3 f f' ps j p k x,
    class_ self = bounce_back -> iload self = [] ->
    set_iload self = Ok self1 -> same_geometry selfp self1 ->
    set_rhs selfp = Ok self2 ->
    update self2 f = Ok (self3, f') ->
    targets f (istore self) = Ok ps -> NoDup ps -> nth_error ps j = Some p ->
    Np.column (istore self) j = k :: x ->
    exists ksym vk q a b,
      Np.getitem (get_symmetric (stencil self)) k = Ok ksym /\
      Np.getitem (get_all_velocities (stencil self)) k = Ok vk /\
      norm_multi (shape f) (k :: x) = Ok p /\
      norm_multi (shape f) (ksym :: shift 1 x vk) = Ok q /\
      entry (feq selfp) k j = Ok a /\ entry (feq selfp) ksym j = Ok b /\
      data f' p = (data f q + (a - b))%R /\
      forall ist il di st vbc sim label,
        Boundary_method_init bounce_back ist il di st vbc = Ok self ->
        selfp = fst (prepare_rhs self1 sim) ->
        nth_error il j = Some label ->
        dict_get vbc label = Some VNone ->
        Forall (fun e => e = Some 0%R) (feq_column (feq selfp) j) /\
        a = 0%R /\ b = 0%R /\ data f' p = data f q /\
        (data f q = 3%R -> data f' p = 3%R).
Proof.
  intros self self1 selfp self2 self3 f f' ps j p k x
    Hc Hnil H1 Hg H2 H3 Hps Hnd Hp Hcol.
  destruct (bounce_back_column_rule _ _ _ _ _ _ _ _ _ _ _ _
              Hc Hnil H1 Hg H2 H3 Hps Hnd Hp Hcol)
    as (L & ksym & vk & q & a & b & _ & _ & Hsym & Hvk & Hnp & Hnq & Ha & Hb & Hf).
  exists ksym, vk, q, a, b. repeat (split; [assumption|]).
  intros ist il di st vbc sim label Hinit -> Hlab Hval.
  destruct (Boundary_method_init_fields _ _ _ _ _ _ _ Hinit)
    as (_ & Hist & Hil & _ & _ & _ & _ & _ & (nv & Hfeq) & Hvb).
  destruct (set_iload_keeps _ _ H1) as (_ & _ & Hfeq1 & Hil1 & Hvb1 & _).
  destruct (targets_nth _ _ _ _ _ Hps Hp) as [Hj _].
  assert (Hcol0 : feq_column (feq (fst (prepare_rhs self1 sim))) j
                  = repeat (Some 0%R) nv).
  { unfold prepare_rhs.
    destruct (prepare_rhs_loop_frame sim label (value_bc self1) self1) as (_ & Hfr).
    - intros key value Hin. rewrite Hvb1 in Hin. apply Hvb in Hin.
      destruct (Z.eq_dec key label) as [->|Hne]; [left; congruence | right; exact Hne].
    - rewrite Hfr by (rewrite Hil1, Hil; exact Hlab).
      rewrite Hfeq1, Hfeq. apply feq_column_zeros. rewrite <- Hist. exact Hj. }
  assert (Ha0 : a = 0%R) by (eapply entry_zero_column; eauto).
  assert (Hb0 : b = 0%R) by (eapply entry_zero_column; eauto).
  split; [rewrite Hcol0; apply Forall_forall; intros e He;
          apply repeat_spec in He; exact He|].
  subst a b. repeat split; try lra.
Qed.

Example one_point_init c :
  Boundary_method_init c [[0]; [5]; [5]; [5]]%Z [7]%Z [1/4]%R stencil_z
    [(7%Z, VNone)] = Ok (one_point c).
Proof. reflexivity. Qed.

Example loaded_point_prepare_rhs sim :
  prepare_rhs loaded_point sim = (loaded_point, None).
Proof. reflexivity. Qed.

Lemma bounce_back_reflection_rule_witness :
  exists ksym vk q a b,
    Np.getitem (get_symmetric stencil_z) 0 = Ok ksym /\
    Np.getitem (get_all_velocities stencil_z) 0 = Ok vk /\
    norm_multi (shape field0) [0; 5; 5; 5]%Z = Ok [0; 5; 5; 5]%nat /\
    norm_multi (shape field0) (ksym :: shift 1 [5; 5; 5]%Z vk) = Ok q /\
    entry (feq loaded_point) 0 0 = Ok a /\
    entry (feq loaded_point) ksym 0 = Ok b /\
    data field2 [0; 5; 5; 5]%nat = (data field0 q + (a - b))%R /\
    Boundary_method_init bounce_back [[0]; [5]; [5]; [5]]%Z [7]%Z [1/4]%R
      stencil_z [(7%Z, VNone)] = Ok (one_point bounce_back) /\
    loaded_point = fst (prepare_rhs loaded_point copy_scheme) /\
    nth_error [7%Z] 0 = Some 7%Z /\
    dict_get [(7%Z, VNone)] 7 = Some VNone /\
    Forall (fun e => e = Some 0%R) (feq_column (feq loaded_point) 0) /\
    a = 0%R /\ b = 0%R /\
    data field2 [0; 5; 5; 5]%nat = data field0 q /\
    data field0 q = 3%R /\ data field2 [0; 5; 5; 5]%nat = 3%R.
Proof.
  assert (Hnd : NoDup [[0; 5; 5; 5]%nat])
    by (repeat constructor; simpl; tauto).
  destruct (bounce_back_reflection_rule (one_point bounce_back) loaded_point
              loaded_point (with_rhs loaded_point [(0 - 0)%R])
              (with_rhs loaded_point [(0 - 0)%R])
              field0 field2 [[0; 5; 5; 5]%nat] 0 [0; 5; 5; 5]%nat 0%Z
              [5; 5; 5]%Z
              eq_refl eq_refl eq_refl (same_geometry_refl loaded_point)
              eq_refl eq_refl eq_refl Hnd eq_refl eq_refl)
    as (ksym & vk & q & a & b & H1 & H2 & H3 & H4 & H5 & H6 & H7 & Hzero).
  destruct (Hzero [[0]; [5]; [5]; [5]]%Z [7]%Z [1/4]%R stencil_z
              [(7%Z, VNone)] copy_scheme 7%Z
              (one_point_init bounce_back)
              (eq_sym (f_equal fst (loaded_point_prepare_rhs copy_scheme)))
              eq_refl eq_refl)
    as (Z1 & Z2 & Z3 & Z4 & Z5).
  exists ksym, vk, q, a, b.
  repeat (split; [assumption|]).
  split; [exact (one_point_init bounce_back)|].
  split; [exact (eq_sym (f_equal fst (loaded_point_prepare_rhs copy_scheme)))|].
  split; [reflexivity|]. split; [reflexivity|].
  repeat (split; [assumption|]).
  split; [reflexivity|]. apply Z5. reflexivity.
Defined.





(** The sign check run on the two classes: equilibrium 2 and 1, 0 read. *)
Example sign_check_bounce_back :
  set_iload (sign_point bounce_back) = Ok (sign_loaded bounce_back) /\
  set_rhs (sign_loaded bounce_back) = Ok (sign_ready bounce_back (2 - 1)) /\
  update (sign_ready bounce_back (2 - 1)) field_zero
  = Ok (sign_ready bounce_back (2 - 1), field_written (0 + (2 - 1))) /\
  data (field_written (0 + (2 - 1))) [0; 5; 5; 5]%nat = 1%R.
Proof.
  repeat split; try reflexivity.
  unfold field_written, upd; simpl. unfold upd.
  destruct (list_eq_dec Nat.eq_dec _ _); [lra | congruence].
Qed.

Example sign_check_anti_bounce_back :
  set_iload (sign_point anti_bounce_back) = Ok (sign_loaded anti_bounce_back) /\
  set_rhs (sign_loaded anti_bounce_back) = Ok (sign_ready anti_bounce_back (2 + 1)) /\
  update (sign_ready anti_bounce_back (2 + 1)) field_zero
  = Ok (sign_ready anti_bounce_back (2 + 1), field_written (- 0 + (2 + 1))) /\
  data (field_written (- 0 + (2 + 1))) [0; 5; 5; 5]%nat = 3%R.
Proof.
  repeat split; try reflexivity.
  unfold field_written, upd; simpl. unfold upd.
  destruct (list_eq_dec Nat.eq_dec _ _); [lra | congruence].
Qed.

(** ** Masked assignments *)

Lemma nth_of_nth_error {A} (l l' : list A) j j' d :
  nth_error l j = nth_error l' j' -> nth j l d = nth j' l' d.
Proof.
  intros H. rewrite <- !nth_default_eq. unfold nth_default. rewrite H. reflexivity.
Qed.

Lemma compress_nth {A} : forall mask (a a' : list A) j,
  Np.compress mask a = Ok a' -> nth_error mask j = Some true ->
  nth_error a' (rank mask j) = nth_error a j.
Proof.
  induction mask as [|m mask IH]; intros [|x a] a' j H Hj; simpl in H;
    try discriminate.
  - destruct j; discriminate.
  - bind_inv H r Hr. injection H as <-.
    destruct j as [|j]; simpl in *.
    + injection Hj as ->. reflexivity.
    + destruct m; simpl; apply IH; assumption.
Qed.

Lemma mask_assign_nth_true {A} : forall (dst : list A) mask src r j,
  Np.mask_assign dst mask src = Ok r -> nth_error mask j = Some true ->
  nth_error r j = nth_error src (rank mask j).
Proof.
  induction dst as [|d dst IH]; intros [|m mask] src r j H Hj; simpl in H;
    try discriminate.
  - destruct j; discriminate.
  - destruct m.
    + destruct src as [|x src]; [discriminate|].
      bind_inv H r' Hr. injection H as <-.
      destruct j as [|j]; simpl in *; [reflexivity|]. eapply IH; eauto.
    + bind_inv H r' Hr. injection H as <-.
      destruct j as [|j]; simpl in *; [discriminate|]. eapply IH; eauto.
Qed.

Lemma mask_assign_nth_false {A} : forall (dst : list A) mask src r j,
  Np.mask_assign dst mask src = Ok r -> nth_error mask j = Some false ->
  nth_error r j = nth_error dst j.
Proof.
  induction dst as [|d dst IH]; intros [|m mask] src r j H Hj; simpl in H;
    try discriminate.
  - destruct j; discriminate.
  - destruct m.
    + destruct src as [|x src]; [discriminate|].
      bind_inv H r' Hr. injection H as <-.
      destruct j as [|j]; simpl in *; [discriminate|]. eapply IH; eauto.
    + bind_inv H r' Hr. injection H as <-.
      destruct j as [|j]; simpl in *; [reflexivity|]. eapply IH; eauto.
Qed.

Lemma logical_not_nth mask j m :
  nth_error mask j = Some m -> nth_error (Np.logical_not mask) j = Some (negb m).
Proof.
  intros H. unfold Np.logical_not. rewrite nth_error_map, H. reflexivity.
Qed.

(** Rows assigned under a mask: a selected column holds the column of the
    source found at its rank, any other column is kept. *)
Lemma mask_assign_rows_true mask j : forall (dst xs dst' : Np.table),
  zipWithM (fun r x => Np.mask_assign r mask x) dst xs = Ok dst' ->
  nth_error mask j = Some true ->
  Np.column dst' j = Np.column xs (rank mask j).
Proof.
  induction dst as [|r dst IH]; intros [|x xs] dst' H Hj; simpl in H;
    try discriminate.
  - injection H as <-. reflexivity.
  - bind_inv H r' Hr. bind_inv H rest Hrest. injection H as <-.
    simpl. f_equal; [|eauto].
    apply nth_of_nth_error. eapply mask_assign_nth_true; eauto.
Qed.

Lemma mask_assign_rows_false mask j : forall (dst xs dst' : Np.table),
  zipWithM (fun r x => Np.mask_assign r mask x) dst xs = Ok dst' ->
  nth_error mask j = Some false ->
  Np.column dst' j = Np.column dst j.
Proof.
  induction dst as [|r dst IH]; intros [|x xs] dst' H Hj; simpl in H;
    try discriminate.
  - injection H as <-. reflexivity.
  - bind_inv H r' Hr. bind_inv H rest Hrest. injection H as <-.
    simpl. f_equal; [|eauto].
    apply nth_of_nth_error. eapply mask_assign_nth_false; eauto.
Qed.

Lemma compress_rows mask j : forall (rows rows_m : Np.table),
  mapM (Np.compress mask) rows = Ok rows_m ->
  nth_error mask j = Some true ->
  Np.column rows_m (rank mask j) = Np.column rows j.
Proof.
  induction rows as [|r rows IH]; intros rows_m H Hj; simpl in H.
  - injection H as <-. reflexivity.
  - bind_inv H r' Hr. bind_inv H rest Hrest. injection H as <-.
    simpl. f_equal; [|eauto].
    apply nth_of_nth_error. eapply compress_nth; eauto.
Qed.

(** [t[0, mask] = src] followed by [t[1:, mask] = xs] *)
Lemma mask_assign_table_true t mask src xs t1 t2 j :
  mask_assign_row0 t mask src = Ok t1 ->
  mask_assign_rows1 t1 mask xs = Ok t2 ->
  nth_error mask j = Some true ->
  Np.column t2 j = nth (rank mask j) src 0%Z :: Np.column xs (rank mask j).
Proof.
  unfold mask_assign_row0, mask_assign_rows1.
  destruct t as [|r0 rest]; [discriminate|]. intros H1 H2 Hj.
  bind_inv H1 r0' Hr0. injection H1 as <-.
  bind_inv H2 rest' Hrest. injection H2 as <-.
  simpl. f_equal.
  - apply nth_of_nth_error. eapply mask_assign_nth_true; eauto.
  - eapply mask_assign_rows_true; eauto.
Qed.

Lemma mask_assign_table_false t mask src xs t1 t2 j :
  mask_assign_row0 t mask src = Ok t1 ->
  mask_assign_rows1 t1 mask xs = Ok t2 ->
  nth_error mask j = Some false ->
  Np.column t2 j = Np.column t j.
Proof.
  unfold mask_assign_row0, mask_assign_rows1.
  destruct t as [|r0 rest]; [discriminate|]. intros H1 H2 Hj.
  bind_inv H1 r0' Hr0. injection H1 as <-.
  bind_inv H2 rest' Hrest. injection H2 as <-.
  simpl. f_equal.
  - apply nth_of_nth_error. eapply mask_assign_nth_false; eauto.
  - eapply mask_assign_rows_false; eauto.
Qed.

Lemma mask_assign_table_ncols t mask src xs t1 t2 :
  mask_assign_row0 t mask src = Ok t1 ->
  mask_assign_rows1 t1 mask xs = Ok t2 ->
  Np.ncols t2 = Np.ncols t.
Proof.
  unfold mask_assign_row0, mask_assign_rows1.
  destruct t as [|r0 rest]; [discriminate|]. intros H1 H2.
  bind_inv H1 r0' Hr0. injection H1 as <-.
  bind_inv H2 rest' Hrest. injection H2 as <-.
  simpl. eapply mask_assign_length; eauto.
Qed.

Lemma zeros_like_ncols (t : Np.table) : Np.ncols (Np.zeros_like t) = Np.ncols t.
Proof. destruct t; simpl; [reflexivity | apply length_map]. Qed.

(** One branch of [Bouzidi_bounce_back.set_iload]: the spatial rows
    [istore[1:, mask] + c * v[k[mask]].T], in a selected column. *)
Lemma masked_shift_column mask c d (v : Np.table) (rows rows_m : Np.table)
    k k_m vk_m xs j kj vk :
  mapM (Np.compress mask) rows = Ok rows_m ->
  Np.compress mask k = Ok k_m ->
  Np.take v k_m = Ok vk_m ->
  Np.add2 rows_m (Np.scale2 c (Np.transpose d vk_m)) = Ok xs ->
  nth_error mask j = Some true ->
  nth_error k j = Some kj -> Np.getitem v kj = Ok vk ->
  Np.column xs (rank mask j) = shift c (Np.column rows j) vk.
Proof.
  intros Hrows Hk Hvk Hxs Hj Hkj Hv.
  rewrite (add2_transpose_column c vk_m (rank mask j) rows_m 0 d xs Hxs).
  rewrite (compress_rows _ _ _ _ Hrows Hj). simpl. f_equal.
  assert (Hkm : nth_error k_m (rank mask j) = Some kj).
  { rewrite (compress_nth _ _ _ _ Hk Hj). exact Hkj. }
  destruct (take_nth _ _ _ _ _ (@nil Z) Hvk Hkm) as (y & Hy & _ & Hy').
  congruence.
Qed.

Lemma compress_nth_value {A} mask (a a' : list A) j x d :
  Np.compress mask a = Ok a' -> nth_error mask j = Some true ->
  nth_error a j = Some x -> nth (rank mask j) a' d = x.
Proof.
  intros H Hj Hx. apply nth_error_nth.
  rewrite (compress_nth _ _ _ _ H Hj). exact Hx.
Qed.

(** [Bouzidi_bounce_back.set_iload]: column [j] of the two tables it appends
    and entry [j] of the weights. *)
Lemma Bouzidi_load_column self self1 j kj x dj :
  Bouzidi_bounce_back_set_iload self = Ok self1 ->
  (j < Np.ncols (istore self))%nat ->
  Np.column (istore self) j = kj :: x ->
  nth_error (distance self) j = Some dj ->
  exists L1 L2 ksym vk,
    self1 = with_s (with_iload self (iload self ++ [L1; L2])) (s self1) /\
    Np.ncols L1 = Np.ncols (istore self) /\
    Np.ncols L2 = Np.ncols (istore self) /\
    Np.getitem (get_symmetric (stencil self)) kj = Ok ksym /\
    Np.getitem (get_all_velocities (stencil self)) kj = Ok vk /\
    Np.column L1 j = ksym :: shift 1 x vk /\
    Np.column L2 j = (if Rltb dj (1/2) then ksym :: shift 2 x vk
                      else kj :: shift 1 x vk) /\
    nth_error (s self1) j = Some (Bouzidi_s dj).
Proof.
  unfold Bouzidi_bounce_back_set_iload. intros H Hj Hcol Hd.
  destruct (istore_column _ _ _ _ Hj Hcol) as (k & Hk & Hkj & Hx & Hlen).
  rewrite Hk in H. simpl in H.
  set (mask := map (fun x => Rltb x (1/2)) (distance self)) in *.
  bind_inv H ksyml Hsym.
  bind_inv H ksym_m Hksym_m. bind_inv H a1 Ha1. bind_inv H b1 Hb1.
  bind_inv H istore_m Histore_m. bind_inv H k_m Hk_m. bind_inv H vk_m Hvk_m.
  bind_inv H x1 Hx1. bind_inv H a2 Ha2. bind_inv H x2 Hx2. bind_inv H b2 Hb2.
  bind_inv H dist_m Hdist_m. bind_inv H s1 Hs1.
  bind_inv H ksym_n Hksym_n. bind_inv H a3 Ha3. bind_inv H k_n Hk_n.
  bind_inv H b3 Hb3. bind_inv H istore_n Histore_n. bind_inv H vk_n Hvk_n.
  bind_inv H y1 Hy1. bind_inv H a4 Ha4. bind_inv H b4 Hb4.
  bind_inv H dist_n Hdist_n. bind_inv H s2 Hs2.
  injection H as <-.
  destruct (take_nth _ _ _ _ _ 0%Z Hsym Hkj) as (ksym & Hs & Hs' & _).
  assert (Hv : exists vk, Np.getitem (get_all_velocities (stencil self)) kj = Ok vk).
  { destruct (Rltb dj (1/2)) eqn:Em.
    - assert (Hm : nth_error mask j = Some true).
      { unfold mask. rewrite nth_error_map, Hd. simpl. rewrite Em. reflexivity. }
      assert (Hkm : nth_error k_m (rank mask j) = Some kj).
      { rewrite (compress_nth _ _ _ _ Hk_m Hm). exact Hkj. }
      destruct (take_nth _ _ _ _ _ (@nil Z) Hvk_m Hkm) as (y & Hy & _). eauto.
    - assert (Hm : nth_error (Np.logical_not mask) j = Some true).
      { apply (logical_not_nth mask j false).
        unfold mask. rewrite nth_error_map, Hd. simpl. rewrite Em. reflexivity. }
      assert (Hkm : nth_error k_n (rank (Np.logical_not mask) j) = Some kj).
      { rewrite (compress_nth _ _ _ _ Hk_n Hm). exact Hkj. }
      destruct (take_nth _ _ _ _ _ (@nil Z) Hvk_n Hkm) as (y & Hy & _). eauto. }
  destruct Hv as [vk Hvk].
  rewrite <- (scale2_1 (Np.transpose _ vk_m)) in Hx1.
  rewrite <- (scale2_1 (Np.transpose _ vk_n)) in Hy1.
  exists a4, b4, ksym, vk. simpl.
  split; [reflexivity|].
  split. { rewrite (mask_assign_table_ncols _ _ _ _ _ _ Ha3 Ha4),
             (mask_assign_table_ncols _ _ _ _ _ _ Ha1 Ha2). apply zeros_like_ncols. }
  split. { rewrite (mask_assign_table_ncols _ _ _ _ _ _ Hb3 Hb4),
             (mask_assign_table_ncols _ _ _ _ _ _ Hb1 Hb2). apply zeros_like_ncols. }
  split; [exact Hs|]. split; [exact Hvk|].
  unfold Bouzidi_s.
  destruct (Rltb dj (1/2)) eqn:Em.
  - assert (Hm : nth_error mask j = Some true).
    { unfold mask. rewrite nth_error_map, Hd. simpl. rewrite Em. reflexivity. }
    pose proof (logical_not_nth _ _ _ Hm) as Hn. simpl in Hn.
    split; [|split].
    + rewrite (mask_assign_table_false _ _ _ _ _ _ j Ha3 Ha4 Hn).
      rewrite (mask_assign_table_true _ _ _ _ _ _ j Ha1 Ha2 Hm).
      rewrite (compress_nth_value _ _ _ _ _ 0%Z Hksym_m Hm Hs').
      rewrite (masked_shift_column _ _ _ _ _ _ _ _ _ _ _ _ _
                 Histore_m Hk_m Hvk_m Hx1 Hm Hkj Hvk), Hx. reflexivity.
    + rewrite (mask_assign_table_false _ _ _ _ _ _ j Hb3 Hb4 Hn).
      rewrite (mask_assign_table_true _ _ _ _ _ _ j Hb1 Hb2 Hm).
      rewrite (compress_nth_value _ _ _ _ _ 0%Z Hksym_m Hm Hs').
      rewrite (masked_shift_column _ _ _ _ _ _ _ _ _ _ _ _ _
                 Histore_m Hk_m Hvk_m Hx2 Hm Hkj Hvk), Hx. reflexivity.
    + rewrite (mask_assign_nth_false _ _ _ _ _ Hs2 Hn).
      rewrite (mask_assign_nth_true _ _ _ _ _ Hs1 Hm).
      rewrite nth_error_map, (compress_nth _ _ _ _ Hdist_m Hm), Hd. reflexivity.
  - assert (Hm : nth_error mask j = Some false).
    { unfold mask. rewrite nth_error_map, Hd. simpl. rewrite Em. reflexivity. }
    pose proof (logical_not_nth _ _ _ Hm) as Hn. simpl in Hn.
    split; [|split].
    + rewrite (mask_assign_table_true _ _ _ _ _ _ j Ha3 Ha4 Hn).
      rewrite (compress_nth_value _ _ _ _ _ 0%Z Hksym_n Hn Hs').
      rewrite (masked_shift_column _ _ _ _ _ _ _ _ _ _ _ _ _
                 Histore_n Hk_n Hvk_n Hy1 Hn Hkj Hvk), Hx. reflexivity.
    + rewrite (mask_assign_table_true _ _ _ _ _ _ j Hb3 Hb4 Hn).
      rewrite (compress_nth_value _ _ _ _ _ 0%Z Hk_n Hn Hkj).
      rewrite (masked_shift_column _ _ _ _ _ _ _ _ _ _ _ _ _
                 Histore_n Hk_n Hvk_n Hy1 Hn Hkj Hvk), Hx. reflexivity.
    + rewrite (mask_assign_nth_true _ _ _ _ _ Hs2 Hn).
      rewrite nth_error_map, (compress_nth _ _ _ _ Hdist_n Hn), Hd. reflexivity.
Qed.

Lemma Rltb_true x y : Rltb x y = true <-> (x < y)%R.
Proof.
  unfold Rltb. destruct (Rlt_dec x y); split; intros; auto; discriminate.
Qed.

Lemma Rltb_false x y : Rltb x y = false <-> ~ (x < y)%R.
Proof.
  unfold Rltb. destruct (Rlt_dec x y); split; intros; auto; try discriminate.
  contradiction.
Qed.

(** The Bouzidi bounce-back rule, in the setting of
    [bounce_back_column_rule]. *)
Lemma Bouzidi_column_rule self self1 selfp self2 self3 f f' ps j p k x d :
  class_ self = Bouzidi_bounce_back -> iload self = [] ->
  set_iload self = Ok self1 -> same_geometry selfp self1 ->
  set_rhs selfp = Ok self2 ->
  update self2 f = Ok (self3, f') ->
  targets f (istore self) = Ok ps -> NoDup ps -> nth_error ps j = Some p ->
  Np.column (istore self) j = k :: x ->
  nth_error (distance self) j = Some d ->
  exists L1 L2 ksym vk q1 q2 a b,
    iload self1 = [L1; L2] /\
    Np.getitem (get_symmetric (stencil self)) k = Ok ksym /\
    Np.getitem (get_all_velocities (stencil self)) k = Ok vk /\
    Np.column L1 j = ksym :: shift 1 x vk /\
    Np.column L2 j = (if Rltb d (1/2) then ksym :: shift 2 x vk
                      else k :: shift 1 x vk) /\
    nth_error (s self1) j = Some (Bouzidi_s d) /\
    norm_multi (shape f) (k :: x) = Ok p /\
    norm_multi (shape f) (Np.column L1 j) = Ok q1 /\
    norm_multi (shape f) (Np.column L2 j) = Ok q2 /\
    entry (feq selfp) k j = Ok a /\ entry (feq selfp) ksym j = Ok b /\
    data f' p = (Bouzidi_s d * data f q1 + (1 - Bouzidi_s d) * data f q2
                 + (a - b))%R.
Proof.
  intros Hc Hnil H1 Hg H2 H3 Hps Hnd Hp Hcol Hd.
  destruct (targets_nth _ _ _ _ _ Hps Hp) as [Hj Hnorm].
  unfold set_iload in H1. rewrite Hc in H1.
  destruct (Bouzidi_load_column _ _ _ _ _ _ H1 Hj Hcol Hd)
    as (L1 & L2 & ksym & vk & Hself1 & Hn1 & Hn2 & Hsym & Hvk & HL1 & HL2 & Hs).
  rewrite Hnil in Hself1. simpl in Hself1.
  destruct Hg as (Gc & Gi & _ & _ & _ & Gs & Gl & _ & Gss).
  rewrite Hself1 in Gc, Gi, Gs, Gl. simpl in Gc, Gi, Gs, Gl.
  destruct (istore_column _ _ _ _ Hj Hcol) as (k0 & Hk0 & Hkj & _ & _).
  unfold set_rhs in H2. rewrite Gc, Hc in H2.
  rewrite <- Gi in Hk0. rewrite <- Gs in Hsym.
  destruct (bounce_back_set_rhs_column _ _ _ _ _ _ H2 Hk0 Hkj Hsym)
    as (a & b & Ha & Hb & Hr & Hself2).
  unfold update in H3. rewrite Hself2 in H3. simpl in H3. rewrite Gc, Hc in H3.
  rewrite <- Gi in Hps, Hn1, Hn2.
  destruct (Bouzidi_bounce_back_update_column _ _ _ _ L1 L2 _ _ _ H3
              (f_equal (fun l => Np.item l 0) Gl)
              (f_equal (fun l => Np.item l 1) Gl) Hn1 Hn2 Hps Hnd Hp)
    as (q1 & q2 & sj & r & Hq1 & Hq2 & Hsj & Hr' & Hf).
  simpl in Hr', Hsj. rewrite Hr in Hr'. injection Hr' as <-.
  rewrite Gss, Hs in Hsj. injection Hsj as <-.
  rewrite Hcol in Hnorm. rewrite Gs in Hsym.
  exists L1, L2, ksym, vk, q1, q2, a, b.
  split; [rewrite Hself1; reflexivity|].
  repeat split; auto.
Qed.

(** C1: on a Bouzidi bounce-back instance, in the setting of C2, a column
    of velocity index [k], symmetric index [ksym], spatial index [x] and
    distance [d] gets, when [d < 1/2], the load indices [(ksym, x + v[k])]
    and [(ksym, x + 2 v[k])] and the weight [2 d], otherwise the load
    indices [(ksym, x + v[k])] and [(k, x + v[k])] and the weight
    [(1/2) / d]; [update] writes
    [s * f[load1] + (1 - s) * f[load2] + (feq[k] - feq[ksym])] there. *)
Theorem Bouzidi_interpolation_rule :
  forall self self1 selfp self2 self3 f f' ps j p k x d,
    class_ self = Bouzidi_bounce_back -> iload self = [] ->
    set_iload self = Ok self1 -> same_geometry selfp self1 ->
    set_rhs selfp = Ok self2 ->
    update self2 f = Ok (self3, f') ->
    targets f (istore self) = Ok ps -> NoDup ps -> nth_error ps j = Some p ->
    Np.column (istore self) j = k :: x ->
    nth_error (distance self) j = Some d ->
    exists L1 L2 ksym vk sj q1 q2 a b,
      iload self1 = [L1; L2] /\
      Np.getitem (get_symmetric (stencil self)) k = Ok ksym /\
      Np.getitem (get_all_velocities (stencil self)) k = Ok vk /\
      nth_error (s self1) j = Some sj /\
      ((d < 1/2)%R ->
         Np.column L1 j = ksym :: shift 1 x vk /\
         Np.column L2 j = ksym :: shift 2 x vk /\ sj = (2 * d)%R) /\
      (~ (d < 1/2)%R ->
         Np.column L1 j = ksym :: shift 1 x vk /\
         Np.column L2 j = k :: shift 1 x vk /\ sj = ((1/2) / d)%R) /\
      norm_multi (shape f) (k :: x) = Ok p /\
      norm_multi (shape f) (Np.column L1 j) = Ok q1 /\
      norm_multi (shape f) (Np.column L2 j) = Ok q2 /\
      entry (feq selfp) k j = Ok a /\ entry (feq selfp) ksym j = Ok b /\
      data f' p = (sj * data f q1 + (1 - sj) * data f q2 + (a - b))%R.
Proof.
  intros self self1 selfp self2 self3 f f' ps j p k x d
    Hc Hnil H1 Hg H2 H3 Hps Hnd Hp Hcol Hd.
  destruct (Bouzidi_column_rule _ _ _ _ _ _ _ _ _ _ _ _ _
              Hc Hnil H1 Hg H2 H3 Hps Hnd Hp Hcol Hd)
    as (L1 & L2 & ksym & vk & q1 & q2 & a & b & Hl & Hsym & Hvk & HL1 & HL2
        & Hs & Hnp & Hq1 & Hq2 & Ha & Hb & Hf).
  exists L1, L2, ksym, vk, (Bouzidi_s d), q1, q2, a, b.
  repeat (split; [assumption|]).
  unfold Bouzidi_s in *.
  split; [|split].
  - intros Hlt. apply Rltb_true in Hlt. rewrite Hlt in *. auto.
  - intros Hge. apply Rltb_false in Hge. rewrite Hge in *. auto.
  - repeat (split; [assumption|]). exact Hf.
Qed.

Lemma Rltb_quarter_half : Rltb (1/4) (1/2) = true.
Proof. apply Rltb_true. lra. Qed.

Example Bouzidi_point_set_iload :
  set_iload (one_point Bouzidi_bounce_back) = Ok Bouzidi_loaded.
Proof.
  unfold set_iload, Bouzidi_bounce_back_set_iload. simpl.
  rewrite Rltb_quarter_half. reflexivity.
Qed.

Lemma Bouzidi_interpolation_rule_witness :
  exists L1 L2 ksym vk sj q1 q2 a b,
    iload Bouzidi_loaded = [L1; L2] /\
    Np.getitem (get_symmetric stencil_z) 0 = Ok ksym /\
    Np.getitem (get_all_velocities stencil_z) 0 = Ok vk /\
    nth_error (s Bouzidi_loaded) 0 = Some sj /\
    ((1/4 < 1/2)%R ->
       Np.column L1 0 = ksym :: shift 1 [5; 5; 5]%Z vk /\
       Np.column L2 0 = ksym :: shift 2 [5; 5; 5]%Z vk /\ sj = (2 * (1/4))%R) /\
    (~ (1/4 < 1/2)%R ->
       Np.column L1 0 = ksym :: shift 1 [5; 5; 5]%Z vk /\
       Np.column L2 0 = 0%Z :: shift 1 [5; 5; 5]%Z vk /\ sj = ((1/2) / (1/4))%R) /\
    norm_multi (shape field0) [0; 5; 5; 5]%Z = Ok [0; 5; 5; 5]%nat /\
    norm_multi (shape field0) (Np.column L1 0) = Ok q1 /\
    norm_multi (shape field0) (Np.column L2 0) = Ok q2 /\
    entry (feq Bouzidi_loaded) 0 0 = Ok a /\
    entry (feq Bouzidi_loaded) ksym 0 = Ok b /\
    data field4 [0; 5; 5; 5]%nat
    = (sj * data field0 q1 + (1 - sj) * data field0 q2 + (a - b))%R.
Proof.
  apply (Bouzidi_interpolation_rule (one_point Bouzidi_bounce_back)
           Bouzidi_loaded Bouzidi_loaded Bouzidi_ready Bouzidi_ready
           field0 field4 [[0; 5; 5; 5]%nat] 0 [0; 5; 5; 5]%nat 0%Z [5; 5; 5]%Z
           (1/4)%R).
  - reflexivity.
  - reflexivity.
  - exact Bouzidi_point_set_iload.
  - apply same_geometry_refl.
  - reflexivity.
  - reflexivity.
  - reflexivity.
  - repeat constructor. simpl. tauto.
  - reflexivity.
  - reflexivity.
  - reflexivity.
Defined.

(** ** Continuity of the Bouzidi rule at distance 1/2 *)

Section Continuity.

Local Open Scope R_scope.

(** On both sides of 1/2 the weight is within [2 |d - 1/2|] of 1. *)
Lemma Bouzidi_s_near_one d :
  Rabs (1 - Bouzidi_s d) <= 2 * Rabs (d - 1/2).
Proof.
  unfold Bouzidi_s, Rltb. destruct (Rlt_dec d (1/2)) as [Hlt|Hge].
  - rewrite (Rabs_pos_eq (1 - 2 * d)) by lra.
    rewrite (Rabs_left (d - 1/2)) by lra. lra.
  - assert (Hd : 1/2 <= d) by lra.
    assert (Hi : 0 < / d) by (apply Rinv_0_lt_compat; lra).
    assert (Hdi : d * / d = 1) by (apply Rinv_r; lra).
    assert (Hi2 : / d <= 2) by nra.
    replace (1 - 1 / 2 / d) with ((d - 1/2) * / d) by (field; lra).
    rewrite (Rabs_pos_eq ((d - 1/2) * / d)) by nra.
    rewrite (Rabs_pos_eq (d - 1/2)) by lra. nra.
Qed.

(** The interpolated value tends to [A + r], whichever of the two second
    readings [Blo], [Bhi] the branch uses. *)
Lemma Bouzidi_value_limit A Blo Bhi eps :
  0 < eps ->
  exists delta, 0 < delta /\
    forall d B r, B = Blo \/ B = Bhi -> Rabs (d - 1/2) < delta ->
      Rabs (Bouzidi_s d * A + (1 - Bouzidi_s d) * B + r - (A + r)) < eps.
Proof.
  intros Heps.
  set (C := Rabs (Blo - A) + Rabs (Bhi - A)).
  assert (HC : 0 <= C) by (unfold C; pose proof (Rabs_pos (Blo - A));
                           pose proof (Rabs_pos (Bhi - A)); lra).
  exists (eps / (2 * (C + 1))). split.
  { apply Rdiv_lt_0_compat; lra. }
  intros d B r HB Hd.
  replace (Bouzidi_s d * A + (1 - Bouzidi_s d) * B + r - (A + r))
    with ((1 - Bouzidi_s d) * (B - A)) by ring.
  rewrite Rabs_mult.
  pose proof (Bouzidi_s_near_one d) as Hs.
  pose proof (Rabs_pos (1 - Bouzidi_s d)) as Hs0.
  pose proof (Rabs_pos (d - 1/2)) as Hd0.
  pose proof (Rabs_pos (Blo - A)) as H1.
  pose proof (Rabs_pos (Bhi - A)) as H2.
  assert (HBC : Rabs (B - A) <= C).
  { unfold C. destruct HB as [-> | ->]; lra. }
  pose proof (Rabs_pos (B - A)) as HB0.
  assert (Hdelta : eps / (2 * (C + 1)) * (2 * (C + 1)) = eps) by (field; lra).
  set (delta := eps / (2 * (C + 1))) in *.
  assert (Hdpos : 0 < delta) by (unfold delta; apply Rdiv_lt_0_compat; lra).
  apply Rle_lt_trans with (2 * Rabs (d - 1/2) * C).
  - apply Rmult_le_compat; lra.
  - nra.
Qed.

End Continuity.

Lemma value_at_Ok f c q : norm_multi (shape f) c = Ok q -> value_at f c = data f q.
Proof. unfold value_at. intros ->. reflexivity. Qed.

(** C8: fix the field, the stencil and the velocity and spatial index of a
    column.  The value [update] of the Bouzidi bounce-back class writes for
    that column is as close as wanted to the value read at
    [(ksym, x + v[k])] plus the forcing term, as soon as the distance of the
    column is close enough to 1/2, below 1/2 (weight [2 d], second reading
    at [(ksym, x + 2 v[k])]) as well as above (weight [(1/2) / d], second
    reading at [(k, x + v[k])]): both branches have the same limit. *)
Theorem Bouzidi_update_continuous_at_half :
  forall (f : Field) (st : Stencil) (k : Z) (x : list Z) (eps : R),
    (0 < eps)%R ->
    exists delta, (0 < delta)%R /\
      forall self self1 selfp self2 self3 f' ps j p d,
        class_ self = Bouzidi_bounce_back -> iload self = [] ->
        stencil self = st ->
        set_iload self = Ok self1 -> same_geometry selfp self1 ->
        set_rhs selfp = Ok self2 ->
        update self2 f = Ok (self3, f') ->
        targets f (istore self) = Ok ps -> NoDup ps -> nth_error ps j = Some p ->
        Np.column (istore self) j = k :: x ->
        nth_error (distance self) j = Some d ->
        (Rabs (d - 1/2) < delta)%R ->
        exists ksym vk q1 a b,
          Np.getitem (get_symmetric st) k = Ok ksym /\
          Np.getitem (get_all_velocities st) k = Ok vk /\
          norm_multi (shape f) (ksym :: shift 1 x vk) = Ok q1 /\
          entry (feq selfp) k j = Ok a /\ entry (feq selfp) ksym j = Ok b /\
          (Rabs (data f' p - (data f q1 + (a - b))) < eps)%R.
Proof.
  intros f st k x eps Heps.
  set (ksym0 := or_default 0%Z (Np.getitem (get_symmetric st) k)).
  set (vk0 := or_default [] (Np.getitem (get_all_velocities st) k)).
  destruct (Bouzidi_value_limit
              (value_at f (ksym0 :: shift 1 x vk0))
              (value_at f (ksym0 :: shift 2 x vk0))
              (value_at f (k :: shift 1 x vk0)) eps Heps)
    as (delta & Hdelta & Hlim).
  exists delta. split; [exact Hdelta|].
  intros self self1 selfp self2 self3 f' ps j p d
    Hc Hnil Hst H1 Hg H2 H3 Hps Hnd Hp Hcol Hd Hnear.
  destruct (Bouzidi_column_rule _ _ _ _ _ _ _ _ _ _ _ _ _
              Hc Hnil H1 Hg H2 H3 Hps Hnd Hp Hcol Hd)
    as (L1 & L2 & ksym & vk & q1 & q2 & a & b & Hl & Hsym & Hvk & HL1 & HL2
        & Hs & Hnp & Hq1 & Hq2 & Ha & Hb & Hf).
  rewrite Hst in Hsym, Hvk.
  assert (Ek : ksym0 = ksym) by (unfold ksym0; rewrite Hsym; reflexivity).
  assert (Ev : vk0 = vk) by (unfold vk0; rewrite Hvk; reflexivity).
  rewrite Ek, Ev in Hlim.
  rewrite HL1 in Hq1.
  exists ksym, vk, q1, a, b. repeat (split; [assumption|]).
  rewrite Hf.
  replace (Bouzidi_s d * data f q1 + (1 - Bouzidi_s d) * data f q2 + (a - b)
           - (data f q1 + (a - b)))%R
    with (Bouzidi_s d * value_at f (ksym :: shift 1 x vk)
          + (1 - Bouzidi_s d) * data f q2 + (a - b)
          - (value_at f (ksym :: shift 1 x vk) + (a - b)))%R
    by (rewrite (value_at_Ok _ _ _ Hq1); reflexivity).
  apply Hlim; [|exact Hnear].
  rewrite HL2 in Hq2. destruct (Rltb d (1/2)).
  - left. symmetry. apply value_at_Ok. exact Hq2.
  - right. symmetry. apply value_at_Ok. exact Hq2.
Qed.

(** Runs of the three calls on the point at distance [d], on either side
    of 1/2. *)
Lemma Bouzidi_at_run_below d :
  (d < 1/2)%R ->
  set_iload (Bouzidi_at d) = Ok (Bouzidi_below d) /\
  set_rhs (Bouzidi_below d) = Ok (with_rhs (Bouzidi_below d) [(0 - 0)%R]) /\
  update (with_rhs (Bouzidi_below d) [(0 - 0)%R]) field_ramp
  = Ok (with_rhs (Bouzidi_below d) [(0 - 0)%R], field_below d).
Proof.
  intros Hd. split; [|split; reflexivity].
  unfold set_iload, Bouzidi_bounce_back_set_iload. simpl.
  rewrite (proj2 (Rltb_true d (1/2)) Hd). reflexivity.
Qed.

Lemma Bouzidi_at_run_above d :
  ~ (d < 1/2)%R ->
  set_iload (Bouzidi_at d) = Ok (Bouzidi_above d) /\
  set_rhs (Bouzidi_above d) = Ok (with_rhs (Bouzidi_above d) [(0 - 0)%R]) /\
  update (with_rhs (Bouzidi_above d) [(0 - 0)%R]) field_ramp
  = Ok (with_rhs (Bouzidi_above d) [(0 - 0)%R], field_above d).
Proof.
  intros Hd. split; [|split; reflexivity].
  unfold set_iload, Bouzidi_bounce_back_set_iload. simpl.
  rewrite (proj2 (Rltb_false d (1/2)) Hd). reflexivity.
Qed.

(** At tolerance 1, on [field_ramp]: a run below 1/2 and a run above 1/2,
    each at a distance between 1/4 and 3/4 within the [delta] the theorem
    gives, both writing a value within 1 of the common limit, the value 16
    read at [(1, 5, 5, 6)]. *)
Lemma Bouzidi_update_continuous_at_half_witness :
  exists dlo dhi,
    (1/4 <= dlo < 1/2)%R /\ (1/2 < dhi <= 3/4)%R /\
    set_iload (Bouzidi_at dlo) = Ok (Bouzidi_below dlo) /\
    set_rhs (Bouzidi_below dlo) = Ok (with_rhs (Bouzidi_below dlo) [(0 - 0)%R]) /\
    update (with_rhs (Bouzidi_below dlo) [(0 - 0)%R]) field_ramp
    = Ok (with_rhs (Bouzidi_below dlo) [(0 - 0)%R], field_below dlo) /\
    set_iload (Bouzidi_at dhi) = Ok (Bouzidi_above dhi) /\
    set_rhs (Bouzidi_above dhi) = Ok (with_rhs (Bouzidi_above dhi) [(0 - 0)%R]) /\
    update (with_rhs (Bouzidi_above dhi) [(0 - 0)%R]) field_ramp
    = Ok (with_rhs (Bouzidi_above dhi) [(0 - 0)%R], field_above dhi) /\
    (Rabs (data (field_below dlo) [0; 5; 5; 5]%nat
           - (data field_ramp [1; 5; 5; 6]%nat + (0 - 0))) < 1)%R /\
    (Rabs (data (field_above dhi) [0; 5; 5; 5]%nat
           - (data field_ramp [1; 5; 5; 6]%nat + (0 - 0))) < 1)%R.
Proof.
  destruct (Bouzidi_update_continuous_at_half field_ramp stencil_z 0%Z
              [5; 5; 5]%Z 1%R) as (delta & Hpos & H); [lra|].
  set (h := (Rmin delta (1/2) / 2)%R).
  assert (Hh : (0 < h <= 1/4)%R /\ (h < delta)%R).
  { unfold h. pose proof (Rmin_l delta (1/2)). pose proof (Rmin_r delta (1/2)).
    assert (0 < Rmin delta (1/2))%R by (apply Rmin_glb_lt; lra). lra. }
  destruct Hh as (Hh & Hhd).
  assert (Hnd : NoDup [[0; 5; 5; 5]%nat])
    by (repeat constructor; simpl; tauto).
  assert (Hlo : (1/2 - h < 1/2)%R) by lra.
  assert (Hhi : ~ (1/2 + h < 1/2)%R) by lra.
  destruct (Bouzidi_at_run_below _ Hlo) as (Il & Rl & Ul).
  destruct (Bouzidi_at_run_above _ Hhi) as (Ih & Rh & Uh).
  exists (1/2 - h)%R, (1/2 + h)%R.
  split; [lra|]. split; [lra|].
  repeat (split; [assumption|]).
  split.
  - destruct (H (Bouzidi_at (1/2 - h)) (Bouzidi_below (1/2 - h))
                (Bouzidi_below (1/2 - h))
                (with_rhs (Bouzidi_below (1/2 - h)) [(0 - 0)%R])
                (with_rhs (Bouzidi_below (1/2 - h)) [(0 - 0)%R])
                (field_below (1/2 - h)) [[0; 5; 5; 5]%nat] 0%nat
                [0; 5; 5; 5]%nat (1/2 - h)%R
                eq_refl eq_refl eq_refl Il (same_geometry_refl _) Rl Ul
                eq_refl Hnd eq_refl eq_refl eq_refl)
      as (ksym & vk & q1 & a & b & E1 & E2 & E3 & E4 & E5 & Hnear).
    { replace (1/2 - h - 1/2)%R with (- h)%R by lra.
      rewrite Rabs_Ropp, Rabs_pos_eq by lra. exact Hhd. }
    injection E1 as <-. injection E2 as <-. injection E3 as <-.
    injection E4 as <-. injection E5 as <-. exact Hnear.
  - destruct (H (Bouzidi_at (1/2 + h)) (Bouzidi_above (1/2 + h))
                (Bouzidi_above (1/2 + h))
                (with_rhs (Bouzidi_above (1/2 + h)) [(0 - 0)%R])
                (with_rhs (Bouzidi_above (1/2 + h)) [(0 - 0)%R])
                (field_above (1/2 + h)) [[0; 5; 5; 5]%nat] 0%nat
                [0; 5; 5; 5]%nat (1/2 + h)%R
                eq_refl eq_refl eq_refl Ih (same_geometry_refl _) Rh Uh
                eq_refl Hnd eq_refl eq_refl eq_refl)
      as (ksym & vk & q1 & a & b & E1 & E2 & E3 & E4 & E5 & Hnear).
    { replace (1/2 + h - 1/2)%R with h by lra.
      rewrite Rabs_pos_eq by lra. exact Hhd. }
    injection E1 as <-. injection E2 as <-. injection E3 as <-.
    injection E4 as <-. injection E5 as <-. exact Hnear.
Defined.

(** ** Columns [prepare_rhs] stores *)

Lemma where_eq_from_ge : forall a key s j,
  In j (where_eq_from s a key) -> (s <= j)%nat.
Proof.
  intros a key s j H. apply where_eq_from_In in H.
  destruct H as (i & -> & _). lia.
Qed.

Lemma where_eq_from_NoDup : forall a key s, NoDup (where_eq_from s a key).
Proof.
  induction a as [|x a IH]; simpl; intros key s; [constructor|].
  destruct (x =? key)%Z; [|apply IH].
  constructor; [|apply IH].
  intros H. apply where_eq_from_ge in H. lia.
Qed.

Lemma where_eq_from_complete : forall a key s i,
  nth_error a i = Some key -> In (s + i)%nat (where_eq_from s a key).
Proof.
  induction a as [|x a IH]; intros key s i H; [destruct i; discriminate|].
  destruct i as [|i]; simpl in *.
  - injection H as ->. rewrite Z.eqb_refl. left. lia.
  - replace (s + S i)%nat with (S s + i)%nat by lia.
    destruct (x =? key)%Z; [right|]; apply IH; exact H.
Qed.

Lemma set_row_same {A} : forall (l : list A) i x,
  (i < length l)%nat -> nth_error (Np.set_row l i x) i = Some x.
Proof.
  induction l as [|a l IH]; simpl; intros i x H; [lia|].
  destruct i as [|i]; simpl; [reflexivity|]. apply IH. lia.
Qed.

Lemma set_row_length {A} : forall (l : list A) i x,
  length (Np.set_row l i x) = length l.
Proof.
  induction l as [|a l IH]; simpl; intros i x; [reflexivity|].
  destruct i; simpl; [reflexivity|]. f_equal. apply IH.
Qed.

Lemma put_length : forall indices xs row row',
  put row indices xs = Ok row' -> length row' = length row.
Proof.
  induction indices as [|j indices IH]; intros xs row row' H;
    destruct xs as [|x xs]; simpl in H; try discriminate.
  - injection H as <-. reflexivity.
  - destruct (j <? length row)%nat; [|discriminate].
    rewrite (IH _ _ _ H). apply set_row_length.
Qed.

Lemma put_written : forall indices xs row row' c j,
  put row indices xs = Ok row' -> NoDup indices ->
  nth_error indices c = Some j ->
  exists x, nth_error xs c = Some x /\ nth_error row' j = Some x.
Proof.
  induction indices as [|i indices IH]; intros xs row row' c j H Hnd Hc;
    [destruct c; discriminate|].
  destruct xs as [|x xs]; simpl in H; [discriminate|].
  destruct (i <? length row)%nat eqn:Ei; [|discriminate].
  apply Nat.ltb_lt in Ei. inversion Hnd as [|? ? Hni Hnd']; subst.
  destruct c as [|c]; simpl in Hc.
  - injection Hc as ->. exists x. split; [reflexivity|].
    rewrite (put_frame _ _ _ _ _ H Hni). apply set_row_same. exact Ei.
  - simpl. eapply IH; eauto.
Qed.

Lemma zipWithM_map_l {A B C D} (f : A -> B -> result C) (P : C -> D) (Q : A -> D) :
  (forall x y z, f x y = Ok z -> P z = Q x) ->
  forall a b r, zipWithM f a b = Ok r -> map P r = map Q a.
Proof.
  intros Hf. induction a as [|x a IH]; intros b r H;
    destruct b as [|y b]; simpl in H; try discriminate.
  - injection H as <-. reflexivity.
  - bind_inv H z Ez. bind_inv H r' Er. injection H as <-.
    simpl. f_equal; eauto.
Qed.

Lemma zipWithM_map_r {A B C D} (f : A -> B -> result C) (P : C -> D) (Q : B -> D) :
  (forall x y z, f x y = Ok z -> P z = Q y) ->
  forall a b r, zipWithM f a b = Ok r -> map P r = map Q b.
Proof.
  intros Hf. induction a as [|x a IH]; intros b r H;
    destruct b as [|y b]; simpl in H; try discriminate.
  - injection H as <-. reflexivity.
  - bind_inv H z Ez. bind_inv H r' Er. injection H as <-.
    simpl. f_equal; eauto.
Qed.

Lemma put_columns_written fq indices nv f fq' c j :
  put_columns fq indices nv f = Ok fq' -> NoDup indices ->
  nth_error indices c = Some j ->
  feq_column fq' j = feq_column f c /\ (c < length indices)%nat.
Proof.
  unfold put_columns. intros H Hnd Hc.
  destruct (_ && _) eqn:Eok; [|discriminate].
  apply andb_true_iff in Eok. destruct Eok as [_ Hall].
  rewrite forallb_forall in Hall.
  split; [|apply nth_error_Some; congruence].
  unfold feq_column.
  assert (Hgen : forall a b r,
             (forall y, In y b -> length y = length indices) ->
             zipWithM (fun row xs => put row indices xs) a b = Ok r ->
             map (fun row => nth_error row j) r
             = map (fun row => nth_error row c) b).
  { induction a as [|x a IH]; intros b r Hb Hz;
      destruct b as [|y b]; simpl in Hz; try discriminate.
    - injection Hz as <-. reflexivity.
    - bind_inv Hz z Ez. bind_inv Hz r' Er. injection Hz as <-.
      simpl. f_equal.
      + destruct (put_written _ _ _ _ _ _ Ez Hnd Hc) as (v & -> & ->).
        reflexivity.
      + apply IH; [|exact Er]. intros y' Hy'. apply Hb. right. exact Hy'. }
  apply (Hgen _ _ _ (fun y Hy => proj1 (Nat.eqb_eq _ _) (Hall y Hy)) H).
Qed.

(** ** A prescribed value that is a tuple of the wrong length *)

(** C5, as stated, fails: with a tuple of three items whose first two are a
    function and a tuple, [prepare_rhs] logs the error, raises nothing, and
    the equilibrium column of the label holds what the function prescribes
    (1 here), not 0. *)
Lemma wrong_arity_columns_are_set :
  length three_items <> 2%nat /\
  value_bc tuple_point = [(7%Z, VTuple three_items)] /\
  feq tuple_point = [[0]; [0]]%R /\
  prepare_rhs tuple_point copy_scheme
  = (with_feq (with_log tuple_point [log_message]) [[1]; [1]]%R, None) /\
  [[1]; [1]]%R <> [[0]; [0]]%R.
Proof.
  split; [discriminate|]. split; [reflexivity|]. split; [reflexivity|].
  split; [reflexivity|].
  intros H. injection H as H. lra.
Qed.

Lemma put_total : forall indices xs row,
  length xs = length indices ->
  (forall j, In j indices -> (j < length row)%nat) ->
  exists row', put row indices xs = Ok row'.
Proof.
  induction indices as [|j indices IH]; intros [|x xs] row Hl Hj;
    simpl in Hl; try discriminate; simpl.
  - eauto.
  - replace (j <? length row)%nat with true
      by (symmetry; apply Nat.ltb_lt; apply Hj; left; reflexivity).
    apply IH; [lia|]. intros j' Hj'. rewrite set_row_length.
    apply Hj. right. exact Hj'.
Qed.

Lemma put_columns_total fq indices nv (f : Array) :
  length f = nv -> length fq = nv ->
  (forall row, In row f -> length row = length indices) ->
  (forall row j, In row fq -> In j indices -> (j < length row)%nat) ->
  exists fq', put_columns fq indices nv f = Ok fq'.
Proof.
  intros Hf Hfq Hrows Hidx. unfold put_columns.
  replace ((length f =? nv)%nat
           && forallb (fun r => (length r =? length indices)%nat) f)
    with true.
  2:{ symmetry. apply andb_true_iff. split; [apply Nat.eqb_eq; exact Hf|].
      apply forallb_forall. intros row Hrow. apply Nat.eqb_eq. auto. }
  assert (Hlen : length fq = length f) by congruence.
  clear Hf Hfq. revert f Hlen Hrows.
  induction fq as [|row fq IH]; intros [|xs f] Hlen Hrows; simpl in Hlen;
    try discriminate; simpl.
  - eauto.
  - destruct (put_total indices xs row) as (row' & ->).
    + apply Hrows. left. reflexivity.
    + intros j Hj. apply (Hidx row j); [left; reflexivity | exact Hj].
    + cbn [bind].
      destruct (IH (fun r j Hr Hj => Hidx r j (or_intror Hr) Hj) f) as (fq' & ->);
        [lia | intros r Hr; apply Hrows; right; exact Hr|].
      cbn [bind]. eauto.
Qed.

(** C5, amended: for a tuple whose length is not 2, the pass of the loop of
    [prepare_rhs] for that label keeps the geometry of the instance, never
    writes an equilibrium column of another label, and leaves the whole
    equilibrium table as it was whenever it ends with an exception.  Once
    the wall coordinates are computed it logs the error and goes on with
    the tuple as it is: with fewer than two items it raises [IndexError];
    with a function as second item, or tuples as first and second items, it
    raises [TypeError]; with a function as first and a tuple as second item
    it calls the function on the coordinates followed by the items of that
    tuple, whatever else the outer tuple holds, raises what the function
    raises, and otherwise stores: when the pass ends normally, as it does
    when the shapes of the tables agree, every column of the label holds
    the matching column of [m2f] of the equilibrium of the moments the
    function left. *)
Theorem prepare_rhs_wrong_arity :
  forall sim self key items,
    length items <> 2%nat ->
    let r := prepare_rhs_label sim self (key, VTuple items) in
    let indices := where_eq (ilabel self) key in
    let zero := repeat (repeat 0%R (length indices)) (sim_nv sim) in
    same_geometry (fst r) self /\
    (forall j, nth_error (ilabel self) j <> Some key ->
               feq_column (feq (fst r)) j = feq_column (feq self) j) /\
    (snd r <> None -> feq (fst r) = feq self) /\
    forall coords,
      wall_coordinates sim self indices = Ok coords ->
      log (fst r) = log self ++ [log_message] /\
      ((length items < 2)%nat -> snd r = Some IndexError) /\
      (forall v0 g rest,
          items = v0 :: PFunction g :: rest -> snd r = Some TypeError) /\
      (forall a b rest,
          items = PTuple a :: PTuple b :: rest -> snd r = Some TypeError) /\
      (forall g extra rest e,
          items = PFunction g :: PTuple extra :: rest ->
          g zero zero (map AArray coords ++ extra) = Raise e ->
          snd r = Some e) /\
      (forall g extra rest f1 m1,
          items = PFunction g :: PTuple extra :: rest ->
          g zero zero (map AArray coords ++ extra) = Ok (f1, m1) ->
          let out := scheme_m2f sim (scheme_equilibrium sim m1) f1 in
          (length out = sim_nv sim -> length (feq self) = sim_nv sim ->
           (forall row, In row out -> length row = length indices) ->
           (forall row, In row (feq self) ->
                        length row = length (ilabel self)) ->
           snd r = None) /\
          (snd r = None ->
           forall j, nth_error (ilabel self) j = Some key ->
             exists c, nth_error indices c = Some j /\
                       feq_column (feq (fst r)) j = feq_column out c)).
Proof.
  intros sim self key items Hlen r indices zero.
  destruct (prepare_rhs_label_frame sim self key (VTuple items)) as (Hg & _ & Hfr).
  split; [exact Hg|]. split; [exact Hfr|].
  assert (Hneg : negb (length items =? 2)%nat = true).
  { destruct (Nat.eqb_spec (length items) 2); [contradiction | reflexivity]. }
  split.
  { subst r. unfold prepare_rhs_label. fold indices.
    destruct (wall_coordinates sim self indices) as [coords|e]; [|reflexivity].
    destruct (call_value _ _ _ _) as [logged called].
    destruct (bind called _) as [fq|e]; simpl.
    - intros H. congruence.
    - intros _. destruct logged; reflexivity. }
  intros coords Hc. subst r. unfold prepare_rhs_label. fold indices.
  rewrite Hc. unfold call_value. rewrite Hneg. fold zero.
  split; [|split; [|split; [|split; [|split]]]].
  - match goal with
    | |- context [match ?c with Ok _ => _ | Raise _ => _ end] => destruct c
    end; reflexivity.
  - intros Hshort. destruct items as [|v0 [|v1 rest]]; simpl in Hshort;
      try lia; reflexivity.
  - intros v0 g rest ->. reflexivity.
  - intros a b rest ->. reflexivity.
  - intros g extra rest e -> Hcall. unfold Np.item. simpl nth_error.
    cbn [of_option bind]. rewrite Hcall. reflexivity.
  - intros g extra rest f1 m1 -> Hcall. unfold Np.item. simpl nth_error.
    cbn [of_option bind]. rewrite Hcall. cbn [bind fst snd].
    set (out := scheme_m2f sim (scheme_equilibrium sim m1) f1).
    split.
    + intros Hout Hfq Hrows Hfeq.
      destruct (put_columns_total (feq self) indices (sim_nv sim) out
                  Hout Hfq Hrows) as (fq' & ->); [|reflexivity].
      intros row j Hrow Hj. rewrite (Hfeq row Hrow).
      apply where_eq_In in Hj. apply nth_error_Some. congruence.
    + destruct (put_columns (feq self) indices (sim_nv sim) out)
        as [fq'|e] eqn:Ep; simpl; [|discriminate].
      intros _ j Hj.
      pose proof (where_eq_from_complete _ _ 0%nat _ Hj) as Hin.
      simpl in Hin. fold (where_eq (ilabel self) key) in Hin.
      fold indices in Hin.
      apply In_nth_error in Hin. destruct Hin as (c & Hcj).
      exists c. split; [exact Hcj|].
      apply (put_columns_written _ _ _ _ _ _ _ Ep
               (where_eq_from_NoDup _ _ _) Hcj).
Qed.

(** The three kinds of tuples of the wrong length, on [tuple_point]: three
    items that begin with a function and a tuple (the column of the label
    becomes 1), one item only, three items whose second is a function. *)
Lemma prepare_rhs_wrong_arity_witness :
  let r3 := prepare_rhs_label copy_scheme tuple_point (7%Z, VTuple three_items) in
  let r1 := prepare_rhs_label copy_scheme tuple_point
              (7%Z, VTuple [PFunction set_one]) in
  let rT := prepare_rhs_label copy_scheme tuple_point
              (7%Z, VTuple [PFunction set_one; PFunction set_one; POther]) in
  (log (fst r3) = [log_message] /\ snd r3 = None /\
   feq_column (feq (fst r3)) 0 = [Some 1%R; Some 1%R]) /\
  (log (fst r1) = [log_message] /\ snd r1 = Some IndexError /\
   feq (fst r1) = feq tuple_point) /\
  (log (fst rT) = [log_message] /\ snd rT = Some TypeError /\
   feq (fst rT) = feq tuple_point).
Proof.
  intros r3 r1 rT.
  assert (Hc : wall_coordinates copy_scheme tuple_point
                 (where_eq (ilabel tuple_point) 7)
               = Ok [[(5 + (1 - 1/4) * IZR 0 * 1)%R];
                     [(5 + (1 - 1/4) * IZR 0 * 1)%R];
                     [(5 + (1 - 1/4) * IZR 1 * 1)%R]]) by reflexivity.
  split; [|split].
  - destruct (prepare_rhs_wrong_arity copy_scheme tuple_point 7%Z three_items)
      as (_ & _ & _ & H); [simpl; lia|].
    destruct (H _ Hc) as (Hlog & _ & _ & _ & _ & Hcall).
    destruct (Hcall set_one [] [POther] [[0]; [0]]%R [[1]; [1]]%R
                eq_refl eq_refl) as (Hnone & Hcol).
    assert (Hn : snd r3 = None).
    { apply Hnone; try reflexivity.
      - intros row [<-|[<-|[]]]; reflexivity.
      - intros row [<-|[<-|[]]]; reflexivity. }
    split; [exact Hlog|]. split; [exact Hn|].
    destruct (Hcol Hn 0%nat eq_refl) as (c & Hc0 & Hfeq).
    destruct c as [|c]; [exact Hfeq|].
    simpl in Hc0. destruct c; discriminate.
  - destruct (prepare_rhs_wrong_arity copy_scheme tuple_point 7%Z
                [PFunction set_one]) as (_ & _ & Hkeep & H); [simpl; lia|].
    destruct (H _ Hc) as (Hlog & Hshort & _).
    assert (Hs : snd r1 = Some IndexError) by (apply Hshort; simpl; lia).
    split; [exact Hlog|]. split; [exact Hs|].
    apply Hkeep. fold r1. rewrite Hs. discriminate.
  - destruct (prepare_rhs_wrong_arity copy_scheme tuple_point 7%Z
                [PFunction set_one; PFunction set_one; POther])
      as (_ & _ & Hkeep & H); [simpl; lia|].
    destruct (H _ Hc) as (Hlog & _ & Htype & _).
    assert (Hs : snd rT = Some TypeError)
      by (apply (Htype (PFunction set_one) set_one [POther]); reflexivity).
    split; [exact Hlog|]. split; [exact Hs|].
    apply Hkeep. fold rT. rewrite Hs. discriminate.
Defined.

(** ** The tables of the compiler *)

Lemma method_class_eqb_eq a b : method_class_eqb a b = true <-> a = b.
Proof.
  destruct a, b; simpl; split; intros H; try reflexivity; discriminate.
Qed.

Lemma method_class_eqb_refl a : method_class_eqb a a = true.
Proof. apply method_class_eqb_eq. reflexivity. Qed.

Lemma method_class_eqb_neq a b : method_class_eqb a b = false <-> a <> b.
Proof.
  split.
  - intros H E. apply method_class_eqb_eq in E. congruence.
  - intros H. destruct (method_class_eqb a b) eqn:E; [|reflexivity].
    apply method_class_eqb_eq in E. contradiction.
Qed.

Lemma cdict_get_set {V} (d : list (method_class * V)) k x k' :
  cdict_get (cdict_set d k x) k'
  = if method_class_eqb k k' then Some x else cdict_get d k'.
Proof.
  induction d as [|[k0 y] d IH]; simpl; [reflexivity|].
  destruct (method_class_eqb k0 k) eqn:E0; simpl.
  - apply method_class_eqb_eq in E0. subst k0.
    destruct (method_class_eqb k k'); reflexivity.
  - rewrite IH. destruct (method_class_eqb k0 k') eqn:E1; [|reflexivity].
    apply method_class_eqb_eq in E1. subst k0.
    apply method_class_eqb_neq in E0.
    assert (E : method_class_eqb k k' = false)
      by (apply method_class_eqb_neq; congruence).
    rewrite E. reflexivity.
Qed.

Lemma cdict_keys_set {V} (d : list (method_class * V)) k x :
  map fst (cdict_set d k x)
  = if existsb (fun c' => method_class_eqb c' k) (map fst d) then map fst d
    else map fst d ++ [k].
Proof.
  induction d as [|[k0 y] d IH]; simpl; [reflexivity|].
  destruct (method_class_eqb k0 k) eqn:E0; simpl.
  - apply method_class_eqb_eq in E0. subst k0. reflexivity.
  - rewrite IH. destruct (existsb _ (map fst d)); reflexivity.
Qed.

Lemma cdict_get_None {V} (d : list (method_class * V)) k :
  cdict_get d k = None <->
  existsb (fun c' => method_class_eqb c' k) (map fst d) = false.
Proof.
  induction d as [|[k0 y] d IH]; simpl; [tauto|].
  destruct (method_class_eqb k0 k); simpl; [split; discriminate | exact IH].
Qed.

Lemma hconcat_happ a b c : Np.hconcat a b = Ok c -> c = happ a b.
Proof.
  unfold Np.hconcat, happ. revert b c.
  induction a as [|r a IH]; intros [|r' b] c H; simpl in H; try discriminate.
  - injection H as <-. reflexivity.
  - bind_inv H rest Hrest. injection H as <-. simpl. f_equal. auto.
Qed.

Lemma hcat_snoc ts x :
  hcat (ts ++ [x]) = Some (match hcat ts with None => x | Some T => happ T x end).
Proof.
  destruct ts as [|t ts]; simpl; [reflexivity|].
  rewrite fold_left_app. reflexivity.
Qed.

Lemma group_snoc {A} (ls : list (list A)) x :
  group (ls ++ [x]) = Some (match group ls with None => x | Some l => l ++ x end).
Proof.
  destruct ls as [|l ls]; simpl.
  - rewrite app_nil_r. reflexivity.
  - rewrite concat_app. simpl. rewrite app_nil_r, app_assoc. reflexivity.
Qed.

Lemma blocks_of_snoc v bs v' b :
  blocks_of v (bs ++ [(v', b)])
  = blocks_of v bs ++ (if method_class_eqb v' v then [b] else []).
Proof.
  unfold blocks_of. rewrite filter_app, map_app. simpl.
  destruct (method_class_eqb v' v); reflexivity.
Qed.

Lemma first_seen_snoc l c :
  first_seen (l ++ [c])
  = if existsb (fun c' => method_class_eqb c' c) (first_seen l) then first_seen l
    else first_seen l ++ [c].
Proof. unfold first_seen. rewrite fold_left_app. reflexivity. Qed.

Lemma tables_spec_empty : tables_spec empty_tables [].
Proof. split; [reflexivity|]. intros v. repeat split. Qed.

(** Storing one block keeps the tables in line with the traversal. *)
Lemma store_block_spec v t b t' bs :
  tables_spec t bs -> store_block v t b = Ok t' ->
  tables_spec t' (bs ++ [(v, b)]).
Proof.
  intros [Hkeys Hget] H. unfold store_block in H.
  destruct (Hget v) as (Hi & Hl & Hd).
  assert (Hk : map fst (t_istore t') = first_seen (map fst (bs ++ [(v, b)]))).
  { rewrite map_app. simpl. rewrite first_seen_snoc, <- Hkeys.
    destruct (cdict_get (t_istore t) v) as [old|] eqn:E.
    - bind_inv H new Hnew. bind_inv H il Hil. bind_inv H di Hdi.
      injection H as <-. simpl. rewrite cdict_keys_set.
      destruct (existsb _ (map fst (t_istore t))) eqn:Ex; [reflexivity|].
      apply cdict_get_None in Ex. congruence.
    - injection H as <-. simpl. rewrite cdict_keys_set.
      apply cdict_get_None in E. rewrite E. reflexivity. }
  split; [exact Hk|]. intros v'.
  destruct (Hget v') as (Hi' & Hl' & Hd').
  rewrite blocks_of_snoc.
  destruct (cdict_get (t_istore t) v) as [old|] eqn:E.
  - bind_inv H new Hnew. bind_inv H il Hil. bind_inv H di Hdi.
    injection H as <-. simpl. rewrite !cdict_get_set.
    apply hconcat_happ in Hnew. apply of_option_Ok in Hil, Hdi.
    destruct (method_class_eqb v v') eqn:Ev.
    + apply method_class_eqb_eq in Ev. subst v'.
      rewrite !map_app. cbn [map]. rewrite hcat_snoc, !group_snoc.
      rewrite <- Hi, <- Hl, <- Hd, Hil, Hdi, Hnew. repeat split.
    + rewrite !app_nil_r. repeat split; assumption.
  - injection H as <-. simpl. rewrite !cdict_get_set.
    destruct (method_class_eqb v v') eqn:Ev.
    + apply method_class_eqb_eq in Ev. subst v'.
      assert (Hnil : blocks_of v bs = []).
      { destruct (blocks_of v bs); [reflexivity | discriminate]. }
      rewrite Hnil. simpl. rewrite !app_nil_r. repeat split.
    + rewrite !app_nil_r. repeat split; assumption.
Qed.

(** A loop whose passes each absorb the blocks they compute absorbs the
    blocks of its passes in order. *)
Lemma for_each_collect {X} (body : tables -> X -> result tables)
    (collect : X -> result (list (method_class * block))) :
  (forall t x t' bs, tables_spec t bs -> body t x = Ok t' ->
     exists bx, collect x = Ok bx /\ tables_spec t' (bs ++ bx)) ->
  forall l t t' bs, tables_spec t bs -> for_each body l t = Ok t' ->
    exists bss, mapM collect l = Ok bss /\ tables_spec t' (bs ++ concat bss).
Proof.
  intros Hbody. induction l as [|x l IH]; intros t t' bs Hs H; simpl in H.
  - injection H as <-. exists []. simpl. rewrite app_nil_r. auto.
  - bind_inv H t1 Ht1.
    destruct (Hbody _ _ _ _ Hs Ht1) as (bx & Hbx & Hs1).
    destruct (IH _ _ _ Hs1 H) as (bss & Hbss & Hs').
    exists (bx :: bss). simpl. rewrite Hbx, Hbss. simpl.
    split; [reflexivity|]. rewrite app_assoc. exact Hs'.
Qed.

Lemma add_velocity_collect st bv label k v t e t' bs :
  tables_spec t bs -> add_velocity st bv label k v t e = Ok t' ->
  exists bx,
    (ob <- velocity_block st bv label k (fst e) (snd e) ;;
     Ok (match ob with Some b => [(v, b)] | None => [] end)) = Ok bx /\
    tables_spec t' (bs ++ bx).
Proof.
  unfold add_velocity. intros Hs H. bind_inv H ob Hob. rewrite Hob. simpl.
  destruct ob as [b|].
  - eexists. split; [reflexivity|]. eapply store_block_spec; eauto.
  - injection H as <-. eexists. split; [reflexivity|].
    rewrite app_nil_r. exact Hs.
Qed.

Lemma add_family_collect st bv label t kv t' bs :
  tables_spec t bs -> add_family st bv label t kv = Ok t' ->
  exists bx, family_blocks st bv label kv = Ok bx /\ tables_spec t' (bs ++ bx).
Proof.
  unfold add_family, family_blocks. destruct kv as [k v]. simpl.
  intros Hs H. bind_inv H nums Hnums. rewrite Hnums. simpl.
  destruct (for_each_collect (add_velocity st bv label k v) _
              (fun t x t' bs => add_velocity_collect st bv label k v t x t' bs)
              _ _ _ _ Hs H) as (bss & Hbss & Hs').
  rewrite Hbss. simpl. eauto.
Qed.

Lemma add_label_collect st bv dico_bound t label t' bs :
  tables_spec t bs -> add_label st bv dico_bound t label = Ok t' ->
  exists bx, label_blocks st bv dico_bound label = Ok bx /\
             tables_spec t' (bs ++ bx).
Proof.
  unfold add_label, label_blocks. intros Hs H.
  destruct (label =? -1)%Z; simpl.
  { injection H as <-. exists []. rewrite app_nil_r. auto. }
  destruct (label =? -2)%Z; simpl.
  { injection H as <-. exists []. rewrite app_nil_r. auto. }
  bind_inv H e He. bind_inv H ms Hms. rewrite He. simpl. rewrite Hms. simpl.
  match type of H with
  | for_each _ _ ?t1 = _ =>
      assert (Hs1 : tables_spec t1 bs) by exact Hs
  end.
  destruct (for_each_collect (add_family st bv label) _
              (fun t x t' bs => add_family_collect st bv label t x t' bs)
              _ _ _ bs Hs1 H) as (bss & Hbss & Hs').
  rewrite Hbss. simpl. eauto.
Qed.

Lemma instantiate_fields st t k m :
  instantiate st t k = Ok m ->
  class_ m = k /\
  cdict_get (t_istore t) k = Some (istore m) /\
  cdict_get (t_ilabel t) k = Some (ilabel m) /\
  cdict_get (t_distance t) k = Some (distance m).
Proof.
  unfold instantiate. intros H.
  bind_inv H is_ His. bind_inv H il Hil. bind_inv H di Hdi.
  apply of_option_Ok in His, Hil, Hdi.
  destruct (Boundary_method_init_fields _ _ _ _ _ _ _ H)
    as (-> & -> & -> & -> & _).
  auto.
Qed.

Lemma mapM_class st t : forall ks ms,
  mapM (instantiate st t) ks = Ok ms -> map class_ ms = ks.
Proof.
  induction ks as [|k ks IH]; intros ms H; simpl in H.
  - injection H as <-. reflexivity.
  - bind_inv H m Hm. bind_inv H rest Hrest. injection H as <-.
    simpl. f_equal; [apply (instantiate_fields _ _ _ _ Hm) | auto].
Qed.

Lemma group_Some {A} (ls : list (list A)) l : group ls = Some l -> l = concat ls.
Proof. destruct ls; simpl; congruence. Qed.

(** What a successful construction holds, in terms of the traversal. *)
Lemma Boundary_init_spec domain dico b :
  Boundary_init domain dico = Ok b ->
  exists blocks,
    traversal domain dico = Ok blocks /\
    map class_ (methods b) = first_seen (map fst blocks) /\
    forall m, In m (methods b) ->
      Some (istore m) = hcat (map istore_tmp (blocks_of (class_ m) blocks)) /\
      ilabel m = concat (map ilabel_tmp (blocks_of (class_ m) blocks)) /\
      distance m = concat (map distance_tmp (blocks_of (class_ m) blocks)).
Proof.
  unfold Boundary_init, traversal. intros H.
  bind_inv H bv_ Hbv. bind_inv H t Ht. bind_inv H ms Hms. injection H as <-.
  rewrite Hbv. simpl.
  destruct (for_each_collect _ _
              (fun t x t' bs => add_label_collect (domain_stencil domain) bv_
                                  match dico with Some d => d | None => [] end
                                  t x t' bs)
              _ _ _ [] tables_spec_empty Ht) as (bss & Hbss & Hkeys & Hget).
  rewrite Hbss. simpl. exists (concat bss). split; [reflexivity|].
  split.
  - rewrite (mapM_class _ _ _ _ Hms). exact Hkeys.
  - intros m Hm.
    destruct (mapM_In _ _ _ _ Hms Hm) as (k & _ & Hk).
    destruct (instantiate_fields _ _ _ _ Hk) as (Hc & Hi & Hl & Hd).
    destruct (Hget k) as (Hi' & Hl' & Hd'). rewrite Hc.
    rewrite Hi in Hi'. rewrite Hl in Hl'. rewrite Hd in Hd'.
    split; [exact Hi'|]. split; apply group_Some; symmetry; assumption.
Qed.

(** C6: two constructions on the same domain and configuration give the
    same instances, with the same [istore], [ilabel] and [distance] tables;
    the classes come in the order the traversal label / velocity family /
    velocity meets them first, and the tables of a class are the blocks of
    that class side by side, in the order of the traversal. *)
Theorem Boundary_init_deterministic :
  forall domain dico b1 b2,
    Boundary_init domain dico = Ok b1 ->
    Boundary_init domain dico = Ok b2 ->
    map class_ (methods b1) = map class_ (methods b2) /\
    map istore (methods b1) = map istore (methods b2) /\
    map ilabel (methods b1) = map ilabel (methods b2) /\
    map distance (methods b1) = map distance (methods b2) /\
    exists blocks,
      traversal domain dico = Ok blocks /\
      map class_ (methods b1) = first_seen (map fst blocks) /\
      forall m, In m (methods b1) \/ In m (methods b2) ->
        Some (istore m) = hcat (map istore_tmp (blocks_of (class_ m) blocks)) /\
        ilabel m = concat (map ilabel_tmp (blocks_of (class_ m) blocks)) /\
        distance m = concat (map distance_tmp (blocks_of (class_ m) blocks)).
Proof.
  intros domain dico b1 b2 H1 H2.
  assert (E : b1 = b2) by congruence. subst b2.
  repeat (split; [reflexivity|]).
  destruct (Boundary_init_spec _ _ _ H1) as (blocks & Ht & Hc & Hm).
  exists blocks. split; [exact Ht|]. split; [exact Hc|].
  intros m [Hin|Hin]; apply Hm; exact Hin.
Qed.

(** ** Labels the configuration does not cover, reserved labels *)

Lemma for_each_inv {St X} (P : St -> Prop) (E : pyerr -> Prop)
    (body : St -> X -> result St) :
  (forall s x, P s -> match body s x with Ok s' => P s' | Raise e => E e end) ->
  forall l s, P s ->
    match for_each body l s with Ok s' => P s' | Raise e => E e end.
Proof.
  intros Hbody. induction l as [|x l IH]; intros s Hs; simpl; [exact Hs|].
  specialize (Hbody s x Hs).
  destruct (body s x) as [s1|e]; simpl; [apply IH; exact Hbody | exact Hbody].
Qed.

Lemma for_each_raises {St X} (body : St -> X -> result St) x0 :
  (forall s, exists e, body s x0 = Raise e) ->
  forall l s, In x0 l -> exists e, for_each body l s = Raise e.
Proof.
  intros Hx0. induction l as [|x l IH]; intros s Hin; simpl; [destruct Hin|].
  destruct (body s x) as [s1|e] eqn:E; simpl; [|eauto].
  destruct Hin as [->|Hin]; [|auto].
  destruct (Hx0 s) as [e He]. congruence.
Qed.

Lemma dict_get_set {V} (d : list (Z * V)) k x k' :
  dict_get (dict_set d k x) k' = if (k =? k')%Z then Some x else dict_get d k'.
Proof.
  induction d as [|[k0 y] d IH]; simpl; [reflexivity|].
  destruct (Z.eqb_spec k0 k) as [->|Hne]; simpl.
  - destruct (k =? k')%Z; reflexivity.
  - rewrite IH. destruct (Z.eqb_spec k0 k') as [->|Hne']; [|reflexivity].
    destruct (Z.eqb_spec k k'); [congruence | reflexivity].
Qed.

Lemma Boundary_Velocity_init_rows domain label ksym b :
  Boundary_Velocity_init domain label ksym = Ok b ->
  length (bv_indices b) = length (grid domain).
Proof.
  unfold Boundary_Velocity_init. intros H.
  bind_inv H self_v Hv. bind_inv H num_ Hnum. bind_inv H indices Hind.
  injection H as <-. simpl.
  match type of Hind with
  | (if ?c then _ else _) = _ => destruct c
  end.
  - injection Hind as <-. rewrite length_map, length_seq. reflexivity.
  - destruct (zipWithM_length _ _ _ _ Hind) as [<- _].
    rewrite length_map, length_seq. reflexivity.
Qed.

Lemma build_bv_ok domain bv :
  build_bv domain = Ok bv -> bv_ok (length (grid domain)) bv.
Proof.
  unfold build_bv. intros H.
  match type of H with
  | for_each ?body ?l ?s0 = _ =>
      assert (Hinv := for_each_inv (bv_ok (length (grid domain)))
                        (fun _ => True) body)
  end.
  match type of Hinv with
  | ?A -> _ => assert (Hbody : A)
  end.
  { intros s x Hs.
    destruct (mapM _ _) as [l|e] eqn:El; simpl; [|exact I].
    intros label l' b Hget Hin. rewrite dict_get_set in Hget.
    destruct (x =? label)%Z.
    - injection Hget as <-.
      destruct (mapM_In _ _ _ _ El Hin) as (ksym & _ & Hb).
      eapply Boundary_Velocity_init_rows; eauto.
    - eapply Hs; eauto. }
  specialize (Hinv Hbody (list_of_labels domain) []).
  rewrite H in Hinv. apply Hinv.
  intros label l b Hget. discriminate.
Qed.

Lemma item_error {A} (l : list A) i e : Np.item l i = Raise e -> e = IndexError.
Proof. unfold Np.item. destruct (nth_error l i); simpl; congruence. Qed.

Lemma getitem_error {A} (l : list A) i e : Np.getitem l i = Raise e -> e = IndexError.
Proof.
  unfold Np.getitem, Np.norm_index.
  destruct (_ && _); simpl.
  - destruct (nth_error l _); simpl; congruence.
  - destruct (_ && _); simpl; [|congruence].
    destruct (nth_error l _); simpl; congruence.
Qed.

Lemma of_option_error {A} e0 (o : option A) e : of_option e0 o = Raise e -> e = e0.
Proof. destruct o; simpl; congruence. Qed.

Lemma item_In {A} (l : list A) i x : Np.item l i = Ok x -> In x l.
Proof.
  unfold Np.item. intros H. apply of_option_Ok in H.
  eapply nth_error_In; eauto.
Qed.

(** The block of a velocity: what it holds, or the lookup that failed. *)
Lemma velocity_block_outcome rank st bv label k inumk numk :
  bv_ok rank bv ->
  match velocity_block st bv label k inumk numk with
  | Ok (Some b) =>
      length (istore_tmp b) = S rank /\
      ilabel_tmp b = repeat label (length (ilabel_tmp b))
  | Ok None => True
  | Raise e => is_LookupError e = true
  end.
Proof.
  intros Hbv. unfold velocity_block.
  destruct (of_option KeyError (dict_get bv label)) as [l|e] eqn:El; simpl.
  2:{ apply of_option_error in El. subst. reflexivity. }
  destruct (of_option KeyError (unum2index st numk)) as [i|e] eqn:Ei; simpl.
  2:{ apply of_option_error in Ei. subst. reflexivity. }
  destruct (Np.item l i) as [b|e] eqn:Eb; simpl.
  2:{ apply item_error in Eb. subst. reflexivity. }
  destruct (negb _); [|exact I].
  destruct (Np.getitem (nv_ptr st) k) as [ptr|e] eqn:Ep; simpl.
  2:{ apply getitem_error in Ep. subst. reflexivity. }
  split.
  - f_equal. apply of_option_Ok in El. eapply Hbv; eauto. eapply item_In; eauto.
  - rewrite repeat_length. reflexivity.
Qed.

Lemma hconcat_same_rows a b :
  length a = length b -> exists c, Np.hconcat a b = Ok c /\ length c = length a.
Proof.
  intros H. destruct (zipWithM_total (fun r1 r2 => r1 ++ r2) a b H) as [c Hc].
  exists c. split; [exact Hc|].
  destruct (zipWithM_length _ _ _ _ Hc) as [-> _]. reflexivity.
Qed.

Lemma store_block_outcome rank v t b :
  rows_ok rank t -> length (istore_tmp b) = S rank ->
  match store_block v t b with
  | Ok t' => rows_ok rank t'
  | Raise e => is_LookupError e = true
  end.
Proof.
  intros Ht Hb. unfold store_block.
  destruct (cdict_get (t_istore t) v) as [old|] eqn:E.
  - destruct (hconcat_same_rows old (istore_tmp b)) as (new & Hnew & Hlen).
    { rewrite (Ht _ _ E), Hb. reflexivity. }
    rewrite Hnew. simpl.
    destruct (of_option KeyError (cdict_get (t_ilabel t) v)) as [il|e] eqn:Eil;
      simpl.
    2:{ apply of_option_error in Eil. subst. reflexivity. }
    destruct (of_option KeyError (cdict_get (t_distance t) v)) as [di|e] eqn:Edi;
      simpl.
    2:{ apply of_option_error in Edi. subst. reflexivity. }
    intros v' T. simpl. rewrite cdict_get_set.
    destruct (method_class_eqb v v').
    + intros HT. injection HT as <-. rewrite Hlen. eapply Ht; eauto.
    + apply Ht.
  - intros v' T. simpl. rewrite cdict_get_set.
    destruct (method_class_eqb v v').
    + intros HT. injection HT as <-. exact Hb.
    + apply Ht.
Qed.

Lemma add_velocity_outcome rank st bv label k v t e :
  bv_ok rank bv -> rows_ok rank t ->
  match add_velocity st bv label k v t e with
  | Ok t' => rows_ok rank t'
  | Raise err => is_LookupError err = true
  end.
Proof.
  intros Hbv Ht. unfold add_velocity.
  pose proof (velocity_block_outcome rank st bv label k (fst e) (snd e) Hbv) as Hb.
  destruct (velocity_block st bv label k (fst e) (snd e)) as [[b|]|err]; simpl.
  - apply store_block_outcome; [exact Ht | apply Hb].
  - exact Ht.
  - exact Hb.
Qed.

Lemma add_family_outcome rank st bv label t kv :
  bv_ok rank bv -> rows_ok rank t ->
  match add_family st bv label t kv with
  | Ok t' => rows_ok rank t'
  | Raise err => is_LookupError err = true
  end.
Proof.
  intros Hbv Ht. unfold add_family. destruct kv as [k v].
  destruct (Np.getitem (num st) k) as [nums|e] eqn:En; simpl.
  2:{ apply getitem_error in En. subst. reflexivity. }
  apply (for_each_inv (rows_ok rank) (fun err => is_LookupError err = true));
    [|exact Ht].
  intros s x Hs. apply add_velocity_outcome; assumption.
Qed.

(** One pass of the label loop: the tables keep their shape, or a lookup
    failed. *)
Lemma add_label_outcome rank st bv dico_bound t label :
  bv_ok rank bv -> rows_ok rank t ->
  match add_label st bv dico_bound t label with
  | Ok t' => rows_ok rank t'
  | Raise err => is_LookupError err = true
  end.
Proof.
  intros Hbv Ht. unfold add_label.
  destruct (label =? -1)%Z; [exact Ht|].
  destruct (label =? -2)%Z; [exact Ht|].
  destruct (of_option KeyError (dict_get dico_bound label)) as [e|err] eqn:Ee;
    simpl.
  2:{ apply of_option_error in Ee. subst. reflexivity. }
  destruct (of_option KeyError (entry_method e)) as [ms|err] eqn:Em; simpl.
  2:{ apply of_option_error in Em. subst. reflexivity. }
  apply (for_each_inv (rows_ok rank) (fun err => is_LookupError err = true));
    [|exact Ht].
  intros s x Hs. apply add_family_outcome; assumption.
Qed.

Lemma add_label_uncovered st bv dico t label :
  uncovered dico label ->
  add_label st bv (match dico with Some d => d | None => [] end) t label
  = Raise KeyError.
Proof.
  unfold uncovered, reserved, add_label. intros [Hr Hd].
  apply orb_false_iff in Hr. destruct Hr as [-> ->].
  destruct Hd as [-> | (e & -> & He)]; simpl; [reflexivity|].
  rewrite He. reflexivity.
Qed.

Example boundary_x_tables :
  Boundary_init domain_x dico_x = Ok boundary_x /\
  map class_ (methods boundary_x) = [bounce_back] /\
  map istore (methods boundary_x) = [[[1]; [3]]%Z] /\
  map ilabel (methods boundary_x) = [[7]%Z] /\
  map distance (methods boundary_x) = [[1/4]%R].
Proof. repeat split. Qed.

Lemma Boundary_init_deterministic_witness :
  map class_ (methods boundary_x) = map class_ (methods boundary_x) /\
  map istore (methods boundary_x) = map istore (methods boundary_x) /\
  map ilabel (methods boundary_x) = map ilabel (methods boundary_x) /\
  map distance (methods boundary_x) = map distance (methods boundary_x) /\
  exists blocks,
    traversal domain_x dico_x = Ok blocks /\
    map class_ (methods boundary_x) = first_seen (map fst blocks) /\
    forall m, In m (methods boundary_x) \/ In m (methods boundary_x) ->
      Some (istore m) = hcat (map istore_tmp (blocks_of (class_ m) blocks)) /\
      ilabel m = concat (map ilabel_tmp (blocks_of (class_ m) blocks)) /\
      distance m = concat (map distance_tmp (blocks_of (class_ m) blocks)).
Proof.
  apply (Boundary_init_deterministic domain_x dico_x boundary_x boundary_x);
    reflexivity.
Defined.

Lemma add_label_reserved st bv dico_bound t label :
  reserved label = true -> add_label st bv dico_bound t label = Ok t.
Proof.
  unfold reserved, add_label. intros H.
  destruct (label =? -1)%Z; [reflexivity|].
  destruct (label =? -2)%Z; [reflexivity | discriminate].
Qed.

Lemma for_each_skip_reserved st bv dico_bound : forall labels t,
  for_each (add_label st bv dico_bound) labels t
  = for_each (add_label st bv dico_bound)
      (filter (fun l => negb (reserved l)) labels) t.
Proof.
  induction labels as [|l labels IH]; intros t; simpl; [reflexivity|].
  destruct (reserved l) eqn:E; simpl.
  - rewrite (add_label_reserved _ _ _ _ _ E). simpl. apply IH.
  - destruct (add_label st bv dico_bound t l); simpl; [apply IH | reflexivity].
Qed.

Lemma velocity_block_labels st bv label k inumk numk b l :
  velocity_block st bv label k inumk numk = Ok (Some b) ->
  In l (ilabel_tmp b) -> l = label.
Proof.
  unfold velocity_block. intros H Hl.
  bind_inv H bl Hbl. bind_inv H i Hi. bind_inv H rec Hrec.
  destruct (negb _); [|discriminate].
  bind_inv H ptr Hptr. injection H as <-. simpl in Hl.
  apply repeat_spec in Hl. exact Hl.
Qed.

Lemma label_blocks_labels st bv dico_bound label bs v b l :
  label_blocks st bv dico_bound label = Ok bs ->
  In (v, b) bs -> In l (ilabel_tmp b) -> reserved l = false.
Proof.
  unfold label_blocks. fold (reserved label).
  destruct (reserved label) eqn:Er; intros H Hin Hl.
  { injection H as <-. destruct Hin. }
  bind_inv H e He. bind_inv H ms Hms. bind_inv H bss Hbss. injection H as <-.
  apply in_concat in Hin. destruct Hin as (fb & Hfb & Hin).
  destruct (mapM_In _ _ _ _ Hbss Hfb) as (kv & _ & Hkv).
  unfold family_blocks in Hkv.
  bind_inv Hkv nums Hnums. bind_inv Hkv vss Hvss. injection Hkv as <-.
  apply in_concat in Hin. destruct Hin as (vb & Hvb & Hin).
  destruct (mapM_In _ _ _ _ Hvss Hvb) as (en & _ & Hen).
  bind_inv Hen ob Hob. injection Hen as <-.
  destruct ob as [b'|]; [|destruct Hin].
  destruct Hin as [Hin|[]]. injection Hin as _ <-.
  rewrite (velocity_block_labels _ _ _ _ _ _ _ _ Hob Hl). exact Er.
Qed.

Lemma traversal_labels domain dico blocks v b l :
  traversal domain dico = Ok blocks ->
  In (v, b) blocks -> In l (ilabel_tmp b) -> reserved l = false.
Proof.
  unfold traversal. intros H Hin Hl.
  bind_inv H bv_ Hbv. bind_inv H bss Hbss. injection H as <-.
  apply in_concat in Hin. destruct Hin as (bs & Hbs & Hin).
  destruct (mapM_In _ _ _ _ Hbss Hbs) as (label & _ & Hlabel).
  eapply label_blocks_labels; eauto.
Qed.

Lemma rows_ok_empty rank : rows_ok rank empty_tables.
Proof. intros v T H. discriminate. Qed.

Lemma mapM_error {A B} (f : A -> result B) : forall l e,
  mapM f l = Raise e -> exists x, In x l /\ f x = Raise e.
Proof.
  induction l as [|a l IH]; simpl; intros e H; [discriminate|].
  destruct (f a) as [b|e'] eqn:Ea; simpl in H.
  - destruct (mapM f l) as [r|e'] eqn:El; simpl in H; [discriminate|].
    injection H as <-. destruct (IH _ eq_refl) as (x & Hx & Hfx). eauto.
  - injection H as <-. eauto.
Qed.

(** On a consistent domain the locator only fails on a lookup. *)
Lemma Boundary_Velocity_init_error domain label ksym e :
  consistent domain ->
  Boundary_Velocity_init domain label ksym = Raise e -> is_LookupError e = true.
Proof.
  unfold Boundary_Velocity_init. intros Hc H.
  destruct (Np.item _ ksym) as [self_v|e1] eqn:E1; simpl in H.
  2:{ injection H as <-. apply item_error in E1. subst. reflexivity. }
  destruct (of_option KeyError _) as [num_|e2] eqn:E2; simpl in H.
  2:{ injection H as <-. apply of_option_error in E2. subst. reflexivity. }
  match type of H with
  | bind (if ?c then _ else _) _ = _ => destruct c
  end; simpl in H; [discriminate|].
  match type of H with
  | bind (zipWithM ?f ?a ?b) _ = _ =>
      destruct (zipWithM_total (fun row c => map (fun x => (x + c)%Z) row) a b)
        as [r Hr]
  end.
  { rewrite length_map, length_seq. symmetry. apply Hc.
    eapply item_In. exact E1. }
  rewrite Hr in H. discriminate.
Qed.

Lemma build_bv_error domain e :
  consistent domain -> build_bv domain = Raise e -> is_LookupError e = true.
Proof.
  unfold build_bv. intros Hc H.
  match type of H with
  | for_each ?body ?l ?s0 = _ =>
      pose proof (for_each_inv (fun _ => True)
                    (fun e => is_LookupError e = true) body) as Hinv
  end.
  match type of Hinv with
  | ?A -> _ => assert (Hbody : A)
  end.
  { intros s x _.
    destruct (mapM _ _) as [l|e'] eqn:El; simpl; [exact I|].
    destruct (mapM_error _ _ _ El) as (ksym & _ & Hk).
    eapply Boundary_Velocity_init_error; eauto. }
  specialize (Hinv Hbody (list_of_labels domain) [] I).
  rewrite H in Hinv. exact Hinv.
Qed.

(** C10: with a label that is not reserved and that the configuration
    does not cover (no entry, or an entry without ['method']), the
    construction raises: the exception of the locator pass if that pass
    fails, a lookup error otherwise, hence a lookup error on every domain
    whose velocities have as many components as the grid has axes.  The
    passes of the label loop for the
    labels -1 and -2 do nothing: the loop runs as on the other labels alone,
    and no instance has a column labelled -1 or -2. *)
Theorem Boundary_init_uncovered_label :
  forall domain dico,
    (forall label,
        In label (list_of_labels domain) -> uncovered dico label ->
        exists err,
          Boundary_init domain dico = Raise err /\
          (build_bv domain = Raise err \/ is_LookupError err = true) /\
          (consistent domain -> is_LookupError err = true)) /\
    (forall bv_ t label,
        reserved label = true ->
        add_label (domain_stencil domain) bv_
          (match dico with Some d => d | None => [] end) t label = Ok t) /\
    (forall bv_ t,
        for_each (add_label (domain_stencil domain) bv_
                    (match dico with Some d => d | None => [] end))
          (list_of_labels domain) t
        = for_each (add_label (domain_stencil domain) bv_
                      (match dico with Some d => d | None => [] end))
            (filter (fun l => negb (reserved l)) (list_of_labels domain)) t) /\
    (forall b m l,
        Boundary_init domain dico = Ok b ->
        In m (methods b) -> In l (ilabel m) -> reserved l = false).
Proof.
  intros domain dico. split; [|split; [|split]].
  - intros label Hin Hun. unfold Boundary_init.
    destruct (build_bv domain) as [bv_|e] eqn:Hbv; simpl.
    2:{ exists e. repeat split; auto. intros Hc. eapply build_bv_error; eauto. }
    destruct (for_each_raises
                (add_label (domain_stencil domain) bv_
                   (match dico with Some d => d | None => [] end)) label
                (fun t => ex_intro _ KeyError
                            (add_label_uncovered _ bv_ dico t label Hun))
                (list_of_labels domain) empty_tables Hin) as (err & Herr).
    pose proof (for_each_inv (rows_ok (length (grid domain)))
                  (fun err => is_LookupError err = true) _
                  (fun s x Hs => add_label_outcome _ (domain_stencil domain) bv_
                                   (match dico with Some d => d | None => [] end)
                                   s x (build_bv_ok _ _ Hbv) Hs)
                  (list_of_labels domain) empty_tables (rows_ok_empty _)) as Hinv.
    rewrite Herr in Hinv. rewrite Herr. simpl. eauto.
  - intros bv_ t label Hr. apply add_label_reserved. exact Hr.
  - intros bv_ t. apply for_each_skip_reserved.
  - intros b m l Hb Hm Hl.
    destruct (Boundary_init_spec _ _ _ Hb) as (blocks & Ht & _ & Hspec).
    destruct (Hspec m Hm) as (_ & Hil & _). rewrite Hil in Hl.
    apply in_concat in Hl. destruct Hl as (il & Hil' & Hl).
    apply in_map_iff in Hil'. destruct Hil' as (blk & <- & Hblk).
    unfold blocks_of in Hblk. apply in_map_iff in Hblk.
    destruct Hblk as ([v blk'] & Heq & Hf). simpl in Heq. subst blk'.
    apply filter_In in Hf. destruct Hf as [Hf _].
    eapply traversal_labels; eauto.
Qed.

(** The line [domain_x] is consistent: both velocities have one
    component, like their symmetric. *)
Example domain_x_consistent : consistent domain_x.
Proof. intros v [<-|[<-|[]]]; reflexivity. Qed.

Lemma Boundary_init_uncovered_label_witness :
  exists err,
    Boundary_init domain_x None = Raise err /\
    (build_bv domain_x = Raise err \/ is_LookupError err = true) /\
    consistent domain_x /\ is_LookupError err = true.
Proof.
  destruct (proj1 (Boundary_init_uncovered_label domain_x None) 7%Z)
    as (err & Hraise & Hor & Hlookup).
  - simpl. auto.
  - split; [reflexivity|]. left. reflexivity.
  - exists err. split; [exact Hraise|]. split; [exact Hor|].
    split; [exact domain_x_consistent|].
    apply Hlookup. exact domain_x_consistent.
Defined.

Example uncovered_label_raises_KeyError :
  Boundary_init domain_x None = Raise KeyError /\
  Boundary_init domain_x (Some [(7%Z, mkEntry None None)]) = Raise KeyError.
Proof. split; reflexivity. Qed.

(** ** Further checks *)

(** Columns come label by label in the order of the domain (7 before 8,
    whatever the order of the configuration), then velocity by velocity;
    the interface label -2 adds nothing. *)
Example two_labels_column_order :
  fmap (fun b => map istore (methods b))
       (Boundary_init domain_two_labels dico_two_labels)
  = Ok [[[1; 0; 1]; [3; 0; 4]]%Z] /\
  fmap (fun b => map ilabel (methods b))
       (Boundary_init domain_two_labels dico_two_labels)
  = Ok [[7; 8; 8]%Z] /\
  fmap (fun b => map distance (methods b))
       (Boundary_init domain_two_labels dico_two_labels)
  = Ok [[1/4; 3/4; 1/4]%R].
Proof. repeat split. Qed.

(** Index -1 is the last position, position 2 of an axis of length 2 is out
    of range; a mask selects and assigns in order. *)
Example numpy_indexing :
  Np.getitem [10; 20; 30]%Z (-1) = Ok 30%Z /\
  Np.getitem [10; 20]%Z 2 = Raise IndexError /\
  Np.compress [true; false; true] [1; 2; 3]%Z = Ok [1; 3]%Z /\
  Np.mask_assign [0; 0; 0]%Z [true; false; true] [7; 9]%Z = Ok [7; 0; 9]%Z /\
  norm_multi [2; 8]%nat [-1; 3]%Z = Ok [1; 3]%nat.
Proof. repeat split. Qed.

(** With no load table, [update] raises before it reads anything. *)
Example update_before_set_iload f :
  update (one_point bounce_back) f = Raise IndexError /\
  update (one_point Bouzidi_bounce_back) f = Raise IndexError.
Proof. split; reflexivity. Qed.

(** The Neumann rule: the value read at [(k, x + v[k])] is copied. *)
Lemma Neumann_column_rule self self1 self3 f f' ps j p k x :
  class_ self = Neumann -> iload self = [] ->
  set_iload self = Ok self1 ->
  update self1 f = Ok (self3, f') ->
  targets f (istore self) = Ok ps -> NoDup ps -> nth_error ps j = Some p ->
  Np.column (istore self) j = k :: x ->
  exists vk q,
    Np.getitem (get_all_velocities (stencil self)) k = Ok vk /\
    norm_multi (shape f) (k :: shift 1 x vk) = Ok q /\
    data f' p = data f q.
Proof.
  intros Hc Hnil H1 H3 Hps Hnd Hp Hcol.
  destruct (targets_nth _ _ _ _ _ Hps Hp) as [Hj _].
  unfold set_iload in H1. rewrite Hc in H1.
  destruct (Neumann_load_column _ _ _ _ _ H1 Hj Hcol)
    as (L & vk & -> & Hn & Hvk & HL).
  rewrite Hnil in *. simpl in *.
  unfold update in H3. simpl in H3. rewrite Hc in H3.
  destruct (Neumann_update_column _ _ _ _ L _ _ _ H3 eq_refl Hn Hps Hnd Hp)
    as (q & Hq & Hf).
  rewrite HL in Hq. exists vk, q. auto.
Qed.

(** A tuple with fewer than two items: the error is logged, then
    [value[1]] raises and the equilibrium table is left as it was. *)
Lemma prepare_rhs_short_tuple sim self key items coords :
  (length items < 2)%nat ->
  wall_coordinates sim self (where_eq (ilabel self) key) = Ok coords ->
  prepare_rhs_label sim self (key, VTuple items)
  = (with_log self (log self ++ [log_message]), Some IndexError).
Proof.
  intros Hlen Hc. unfold prepare_rhs_label. rewrite Hc.
  destruct items as [|a [|b rest]]; simpl in Hlen; try lia; reflexivity.
Qed.

(** * More of the module *)

(** ** The Bouzidi anti-bounce-back class *)

Lemma Bouzidi_anti_bounce_back_update_column self f self' f' L1 L2 ps j p :
  Bouzidi_anti_bounce_back_update self f = Ok (self', f') ->
  Np.item (iload self) 0 = Ok L1 -> Np.item (iload self) 1 = Ok L2 ->
  Np.ncols L1 = Np.ncols (istore self) ->
  Np.ncols L2 = Np.ncols (istore self) ->
  targets f (istore self) = Ok ps -> NoDup ps -> nth_error ps j = Some p ->
  exists q1 q2 sj r,
    norm_multi (shape f) (Np.column L1 j) = Ok q1 /\
    norm_multi (shape f) (Np.column L2 j) = Ok q2 /\
    nth_error (s self) j = Some sj /\
    nth_error (rhs self) j = Some r /\
    data f' p = (- sj * data f q1 + (sj - 1) * data f q2 + r)%R.
Proof.
  unfold Bouzidi_anti_bounce_back_update. intros H HL1 HL2 Hn1 Hn2 Hps Hnd Hp.
  destruct (targets_nth _ _ _ _ _ Hps Hp) as [Hj _].
  rewrite HL1 in H. simpl in H.
  bind_inv H a Ha. bind_inv H sa Hsa.
  rewrite HL2 in H. simpl in H.
  bind_inv H b Hb. bind_inv H sb Hsb. bind_inv H y Hy. bind_inv H xs Hxs.
  bind_inv H g Hg. injection H as _ <-.
  destruct (load_value _ _ _ j Ha) as (q1 & Hq1 & Haj & _); [lia|].
  destruct (load_value _ _ _ j Hb) as (q2 & Hq2 & Hbj & _); [lia|].
  destruct (vmul_nth _ _ _ _ _ Hsa Haj) as (nsj & Hnsj & Hsaj).
  destruct (vmul_nth _ _ _ _ _ Hsb Hbj) as (tj & Htj & Hsbj).
  rewrite nth_error_map in Hnsj, Htj.
  destruct (nth_error (s self) j) as [sj|] eqn:Hsj; [|discriminate].
  simpl in Hnsj, Htj. injection Hnsj as <-. injection Htj as <-.
  destruct (vadd_nth _ _ _ _ _ Hy Hsaj) as (w & Hw & Hyj).
  rewrite Hsbj in Hw. injection Hw as <-.
  destruct (vadd_nth _ _ _ _ _ Hxs Hyj) as (r & Hr & Hx).
  exists q1, q2, sj, r. repeat split; auto.
  eapply Field_setitem_written; eauto.
Qed.

(** X1: on a Bouzidi anti-bounce-back instance ([set_iload] on a fresh
    instance, then [set_rhs], then [update], the destination columns naming
    distinct entries of the field), the load tables and the weight of a
    column are those of the Bouzidi bounce-back class, and [update] writes
    [- s * f[load1] + (s - 1) * f[load2] + (feq[k] + feq[ksym])]. *)
Theorem Bouzidi_anti_bounce_back_rule :
  forall self self1 selfp self2 self3 f f' ps j p k x d,
    class_ self = Bouzidi_anti_bounce_back -> iload self = [] ->
    set_iload self = Ok self1 -> same_geometry selfp self1 ->
    set_rhs selfp = Ok self2 ->
    update self2 f = Ok (self3, f') ->
    targets f (istore self) = Ok ps -> NoDup ps -> nth_error ps j = Some p ->
    Np.column (istore self) j = k :: x ->
    nth_error (distance self) j = Some d ->
    exists L1 L2 ksym vk q1 q2 a b,
      iload self1 = [L1; L2] /\
      Np.getitem (get_symmetric (stencil self)) k = Ok ksym /\
      Np.getitem (get_all_velocities (stencil self)) k = Ok vk /\
      Np.column L1 j = ksym :: shift 1 x vk /\
      Np.column L2 j = (if Rltb d (1/2) then ksym :: shift 2 x vk
                        else k :: shift 1 x vk) /\
      nth_error (s self1) j = Some (Bouzidi_s d) /\
      norm_multi (shape f) (k :: x) = Ok p /\
      norm_multi (shape f) (Np.column L1 j) = Ok q1 /\
      norm_multi (shape f) (Np.column L2 j) = Ok q2 /\
      entry (feq selfp) k j = Ok a /\ entry (feq selfp) ksym j = Ok b /\
      data f' p = (- Bouzidi_s d * data f q1 + (Bouzidi_s d - 1) * data f q2
                   + (a + b))%R.
Proof.
  intros self self1 selfp self2 self3 f f' ps j p k x d
    Hc Hnil H1 Hg H2 H3 Hps Hnd Hp Hcol Hd.
  destruct (targets_nth _ _ _ _ _ Hps Hp) as [Hj Hnorm].
  unfold set_iload in H1. rewrite Hc in H1.
  destruct (Bouzidi_load_column _ _ _ _ _ _ H1 Hj Hcol Hd)
    as (L1 & L2 & ksym & vk & Hself1 & Hn1 & Hn2 & Hsym & Hvk & HL1 & HL2 & Hs).
  rewrite Hnil in Hself1. simpl in Hself1.
  destruct Hg as (Gc & Gi & _ & _ & _ & Gs & Gl & _ & Gss).
  rewrite Hself1 in Gc, Gi, Gs, Gl. simpl in Gc, Gi, Gs, Gl.
  destruct (istore_column _ _ _ _ Hj Hcol) as (k0 & Hk0 & Hkj & _ & _).
  unfold set_rhs in H2. rewrite Gc, Hc in H2.
  rewrite <- Gi in Hk0. rewrite <- Gs in Hsym.
  destruct (anti_bounce_back_set_rhs_column _ _ _ _ _ _ H2 Hk0 Hkj Hsym)
    as (a & b & Ha & Hb & Hr & Hself2).
  unfold update in H3. rewrite Hself2 in H3. simpl in H3. rewrite Gc, Hc in H3.
  rewrite <- Gi in Hps, Hn1, Hn2.
  destruct (Bouzidi_anti_bounce_back_update_column _ _ _ _ L1 L2 _ _ _ H3
              (f_equal (fun l => Np.item l 0) Gl)
              (f_equal (fun l => Np.item l 1) Gl) Hn1 Hn2 Hps Hnd Hp)
    as (q1 & q2 & sj & r & Hq1 & Hq2 & Hsj & Hr' & Hf).
  simpl in Hr', Hsj. rewrite Hr in Hr'. injection Hr' as <-.
  rewrite Gss, Hs in Hsj. injection Hsj as <-.
  rewrite Hcol in Hnorm. rewrite Gs in Hsym.
  exists L1, L2, ksym, vk, q1, q2, a, b.
  split; [rewrite Hself1; reflexivity|].
  repeat split; auto.
Qed.

Example Bouzidi_anti_point_set_iload :
  set_iload (one_point Bouzidi_anti_bounce_back) = Ok Bouzidi_anti_loaded.
Proof.
  unfold set_iload, Bouzidi_bounce_back_set_iload. simpl.
  rewrite Rltb_quarter_half. reflexivity.
Qed.

Lemma Bouzidi_anti_bounce_back_rule_witness :
  exists L1 L2 ksym vk q1 q2 a b,
    iload Bouzidi_anti_loaded = [L1; L2] /\
    Np.getitem (get_symmetric stencil_z) 0 = Ok ksym /\
    Np.getitem (get_all_velocities stencil_z) 0 = Ok vk /\
    Np.column L1 0 = ksym :: shift 1 [5; 5; 5]%Z vk /\
    Np.column L2 0 = (if Rltb (1/4) (1/2) then ksym :: shift 2 [5; 5; 5]%Z vk
                      else 0%Z :: shift 1 [5; 5; 5]%Z vk) /\
    nth_error (s Bouzidi_anti_loaded) 0 = Some (Bouzidi_s (1/4)) /\
    norm_multi (shape field0) [0; 5; 5; 5]%Z = Ok [0; 5; 5; 5]%nat /\
    norm_multi (shape field0) (Np.column L1 0) = Ok q1 /\
    norm_multi (shape field0) (Np.column L2 0) = Ok q2 /\
    entry (feq Bouzidi_anti_loaded) 0 0 = Ok a /\
    entry (feq Bouzidi_anti_loaded) ksym 0 = Ok b /\
    data field5 [0; 5; 5; 5]%nat
    = (- Bouzidi_s (1/4) * data field0 q1
       + (Bouzidi_s (1/4) - 1) * data field0 q2 + (a + b))%R.
Proof.
  apply (Bouzidi_anti_bounce_back_rule (one_point Bouzidi_anti_bounce_back)
           Bouzidi_anti_loaded Bouzidi_anti_loaded Bouzidi_anti_ready
           Bouzidi_anti_ready field0 field5 [[0; 5; 5; 5]%nat] 0
           [0; 5; 5; 5]%nat 0%Z [5; 5; 5]%Z (1/4)%R).
  - reflexivity.
  - reflexivity.
  - exact Bouzidi_anti_point_set_iload.
  - apply same_geometry_refl.
  - reflexivity.
  - reflexivity.
  - reflexivity.
  - repeat constructor. simpl. tauto.
  - reflexivity.
  - reflexivity.
  - reflexivity.
Defined.

(** ** The Neumann classes *)

(** X2: on a Neumann instance ([set_iload] on a fresh instance, then
    whatever [prepare_rhs] leaves in the equilibrium table, then [set_rhs]
    and [update]), [set_rhs] changes nothing and [update] copies, into every
    column of velocity index [k] and spatial index [x], the value read at
    [(k, x + v[k])]: no equilibrium or forcing term enters. *)
Theorem Neumann_copies_neighbour :
  forall self self1 selfp self2 self3 f f' ps j p k x,
    class_ self = Neumann -> iload self = [] ->
    set_iload self = Ok self1 -> same_geometry selfp self1 ->
    set_rhs selfp = Ok self2 ->
    update self2 f = Ok (self3, f') ->
    targets f (istore self) = Ok ps -> NoDup ps -> nth_error ps j = Some p ->
    Np.column (istore self) j = k :: x ->
    self2 = selfp /\
    exists vk q,
      Np.getitem (get_all_velocities (stencil self)) k = Ok vk /\
      norm_multi (shape f) (k :: x) = Ok p /\
      norm_multi (shape f) (k :: shift 1 x vk) = Ok q /\
      data f' p = data f q.
Proof.
  intros self self1 selfp self2 self3 f f' ps j p k x
    Hc Hnil H1 Hg H2 H3 Hps Hnd Hp Hcol.
  destruct (targets_nth _ _ _ _ _ Hps Hp) as [Hj Hnorm].
  unfold set_iload in H1. rewrite Hc in H1.
  destruct (Neumann_load_column _ _ _ _ _ H1 Hj Hcol)
    as (L & vk & -> & Hn & Hvk & HL).
  rewrite Hnil in *.
  destruct Hg as (Gc & Gi & _ & _ & _ & Gs & Gl & _). simpl in Gc, Gi, Gs, Gl.
  unfold set_rhs in H2. rewrite Gc, Hc in H2. injection H2 as <-.
  split; [reflexivity|].
  unfold update in H3. rewrite Gc, Hc in H3.
  rewrite <- Gi in Hps, Hn.
  destruct (Neumann_update_column _ _ _ _ L _ _ _ H3
              (f_equal (fun l => Np.item l 0) Gl) Hn Hps Hnd Hp)
    as (q & Hq & Hf).
  rewrite HL in Hq. rewrite Hcol in Hnorm.
  exists vk, q. auto.
Qed.

Lemma Neumann_copies_neighbour_witness :
  with_iload (one_point Neumann) [[[0]; [5]; [5]; [6]]%Z]
  = with_iload (one_point Neumann) [[[0]; [5]; [5]; [6]]%Z] /\
  exists vk q,
    Np.getitem (get_all_velocities stencil_z) 0 = Ok vk /\
    norm_multi (shape field0) [0; 5; 5; 5]%Z = Ok [0; 5; 5; 5]%nat /\
    norm_multi (shape field0) (0%Z :: shift 1 [5; 5; 5]%Z vk) = Ok q /\
    data (mkField [2; 8; 8; 8]%nat
            (scatter (fun _ => 3%R) [[0; 5; 5; 5]%nat] [3%R])) [0; 5; 5; 5]%nat
    = data field0 q.
Proof.
  apply (Neumann_copies_neighbour (one_point Neumann)
           (with_iload (one_point Neumann) [[[0]; [5]; [5]; [6]]%Z])
           (with_iload (one_point Neumann) [[[0]; [5]; [5]; [6]]%Z])
           (with_iload (one_point Neumann) [[[0]; [5]; [5]; [6]]%Z])
           (with_iload (one_point Neumann) [[[0]; [5]; [5]; [6]]%Z])
           field0 _ [[0; 5; 5; 5]%nat] 0 [0; 5; 5; 5]%nat 0%Z [5; 5; 5]%Z).
  - reflexivity.
  - reflexivity.
  - reflexivity.
  - apply same_geometry_refl.
  - reflexivity.
  - reflexivity.
  - reflexivity.
  - repeat constructor. simpl. tauto.
  - reflexivity.
  - reflexivity.
Defined.

Lemma map_set_row {A B} (g : A -> B) : forall (t : list A) r x,
  map g (Np.set_row t r x) = Np.set_row (map g t) r (g x).
Proof.
  induction t as [|y t IH]; intros [|r] x; simpl; try reflexivity.
  f_equal. apply IH.
Qed.

Lemma nth_component a : forall (vkl : Np.table) j,
  nth j (map (fun r => nth a r 0%Z) vkl) 0%Z = nth a (nth j vkl []) 0%Z.
Proof.
  induction vkl as [|r vkl IH]; intros [|j]; simpl; auto; destruct a; reflexivity.
Qed.

Lemma item_transpose d (vkl : Np.table) c inc :
  Np.item (Np.transpose d vkl) c = Ok inc ->
  (c < d)%nat /\ inc = map (fun r => nth c r 0%Z) vkl.
Proof.
  unfold Np.item, Np.transpose. intros H. apply of_option_Ok in H.
  rewrite nth_error_map, nth_error_seq in H.
  destruct (Nat.ltb_spec c d); simpl in H; [|discriminate].
  injection H as <-. auto.
Qed.

(** [indices[r] += v[k].T[c]], column by column. *)
Lemma iadd_row_column indices r d vkl c ind j :
  iadd_row indices r (Np.transpose d vkl) c = Ok ind ->
  Np.column ind j
  = Np.set_row (Np.column indices j) r
      (nth r (Np.column indices j) 0 + nth c (nth j vkl []) 0)%Z.
Proof.
  unfold iadd_row. intros H.
  bind_inv H old Hold. bind_inv H inc Hinc. bind_inv H new Hnew.
  injection H as <-.
  destruct (item_transpose _ _ _ _ Hinc) as [_ ->].
  unfold Np.column. rewrite map_set_row. f_equal.
  rewrite (add1_nth _ _ _ j Hnew), nth_component. f_equal.
  unfold Np.item in Hold. apply of_option_Ok in Hold.
  rewrite (nth_error_nth _ _ 0%Z (map_nth_error (fun r0 => nth j r0 0%Z) _ _ Hold)).
  reflexivity.
Qed.

(** X3: [Neumann_x] and [Neumann_y] keep the velocity index of the
    destination and move its spatial index along their own axis only, by the
    component of the velocity on that axis. *)
Theorem Neumann_axis_load_column :
  forall self self1 axis j k x,
    (class_ self = Neumann_x /\ axis = 0%nat) \/
    (class_ self = Neumann_y /\ axis = 1%nat) ->
    set_iload self = Ok self1 ->
    (j < Np.ncols (istore self))%nat ->
    Np.column (istore self) j = k :: x ->
    exists L vk,
      iload self1 = iload self ++ [L] /\
      Np.ncols L = Np.ncols (istore self) /\
      Np.getitem (get_all_velocities (stencil self)) k = Ok vk /\
      (axis < length x)%nat /\ (axis < dim (stencil self))%nat /\
      Np.column L j = k :: Np.set_row x axis (nth axis x 0 + nth axis vk 0)%Z.
Proof.
  intros self self1 axis j k x Hclass H Hj Hcol.
  destruct (istore_column _ _ _ _ Hj Hcol) as (k0 & Hk0 & Hkj & Hx & Hlen).
  assert (Hrun : exists vkl ind,
             Np.take (get_all_velocities (stencil self)) k0 = Ok vkl /\
             iadd_row (tl (istore self)) axis
               (Np.transpose (dim (stencil self)) vkl) axis = Ok ind /\
             self1 = with_iload self (iload self ++ [k0 :: ind])).
  { unfold set_iload in H.
    destruct Hclass as [[Hc ->] | [Hc ->]]; rewrite Hc in H;
      unfold Neumann_x_set_iload, Neumann_y_set_iload in H;
      rewrite Hk0 in H; simpl in H;
      bind_inv H vkl Hvkl; bind_inv H ind Hind; injection H as <-; eauto. }
  destruct Hrun as (vkl & ind & Hvkl & Hind & ->).
  destruct (take_nth _ _ _ _ _ (@nil Z) Hvkl Hkj) as (vk & Hv & _ & Hv').
  exists (k0 :: ind), vk. simpl.
  split; [reflexivity|]. split; [exact Hlen|]. split; [exact Hv|].
  pose proof (iadd_row_column _ _ _ _ _ _ j Hind) as Hc.
  rewrite Hx, Hv' in Hc.
  unfold iadd_row in Hind.
  bind_inv Hind old Hold. bind_inv Hind inc Hinc.
  destruct (item_transpose _ _ _ _ Hinc) as [Hd _].
  unfold Np.item in Hold. apply of_option_Ok in Hold.
  assert (Hax : (axis < length x)%nat).
  { rewrite <- Hx. unfold Np.column. rewrite length_map.
    apply nth_error_Some. congruence. }
  repeat split; auto.
  unfold Np.column at 1. simpl. f_equal.
  - apply nth_error_nth. exact Hkj.
  - exact Hc.
Qed.

Lemma Neumann_axis_load_column_witness :
  exists L vk,
    iload (with_iload (one_point Neumann_y) [[[0]; [5]; [5]; [5]]%Z])
    = iload (one_point Neumann_y) ++ [L] /\
    Np.ncols L = Np.ncols (istore (one_point Neumann_y)) /\
    Np.getitem (get_all_velocities (stencil (one_point Neumann_y))) 0 = Ok vk /\
    (1 < length [5; 5; 5]%Z)%nat /\
    (1 < dim (stencil (one_point Neumann_y)))%nat /\
    Np.column L 0
    = 0%Z :: Np.set_row [5; 5; 5]%Z 1 (nth 1 [5; 5; 5]%Z 0 + nth 1 vk 0)%Z.
Proof.
  apply (Neumann_axis_load_column (one_point Neumann_y)
           (with_iload (one_point Neumann_y) [[[0]; [5]; [5]; [5]]%Z])
           1%nat 0%nat 0%Z [5; 5; 5]%Z).
  - right. split; reflexivity.
  - reflexivity.
  - simpl. lia.
  - reflexivity.
Defined.

Lemma take_error {A} (a : list A) k e : Np.take a k = Raise e -> e = IndexError.
Proof.
  unfold Np.take. intros H. destruct (mapM_error _ _ _ H) as (x & _ & Hx).
  eapply getitem_error; eauto.
Qed.

Lemma item_transpose_out d (vkl : Np.table) c :
  (d <= c)%nat -> Np.item (Np.transpose d vkl) c = Raise IndexError.
Proof.
  intros H. unfold Np.item, Np.transpose.
  rewrite nth_error_map, nth_error_seq.
  destruct (Nat.ltb_spec c d); [lia | reflexivity].
Qed.

(** X4: an axis-restricted Neumann class on a stencil that lacks its axis
    ([Neumann_y] in one dimension, [Neumann_z] in one or two) never derives
    a load table: [set_iload] raises [IndexError], whatever the instance. *)
Theorem Neumann_axis_needs_dimension :
  forall self,
    (class_ self = Neumann_x /\ dim (stencil self) < 1)%nat \/
    (class_ self = Neumann_y /\ dim (stencil self) < 2)%nat \/
    (class_ self = Neumann_z /\ dim (stencil self) < 3)%nat ->
    set_iload self = Raise IndexError.
Proof.
  intros self Hclass. unfold set_iload.
  assert (Hgen : forall r c, (dim (stencil self) <= c)%nat ->
            (k <- Np.item (istore self) 0 ;;
             vk <- Np.take (get_all_velocities (stencil self)) k ;;
             indices <- iadd_row (tl (istore self)) r
                          (Np.transpose (dim (stencil self)) vk) c ;;
             Ok (with_iload self (iload self ++ [k :: indices])))
            = Raise IndexError).
  { intros r c Hd.
    destruct (Np.item (istore self) 0) as [k|e] eqn:Ek; simpl.
    2:{ apply item_error in Ek. subst. reflexivity. }
    destruct (Np.take _ k) as [vk|e] eqn:Ev; simpl.
    2:{ apply take_error in Ev. subst. reflexivity. }
    unfold iadd_row.
    destruct (Np.item (tl (istore self)) r) as [old|e] eqn:Eo; simpl.
    2:{ apply item_error in Eo. subst. reflexivity. }
    rewrite (item_transpose_out _ _ _ Hd). reflexivity. }
  destruct Hclass as [[-> Hd] | [[-> Hd] | [-> Hd]]];
    [apply (Hgen 0%nat 0%nat) | apply (Hgen 1%nat 1%nat) | apply (Hgen 1%nat 2%nat)];
    lia.
Qed.

Lemma Neumann_axis_needs_dimension_witness :
  set_iload (line_point Neumann_z) = Raise IndexError.
Proof.
  apply (Neumann_axis_needs_dimension (line_point Neumann_z)).
  right. right. split; [reflexivity | simpl; lia].
Defined.

(** ** What [update] reads *)

Lemma mapM_ext_in {A B} (f g : A -> result B) (l : list A) :
  (forall x, In x l -> f x = g x) -> mapM f l = mapM g l.
Proof.
  induction l as [|a l IH]; simpl; intros H; [reflexivity|].
  rewrite (H a) by auto. rewrite IH by auto. reflexivity.
Qed.

Lemma Field_getitem_agree f g L :
  shape f = shape g -> agree_on f g L -> Field_getitem f L = Field_getitem g L.
Proof.
  intros Hs Ha. unfold Field_getitem. apply mapM_ext_in. intros c Hc.
  rewrite <- Hs. destruct (norm_multi (shape f) c) as [q|e] eqn:E; simpl;
    [|reflexivity].
  f_equal. eapply Ha; eauto.
Qed.

Lemma scatter_same_written : forall ps xs d d' p,
  length ps = length xs -> In p ps -> scatter d ps xs p = scatter d' ps xs p.
Proof.
  induction ps as [|p0 ps IH]; intros [|x xs] d d' p Hl Hin; simpl in *;
    try discriminate; [destruct Hin|].
  destruct (in_dec (list_eq_dec Nat.eq_dec) p ps) as [Hps|Hps].
  - apply IH; [lia | exact Hps].
  - rewrite !scatter_frame by exact Hps.
    destruct Hin as [->|Hin]; [|contradiction].
    unfold upd. destruct (list_eq_dec Nat.eq_dec p p); congruence.
Qed.

Lemma Field_setitem_agree f g t xs :
  shape f = shape g ->
  match Field_setitem f t xs, Field_setitem g t xs with
  | Ok f', Ok g' => forall p, addressed f t p -> data f' p = data g' p
  | Raise e1, Raise e2 => e1 = e2
  | _, _ => False
  end.
Proof.
  intros Hs. unfold Field_setitem. rewrite <- Hs.
  destruct (mapM (norm_multi (shape f)) (Np.columns t)) as [ps|e] eqn:E; simpl;
    [|reflexivity].
  destruct (Nat.eqb_spec (length ps) (length xs)) as [Hl|Hl]; [|reflexivity].
  intros p (c & Hc & Hp). simpl.
  apply scatter_same_written; [exact Hl|].
  apply In_nth_error in Hc. destruct Hc as [j Hj].
  destruct (mapM_nth_error _ _ _ _ _ E Hj) as (y & Hy & Hy').
  rewrite Hp in Hy. injection Hy as <-. eapply nth_error_In; eauto.
Qed.

Ltac same_binds Hs :=
  repeat match goal with
    | |- same_outcome _ _ (bind ?c _) (bind ?c _) =>
        destruct c; simpl; [|reflexivity]
    | |- same_outcome ?f ?t (bind (Field_setitem ?f ?t ?xs) _)
                            (bind (Field_setitem ?g ?t ?xs) _) =>
        let H := fresh in
        pose proof (Field_setitem_agree f g t xs Hs) as H;
        destruct (Field_setitem f t xs), (Field_setitem g t xs); simpl;
        exact H
    end.

(** X5: the outcome of [update] on the entries it writes only depends on
    the values of the field at the entries its load tables address (table 0,
    and table 1 for the Bouzidi classes): two fields of the same shape that
    agree there lead to the same exception or to the same written values. *)
Theorem update_reads_only_loads :
  forall self f g,
    shape f = shape g ->
    (forall i L, (i < 2)%nat -> nth_error (iload self) i = Some L ->
                 agree_on f g L) ->
    same_outcome f (istore self) (update self f) (update self g).
Proof.
  intros self f g Hs Hag.
  assert (H0 : forall L, Np.item (iload self) 0 = Ok L ->
                         Field_getitem f L = Field_getitem g L).
  { intros L HL. apply Field_getitem_agree; [exact Hs|].
    apply (Hag 0%nat); [lia|]. apply of_option_Ok in HL. exact HL. }
  assert (H1 : forall L, Np.item (iload self) 1 = Ok L ->
                         Field_getitem f L = Field_getitem g L).
  { intros L HL. apply Field_getitem_agree; [exact Hs|].
    apply (Hag 1%nat); [lia|]. apply of_option_Ok in HL. exact HL. }
  unfold update, bounce_back_update, Bouzidi_bounce_back_update,
    anti_bounce_back_update, Bouzidi_anti_bounce_back_update, Neumann_update.
  destruct (class_ self);
    (destruct (Np.item (iload self) 0) as [L0|e0] eqn:E0; simpl;
     [rewrite <- (H0 L0 eq_refl) | reflexivity]);
    (destruct (Field_getitem f L0) as [a|ea]; simpl; [|reflexivity]);
    same_binds Hs;
    try (rewrite <- (H1 _ eq_refl); same_binds Hs).
Qed.

Lemma update_reads_only_loads_witness :
  same_outcome field0 (istore loaded_point)
    (update loaded_point field0)
    (update loaded_point
       (mkField [2; 8; 8; 8]%nat
          (upd (fun _ => 3%R) [0; 0; 0; 0]%nat 9%R))).
Proof.
  apply (update_reads_only_loads loaded_point field0).
  - reflexivity.
  - intros i L Hi HL c q Hc Hq.
    destruct i as [|[|i]]; simpl in HL; try discriminate.
    injection HL as <-. simpl in Hc. destruct Hc as [<-|[]].
    simpl in Hq. injection Hq as <-. simpl. unfold upd.
    destruct (list_eq_dec Nat.eq_dec _ _); [discriminate | reflexivity].
Defined.

(** ** The interpolation weights of the Bouzidi classes *)

Lemma Bouzidi_s_unit d : (0 <= d)%R -> (0 <= Bouzidi_s d <= 1)%R.
Proof.
  intros Hd. unfold Bouzidi_s, Rltb.
  destruct (Rlt_dec d (1/2)) as [Hlt|Hge]; [lra|].
  assert (Hi : (0 < / d)%R) by (apply Rinv_0_lt_compat; lra).
  assert (Hdi : (d * / d = 1)%R) by (apply Rinv_r; lra).
  unfold Rdiv. split; nra.
Qed.

Lemma column_cons (t : Np.table) j :
  (j < Np.ncols t)%nat -> exists k x, Np.column t j = k :: x.
Proof.
  destruct t as [|r t]; simpl; [lia|]. eauto.
Qed.

(** X6: after [set_iload] of a Bouzidi class, the weight of every column
    whose distance is not negative lies between 0 and 1: [update]
    interpolates between its two readings, it never extrapolates. *)
Theorem Bouzidi_weight_in_unit_interval :
  forall self self1 j d,
    is_Bouzidi (class_ self) = true ->
    set_iload self = Ok self1 ->
    (j < Np.ncols (istore self))%nat ->
    nth_error (distance self) j = Some d ->
    (0 <= d)%R ->
    exists sj, nth_error (s self1) j = Some sj /\ (0 <= sj <= 1)%R /\
               sj = Bouzidi_s d.
Proof.
  intros self self1 j d Hc H Hj Hd Hpos.
  destruct (column_cons _ _ Hj) as (k & x & Hcol).
  assert (H' : Bouzidi_bounce_back_set_iload self = Ok self1).
  { unfold set_iload in H. destruct (class_ self); try discriminate; exact H. }
  destruct (Bouzidi_load_column _ _ _ _ _ _ H' Hj Hcol Hd)
    as (L1 & L2 & ksym & vk & _ & _ & _ & _ & _ & _ & _ & Hs).
  exists (Bouzidi_s d). split; [exact Hs|]. split; [|reflexivity].
  apply Bouzidi_s_unit. exact Hpos.
Qed.

Lemma Bouzidi_weight_in_unit_interval_witness :
  exists sj, nth_error (s Bouzidi_loaded) 0 = Some sj /\ (0 <= sj <= 1)%R /\
             sj = Bouzidi_s (1/4).
Proof.
  apply (Bouzidi_weight_in_unit_interval (one_point Bouzidi_bounce_back)
           Bouzidi_loaded 0%nat (1/4)%R).
  - reflexivity.
  - exact Bouzidi_point_set_iload.
  - simpl. lia.
  - reflexivity.
  - lra.
Defined.

(** X7: [set_iload] of a Bouzidi class overwrites every entry of [s]: what
    the array held before (it is allocated uninitialised) has no effect on
    the instance the call leaves. *)
Theorem Bouzidi_set_iload_overwrites_s :
  forall self self1 s0,
    is_Bouzidi (class_ self) = true ->
    set_iload self = Ok self1 ->
    length s0 = length (s self) ->
    set_iload (with_s self s0) = Ok self1.
Proof.
  intros self self1 s0 Hc H Hl.
  unfold set_iload in *. destruct self as [c lg ist fq rh il di st ld vb ss].
  simpl in *.
  destruct c; try discriminate;
    unfold Bouzidi_bounce_back_set_iload, with_iload, with_s in *; simpl in *;
    inv_binds; injection H as <-; dedup;
    match goal with
    | H1 : Np.mask_assign ?s1 ?m ?a = Ok ?r1,
      H2 : Np.mask_assign ?r1 _ ?b = Ok ?r2 |- _ =>
        destruct (mask_assign_cover _ _ _ _ _ _ s0 H1 H2 Hl) as (r1' & Ha & Hb);
        clear H1 H2; replay; reflexivity
    end.
Qed.

Lemma Bouzidi_set_iload_overwrites_s_witness :
  set_iload (with_s (one_point Bouzidi_bounce_back) [7%R]) = Ok Bouzidi_loaded.
Proof.
  apply (Bouzidi_set_iload_overwrites_s (one_point Bouzidi_bounce_back)).
  - reflexivity.
  - exact Bouzidi_point_set_iload.
  - reflexivity.
Defined.

(** ** The constructor of the classes *)

Lemma insert_unique_In x y : forall l,
  In x (insert_unique y l) <-> x = y \/ In x l.
Proof.
  induction l as [|z l IH]; simpl.
  - intuition.
  - destruct (y <? z)%Z eqn:E1; simpl; [intuition|].
    destruct (y =? z)%Z eqn:E2; simpl.
    + apply Z.eqb_eq in E2. subst. intuition.
    + rewrite IH. intuition.
Qed.

Lemma unique_In x : forall l, In x (unique l) <-> In x l.
Proof.
  induction l as [|y l IH]; simpl; [tauto|].
  unfold unique in *. simpl. rewrite insert_unique_In, IH. intuition.
Qed.

Lemma insert_unique_sorted y : forall l,
  StronglySorted Z.lt l -> StronglySorted Z.lt (insert_unique y l).
Proof.
  induction l as [|z l IH]; simpl; intros Hs.
  - constructor; constructor.
  - inversion Hs as [|? ? Hl Hz]; subst.
    destruct (y <? z)%Z eqn:E1.
    + apply Z.ltb_lt in E1. constructor; [exact Hs|].
      constructor; [exact E1|].
      rewrite Forall_forall in *. intros w Hw. specialize (Hz w Hw). lia.
    + destruct (y =? z)%Z eqn:E2; [exact Hs|].
      apply Z.ltb_ge in E1. apply Z.eqb_neq in E2.
      constructor; [apply IH; exact Hl|].
      rewrite Forall_forall in *. intros w Hw.
      apply insert_unique_In in Hw. destruct Hw as [->|Hw]; [lia|auto].
Qed.

Lemma unique_sorted : forall l, StronglySorted Z.lt (unique l).
Proof.
  induction l as [|y l IH]; unfold unique in *; simpl.
  - constructor.
  - apply insert_unique_sorted. exact IH.
Qed.

Lemma mapM_keys {V} (d : list (Z * V)) : forall l r,
  mapM (fun k => x <- of_option KeyError (dict_get d k) ;; Ok (k, x)) l = Ok r ->
  map fst r = l.
Proof.
  induction l as [|k l IH]; simpl; intros r H.
  - injection H as <-. reflexivity.
  - bind_inv H y Ey. bind_inv H r' Er. injection H as <-.
    bind_inv Ey x Ex. injection Ey as <-. simpl. f_equal. auto.
Qed.

Lemma dict_get_sorted {V} : forall (r : list (Z * V)) k x,
  StronglySorted Z.lt (map fst r) -> In (k, x) r -> dict_get r k = Some x.
Proof.
  induction r as [|[k' y] r IH]; simpl; intros k x Hs Hin; [contradiction|].
  inversion Hs as [|? ? Hr Hk]; subst.
  destruct Hin as [Heq|Hin].
  - injection Heq as -> ->. rewrite Z.eqb_refl. reflexivity.
  - destruct (k' =? k)%Z eqn:E; [|auto].
    apply Z.eqb_eq in E. subst k'. rewrite Forall_forall in Hk.
    specialize (Hk k (in_map fst _ _ Hin)). simpl in Hk. lia.
Qed.

Lemma getitem_last {A} (l : list A) d :
  l <> [] -> Np.getitem l (-1) = Ok (last l d).
Proof.
  intros Hl. unfold Np.getitem, Np.norm_index.
  destruct l as [|a l]; [congruence|].
  replace ((0 <=? -1)%Z) with false by reflexivity. cbn [andb].
  replace ((- Z.of_nat (length (a :: l)) <=? -1)%Z) with true
    by (symmetry; apply Z.leb_le; simpl length; lia).
  replace ((-1 <? 0)%Z) with true by reflexivity. cbn [andb bind].
  replace (Z.to_nat (-1 + Z.of_nat (length (a :: l)))) with (length l)
    by (simpl length; lia).
  clear Hl. revert a. induction l as [|b l IH]; intros a; [reflexivity|].
  change (length (b :: l)) with (S (length l)).
  change (nth_error (a :: b :: l) (S (length l)))
    with (nth_error (b :: l) (length l)).
  rewrite IH. reflexivity.
Qed.

Lemma mapM_total {A B} (f : A -> result B) : forall l,
  (forall x, In x l -> exists y, f x = Ok y) -> exists r, mapM f l = Ok r.
Proof.
  induction l as [|a l IH]; simpl; intros H; [eauto|].
  destruct (H a (or_introl eq_refl)) as (y & ->).
  destruct IH as (r & ->); [auto|]. simpl. eauto.
Qed.

Lemma mapM_raises {A B} (f : A -> result B) e0 : forall l x,
  (forall a e, f a = Raise e -> e = e0) ->
  In x l -> f x = Raise e0 -> mapM f l = Raise e0.
Proof.
  induction l as [|a l IH]; simpl; intros x He Hin Hx; [contradiction|].
  destruct (f a) as [b|e] eqn:Ea; simpl.
  - destruct Hin as [->|Hin]; [congruence|].
    rewrite (IH x He Hin Hx). reflexivity.
  - rewrite (He _ _ Ea). reflexivity.
Qed.

Lemma sorted_NoDup : forall l, StronglySorted Z.lt l -> NoDup l.
Proof.
  induction l as [|a l IH]; intros H; [constructor|].
  inversion H as [|? ? Hl Ha]; subst. constructor; [|auto].
  intros Hin. rewrite Forall_forall in Ha. specialize (Ha a Hin). lia.
Qed.

(** X8: the dictionary [__init__] keeps has one key for each distinct
    label of [ilabel] and no other, each key once, and looking a label of
    [ilabel] up in it gives the value the dictionary [__init__] was given
    holds for that label; nothing is said of the order of the keys. *)
Theorem Boundary_method_init_value_bc :
  forall c ist il di st vbc self,
    Boundary_method_init c ist il di st vbc = Ok self ->
    NoDup (map fst (value_bc self)) /\
    (forall k, In k (map fst (value_bc self)) <-> In k il) /\
    (forall k, In k il ->
               exists x, dict_get vbc k = Some x /\
                         dict_get (value_bc self) k = Some x).
Proof.
  intros c ist il di st vbc self H.
  unfold Boundary_method_init in H.
  bind_inv H nv Env. bind_inv H fq Efq. bind_inv H r Er.
  injection H as <-. simpl.
  pose proof (mapM_keys _ _ _ Er) as Hk. rewrite Hk.
  split; [apply sorted_NoDup; apply unique_sorted|].
  split; [intros k; apply unique_In|].
  intros k Hin. apply unique_In in Hin. rewrite <- Hk in Hin.
  apply in_map_iff in Hin. destruct Hin as ([k' x] & Hfst & Hin).
  simpl in Hfst. subst k'. exists x. split.
  - destruct (mapM_In _ _ _ _ Er Hin) as (k0 & _ & Hf).
    bind_inv Hf x0 Ex0. injection Hf as -> ->.
    apply of_option_Ok in Ex0. exact Ex0.
  - apply dict_get_sorted; [|exact Hin]. rewrite Hk. apply unique_sorted.
Qed.

Lemma Boundary_method_init_value_bc_witness :
  NoDup (map fst (value_bc (one_point Neumann))) /\
  (forall k, In k (map fst (value_bc (one_point Neumann))) <-> In k [7%Z]) /\
  (forall k, In k [7%Z] ->
             exists x, dict_get [(7%Z, VNone)] k = Some x /\
                       dict_get (value_bc (one_point Neumann)) k = Some x).
Proof.
  apply (Boundary_method_init_value_bc Neumann [[0]; [5]; [5]; [5]]%Z [7]%Z
           [1/4]%R stencil_z [(7%Z, VNone)] (one_point Neumann)).
  exact (one_point_init Neumann).
Defined.

(** X9: [__init__] returns an instance whenever the stencil has a last
    entry of [nv_ptr] that is not negative and the dictionary of values
    has an entry for every label of [ilabel]; the instance has an
    equilibrium table of [nv_ptr[-1]] rows and one column per column of
    [istore], all zero. *)
Theorem Boundary_method_init_succeeds :
  forall c ist il di st vbc,
    nv_ptr st <> [] ->
    (0 <= last (nv_ptr st) 0)%Z ->
    (forall k, In k il -> dict_get vbc k <> None) ->
    exists self,
      Boundary_method_init c ist il di st vbc = Ok self /\
      feq self = repeat (repeat 0%R (Np.ncols ist))
                        (Z.to_nat (last (nv_ptr st) 0%Z)).
Proof.
  intros c ist il di st vbc Hne Hnv Hcov.
  unfold Boundary_method_init.
  rewrite (getitem_last _ 0%Z Hne). cbn [bind]. unfold zeros.
  replace ((last (nv_ptr st) 0 <? 0)%Z) with false
    by (symmetry; apply Z.ltb_ge; exact Hnv).
  cbn [bind].
  destruct (mapM_total
              (fun k => x <- of_option KeyError (dict_get vbc k) ;; Ok (k, x))
              (unique il)) as (r & ->).
  - intros k Hk. apply -> unique_In in Hk. specialize (Hcov k Hk).
    destruct (dict_get vbc k) as [x|]; [|congruence]. simpl. eauto.
  - cbn [bind]. eexists. split; reflexivity.
Qed.

Lemma Boundary_method_init_succeeds_witness :
  exists self,
    Boundary_method_init Neumann [[0]; [5]; [5]; [5]]%Z [7; 7]%Z [1/4; 1/4]%R
      stencil_z [(7%Z, VNone)] = Ok self /\
    feq self = repeat (repeat 0%R (Np.ncols [[0]; [5]; [5]; [5]]%Z))
                      (Z.to_nat (last (nv_ptr stencil_z) 0%Z)).
Proof.
  apply (Boundary_method_init_succeeds Neumann [[0]; [5]; [5]; [5]]%Z [7; 7]%Z
           [1/4; 1/4]%R stencil_z [(7%Z, VNone)]).
  - simpl. discriminate.
  - simpl. lia.
  - intros k [<-|[<-|[]]]; simpl; discriminate.
Defined.

(** X10: [__init__] raises [KeyError] when some label of [ilabel] has no
    entry in the dictionary of values it is given. *)
Theorem Boundary_method_init_missing_label :
  forall c ist il di st vbc k,
    nv_ptr st <> [] ->
    (0 <= last (nv_ptr st) 0)%Z ->
    In k il -> dict_get vbc k = None ->
    Boundary_method_init c ist il di st vbc = Raise KeyError.
Proof.
  intros c ist il di st vbc k Hne Hnv Hin Hk.
  unfold Boundary_method_init.
  rewrite (getitem_last _ 0%Z Hne). cbn [bind]. unfold zeros.
  replace ((last (nv_ptr st) 0 <? 0)%Z) with false
    by (symmetry; apply Z.ltb_ge; exact Hnv).
  cbn [bind].
  rewrite (mapM_raises
             (fun k => x <- of_option KeyError (dict_get vbc k) ;; Ok (k, x))
             KeyError (unique il) k).
  - reflexivity.
  - intros a e. destruct (dict_get vbc a); simpl; congruence.
  - apply unique_In. exact Hin.
  - rewrite Hk. reflexivity.
Qed.

Lemma Boundary_method_init_missing_label_witness :
  Boundary_method_init bounce_back [[0; 0]; [5; 6]; [5; 5]; [5; 5]]%Z [7; 8]%Z
    [1/4; 1/4]%R stencil_z [(7%Z, VNone)] = Raise KeyError.
Proof.
  apply (Boundary_method_init_missing_label bounce_back
           [[0; 0]; [5; 6]; [5; 5]; [5; 5]]%Z [7; 8]%Z [1/4; 1/4]%R stencil_z
           [(7%Z, VNone)] 8%Z).
  - simpl. discriminate.
  - simpl. lia.
  - simpl. auto.
  - reflexivity.
Defined.

(** ** More on [prepare_rhs] *)

(** X11: when every prescribed value of the instance is [None],
    [prepare_rhs] changes nothing and raises nothing, whatever the
    simulation. *)
Theorem prepare_rhs_no_value :
  forall self sim,
    (forall k v, In (k, v) (value_bc self) -> v = VNone) ->
    prepare_rhs self sim = (self, None).
Proof.
  intros self sim. unfold prepare_rhs.
  generalize (value_bc self) as items.
  induction items as [|[k v] items IH]; simpl; intros H; [reflexivity|].
  rewrite (H k v (or_introl eq_refl)).
  unfold prepare_rhs_label. apply IH. intros k' v' Hin. eauto.
Qed.

Lemma prepare_rhs_no_value_witness :
  prepare_rhs (one_point Bouzidi_bounce_back) copy_scheme
  = (one_point Bouzidi_bounce_back, None).
Proof.
  apply (prepare_rhs_no_value (one_point Bouzidi_bounce_back) copy_scheme).
  intros k v [H|[]]. injection H as _ <-. reflexivity.
Defined.

Lemma nth_error_seq0 n i : (i < n)%nat -> nth_error (seq 0 n) i = Some i.
Proof.
  intros H. rewrite (nth_error_nth' _ 0%nat) by (rewrite length_seq; exact H).
  rewrite seq_nth by exact H. reflexivity.
Qed.

Lemma item_nth_error {A} (l : list A) i x : Np.item l i = Ok x -> nth_error l i = Some x.
Proof. unfold Np.item. apply of_option_Ok. Qed.

(** X12: the coordinates [prepare_rhs] hands to the prescribed-value
    function: for the boundary point of column [j], along axis [i], the
    coordinate of the stored cell moved by [(1 - distance[j])] times the
    component [i] of the column's velocity times [dx]. *)
Theorem wall_coordinates_formula :
  forall sim self indices coords c j i k x d,
    wall_coordinates sim self indices = Ok coords ->
    nth_error indices c = Some j ->
    (i < sim_dim sim)%nat ->
    Np.column (istore self) j = k :: x ->
    nth_error (distance self) j = Some d ->
    exists halo xi h vk vki row,
      nth_error (coords_halo sim) i = Some halo /\
      nth_error x i = Some xi /\
      Np.getitem halo xi = Ok h /\
      Np.getitem (get_all_velocities (stencil self)) k = Ok vk /\
      nth_error vk i = Some vki /\
      nth_error coords i = Some row /\
      nth_error row c = Some (h + (1 - d) * IZR vki * sim_dx sim)%R.
Proof.
  intros sim self indices coords c j i k x d H Hc Hi Hcol Hd.
  unfold wall_coordinates in H.
  bind_inv H row0 E0. bind_inv H ks Eks. bind_inv H ds Eds.
  destruct (mapM_nth_error _ _ _ _ _ H (nth_error_seq0 _ _ Hi))
    as (row & Hrow & Hcoords).
  unfold wall_coordinate in Hrow.
  bind_inv Hrow halo Eh. bind_inv Hrow rowi Er. bind_inv Hrow pos Ep.
  bind_inv Hrow xs Ex. bind_inv Hrow vki Ev. bind_inv Hrow step Es.
  unfold take_at in *.
  destruct (mapM_nth_error _ _ _ _ _ Eks Hc) as (kc & Hkc & Hks).
  destruct (mapM_nth_error _ _ _ _ _ Eds Hc) as (dc & Hdc & Hds).
  destruct (mapM_nth_error _ _ _ _ _ Ep Hc) as (pj & Hpj & Hpos).
  apply item_nth_error in Hkc, Hdc, Hpj, E0, Eh, Er.
  assert (dc = d) by congruence. subst dc.
  destruct (take_nth _ _ _ _ _ 0%R Ex Hpos) as (h & Hh & Hxs & _).
  unfold take_component in Ev.
  destruct (mapM_nth_error _ _ _ _ _ Ev Hks) as (vc & Hvc & Hvki).
  bind_inv Hvc vk Evk. apply item_nth_error in Hvc.
  assert (Hs : nth_error (map (fun x0 => (1 - x0)%R) ds) c = Some (1 - d)%R)
    by (rewrite nth_error_map, Hds; reflexivity).
  destruct (zipWithM_nth_fwd _ _ _ _ _ _ _ Es Hs Hvki) as (z & Hz & Hstep).
  injection Hz as <-.
  destruct (vadd_nth _ _ _ _ _ Hrow Hxs) as (y & Hy & Hres).
  assert (y = ((1 - d) * IZR vc * sim_dx sim)%R) by congruence. subst y.
  destruct (istore self) as [|r0 rest] eqn:Eist; [discriminate|].
  simpl in E0. injection E0 as ->.
  unfold Np.column in Hcol. simpl in Hcol. injection Hcol as Hk Hx.
  assert (kc = k).
  { rewrite <- Hk. symmetry. apply nth_error_nth. exact Hkc. }
  subst kc.
  exists halo, pj, h, vk, vc, row. repeat split; auto.
  rewrite <- Hx. rewrite nth_error_map.
  replace (i + 1)%nat with (S i) in Er by lia. simpl in Er. rewrite Er.
  simpl. f_equal. apply nth_error_nth. exact Hpj.
Qed.

Lemma wall_coordinates_formula_witness :
  exists halo xi h vk vki row,
    nth_error (coords_halo copy_scheme) 2 = Some halo /\
    nth_error [5; 5; 5]%Z 2 = Some xi /\
    Np.getitem halo xi = Ok h /\
    Np.getitem (get_all_velocities (stencil tuple_point)) 0 = Ok vk /\
    nth_error vk 2 = Some vki /\
    nth_error [[(5 + (1 - 1/4) * IZR 0 * 1)%R]; [(5 + (1 - 1/4) * IZR 0 * 1)%R];
               [(5 + (1 - 1/4) * IZR 1 * 1)%R]] 2 = Some row /\
    nth_error row 0 = Some (h + (1 - 1/4) * IZR vki * sim_dx copy_scheme)%R.
Proof.
  apply (wall_coordinates_formula copy_scheme tuple_point [0%nat]
           [[(5 + (1 - 1/4) * IZR 0 * 1)%R]; [(5 + (1 - 1/4) * IZR 0 * 1)%R];
            [(5 + (1 - 1/4) * IZR 1 * 1)%R]]
           0%nat 0%nat 2%nat 0%Z [5; 5; 5]%Z (1/4)%R).
  - reflexivity.
  - reflexivity.
  - simpl. lia.
  - reflexivity.
  - reflexivity.
Defined.

(** X13: when the prescribed value of a label is a function and the pass
    of [prepare_rhs] for that label ends without an exception, every
    column of [feq] that carries the label holds the matching column of
    what [m2f] made of the equilibrium of the moments the function left;
    the columns are taken in ascending order. *)
Theorem prepare_rhs_label_stores :
  forall sim self key g coords f1 m1 self' j,
    wall_coordinates sim self (where_eq (ilabel self) key) = Ok coords ->
    g (repeat (repeat 0%R (length (where_eq (ilabel self) key))) (sim_nv sim))
      (repeat (repeat 0%R (length (where_eq (ilabel self) key))) (sim_nv sim))
      (map AArray coords) = Ok (f1, m1) ->
    prepare_rhs_label sim self (key, VFunction g) = (self', None) ->
    nth_error (ilabel self) j = Some key ->
    exists c,
      nth_error (where_eq (ilabel self) key) c = Some j /\
      feq_column (feq self') j
      = feq_column (scheme_m2f sim (scheme_equilibrium sim m1) f1) c.
Proof.
  intros sim self key g coords f1 m1 self' j Hw Hg H Hj.
  pose proof (where_eq_from_complete _ _ 0%nat _ Hj) as Hin.
  simpl in Hin. fold (where_eq (ilabel self) key) in Hin.
  apply In_nth_error in Hin. destruct Hin as (c & Hc).
  exists c. split; [exact Hc|].
  unfold prepare_rhs_label in H. rewrite Hw in H.
  unfold call_value in H. rewrite Hg in H. cbn [bind fst snd] in H.
  destruct (put_columns _ _ _ _) as [fq'|e] eqn:Ep; [|discriminate].
  injection H as <-. simpl.
  apply (put_columns_written _ _ _ _ _ _ _ Ep
           (where_eq_from_NoDup _ _ _) Hc).
Qed.

Lemma prepare_rhs_label_stores_witness :
  exists c,
    nth_error (where_eq (ilabel function_point) 7) c = Some 0%nat /\
    feq_column (feq function_point_prepared) 0
    = feq_column (scheme_m2f copy_scheme
                    (scheme_equilibrium copy_scheme [[1]; [1]]%R)
                    [[0]; [0]]%R) c.
Proof.
  apply (prepare_rhs_label_stores copy_scheme function_point 7%Z set_one
           [[(5 + (1 - 1/4) * IZR 0 * 1)%R]; [(5 + (1 - 1/4) * IZR 0 * 1)%R];
            [(5 + (1 - 1/4) * IZR 1 * 1)%R]]
           [[0]; [0]]%R [[1]; [1]]%R function_point_prepared 0%nat).
  - reflexivity.
  - reflexivity.
  - reflexivity.
  - reflexivity.
Defined.

(** X14: a prescribed value that is a tuple with a function as second
    item, or with a tuple as first item and a tuple as second, makes the
    pass of [prepare_rhs] for its label raise [TypeError] once the
    coordinates are computed; [feq] is left as it was. *)
Theorem prepare_rhs_tuple_TypeError :
  forall sim self key items coords,
    wall_coordinates sim self (where_eq (ilabel self) key) = Ok coords ->
    (exists g, nth_error items 1 = Some (PFunction g)) \/
    (exists a b, nth_error items 1 = Some (PTuple a) /\
                 nth_error items 0 = Some (PTuple b)) ->
    snd (prepare_rhs_label sim self (key, VTuple items)) = Some TypeError /\
    feq (fst (prepare_rhs_label sim self (key, VTuple items))) = feq self.
Proof.
  intros sim self key items coords Hw Hitems.
  unfold prepare_rhs_label. rewrite Hw. unfold call_value, Np.item.
  destruct Hitems as [(g & H1)|(a & b & H1 & H0)].
  - rewrite H1. cbn [of_option bind].
    destruct (negb _); split; reflexivity.
  - rewrite H1, H0. cbn [of_option bind].
    destruct (negb _); split; reflexivity.
Qed.

Lemma prepare_rhs_tuple_TypeError_witness :
  snd (prepare_rhs_label copy_scheme function_point
         (7%Z, VTuple [PFunction set_one; PFunction set_one])) = Some TypeError /\
  feq (fst (prepare_rhs_label copy_scheme function_point
              (7%Z, VTuple [PFunction set_one; PFunction set_one])))
  = feq function_point.
Proof.
  apply (prepare_rhs_tuple_TypeError copy_scheme function_point 7%Z
           [PFunction set_one; PFunction set_one]
           [[(5 + (1 - 1/4) * IZR 0 * 1)%R]; [(5 + (1 - 1/4) * IZR 0 * 1)%R];
            [(5 + (1 - 1/4) * IZR 1 * 1)%R]]).
  - reflexivity.
  - left. exists set_one. reflexivity.
Defined.

Lemma prepare_rhs_label_shape sim self kv :
  map (@length R) (feq (fst (prepare_rhs_label sim self kv)))
  = map (@length R) (feq self).
Proof.
  unfold prepare_rhs_label. destruct kv as [key value].
  assert (Hput : forall self1 called,
             feq self1 = feq self ->
             map (@length R)
               (feq (fst (match (fm <- called ;;
                                 put_columns (feq self)
                                   (where_eq (ilabel self) key) (sim_nv sim)
                                   (scheme_m2f sim (scheme_equilibrium sim (snd fm))
                                      (fst fm)))
                          with
                          | Raise e => (self1, Some e)
                          | Ok feq' => (with_feq self1 feq', None)
                          end)))
             = map (@length R) (feq self)).
  { intros self1 called H1. destruct called as [fm|e]; cbn [bind].
    - destruct (put_columns _ _ _ _) as [fq'|e] eqn:Ep; simpl;
        [|rewrite H1; reflexivity].
      unfold put_columns in Ep. destruct (_ && _); [|discriminate].
      apply (zipWithM_map_l _ (@length R) (@length R)
               (fun x y z Hz => put_length _ _ _ _ Hz) _ _ _ Ep).
    - simpl. rewrite H1. reflexivity. }
  destruct value; try reflexivity;
    (destruct (wall_coordinates _ _ _); [|reflexivity]);
    destruct (call_value _ _ _ _) as [logged called];
    apply Hput; destruct logged; reflexivity.
Qed.

(** X15: [prepare_rhs] keeps the shape of [feq]: the number of rows and the
    length of each row are the same afterwards, whether the call ends
    normally or with an exception. *)
Theorem prepare_rhs_keeps_shape :
  forall self sim,
    map (@length R) (feq (fst (prepare_rhs self sim)))
    = map (@length R) (feq self).
Proof.
  intros self sim. unfold prepare_rhs.
  generalize (value_bc self) as items. revert self.
  intros self items. revert self.
  induction items as [|kv items IH]; intros self; simpl; [reflexivity|].
  pose proof (prepare_rhs_label_shape sim self kv) as Hl.
  destruct (prepare_rhs_label sim self kv) as [self' [e|]]; simpl in *.
  - exact Hl.
  - rewrite IH. exact Hl.
Qed.

(** ** The locator *)

Lemma positions_spec : forall sh p, In p (positions sh) <-> Forall2 lt p sh.
Proof.
  induction sh as [|n sh IH]; intros p; simpl.
  - split.
    + intros [<-|[]]. constructor.
    + intros H. inversion H. left. reflexivity.
  - rewrite in_flat_map. split.
    + intros (i & Hi & Hp). apply in_map_iff in Hp.
      destruct Hp as (q & <- & Hq). apply in_seq in Hi.
      constructor; [lia|]. apply IH. exact Hq.
    + intros H. inversion H as [|i n' q sh' Hi Hq]; subst.
      exists i. split; [apply in_seq; lia|].
      apply in_map. apply IH. exact Hq.
Qed.

Lemma map_nth_seq0 {A B} (f : A -> B) d : forall (p : list A),
  map (fun i => f (nth i p d)) (seq 0 (length p)) = map f p.
Proof.
  induction p as [|a p IH]; [reflexivity|].
  simpl length. cbn [seq map nth]. f_equal.
  rewrite <- seq_shift, map_map. exact IH.
Qed.

Lemma column_shifted j : forall (a : Np.table) (v : list Z) r,
  zipWithM (fun row c => Ok (map (fun x => x + c)%Z row)) a v = Ok r ->
  (forall row, In row a -> (j < length row)%nat) ->
  Np.column r j = shift 1 (Np.column a j) v.
Proof.
  induction a as [|row a IH]; intros v r H Hlen;
    destruct v as [|c v]; simpl in H; try discriminate.
  - injection H as <-. reflexivity.
  - bind_inv H r' Er. injection H as <-.
    unfold Np.column in *. cbn [map shift hd tl]. f_equal.
    + rewrite Z.mul_1_l.
      rewrite (nth_indep _ 0%Z (0 + c)%Z)
        by (rewrite length_map; apply Hlen; left; reflexivity).
      rewrite (map_nth (fun x => (x + c)%Z)). reflexivity.
    + apply IH; [exact Er|]. intros row' Hr. apply Hlen. right. exact Hr.
Qed.

Lemma Boundary_Velocity_init_column domain label ksym b u n_ :
  Boundary_Velocity_init domain label ksym = Ok b ->
  nth_error (unique_velocities (domain_stencil domain)) ksym = Some u ->
  unum2index (domain_stencil domain)
    (Velocity_num (Velocity_get_symmetric (domain_stencil domain) u)) = Some n_ ->
  grid domain <> [] ->
  bv_v b = u /\ bv_label b = label /\
  length (bv_distance b)
  = length (filter (fun p => (domain_flag domain n_ p =? label)%Z)
              (positions (grid domain))) /\
  forall r p,
    nth_error (filter (fun p => (domain_flag domain n_ p =? label)%Z)
                 (positions (grid domain))) r = Some p ->
    Np.column (bv_indices b) r
    = shift 1 (map Z.of_nat p)
        (Velocity_v (Velocity_get_symmetric (domain_stencil domain) u)) /\
    nth_error (bv_distance b) r = Some (domain_distance domain n_ p).
Proof.
  intros H Hu Hn Hg. unfold Boundary_Velocity_init in H.
  unfold Np.item in H. rewrite Hu in H. cbn [of_option bind] in H.
  rewrite Hn in H. cbn [of_option bind] in H.
  set (ind := filter (fun p => (domain_flag domain n_ p =? label)%Z)
                (positions (grid domain))) in *.
  set (indices0 := map (fun i => map (fun p => Z.of_nat (nth i p 0%nat)) ind)
                     (seq 0 (length (grid domain)))) in *.
  bind_inv H indices Ei. injection H as <-. simpl.
  split; [reflexivity|]. split; [reflexivity|].
  split; [apply length_map|].
  intros r p Hr.
  assert (Hp : length p = length (grid domain)).
  { apply nth_error_In in Hr. apply filter_In in Hr. destruct Hr as [Hr _].
    apply positions_spec in Hr. eapply Forall2_length; eauto. }
  assert (Hlt : (r < length ind)%nat) by (apply nth_error_Some; congruence).
  assert (Hcol0 : Np.column indices0 r = map Z.of_nat p).
  { unfold Np.column, indices0. rewrite map_map. rewrite <- Hp.
    rewrite <- (map_nth_seq0 Z.of_nat 0%nat p).
    apply map_ext. intros i.
    apply nth_error_nth. rewrite nth_error_map, Hr. reflexivity. }
  split; [|rewrite nth_error_map, Hr; reflexivity].
  destruct (Np.size indices0 =? 0)%nat eqn:Es.
  - exfalso. apply Nat.eqb_eq in Es. unfold Np.size, Np.ncols, indices0 in Es.
    rewrite length_map, length_seq in Es.
    destruct (grid domain) as [|g gs]; [congruence|].
    simpl in Es. rewrite length_map in Es. lia.
  - rewrite (column_shifted r _ _ _ Ei), Hcol0; [reflexivity|].
    intros row Hrow. unfold indices0 in Hrow. apply in_map_iff in Hrow.
    destruct Hrow as (i & <- & _). rewrite length_map. exact Hlt.
Qed.

(** X16: the record the locator builds for a label and a velocity lists
    exactly the cells of the grid whose flag, for the symmetric velocity, is
    the label: each such cell gives a column that holds the cell moved by the
    symmetric velocity, with the distance read at the cell itself, and every
    column comes from such a cell. *)
Theorem Boundary_Velocity_init_cells :
  forall domain label ksym b u n_,
    Boundary_Velocity_init domain label ksym = Ok b ->
    nth_error (unique_velocities (domain_stencil domain)) ksym = Some u ->
    unum2index (domain_stencil domain)
      (Velocity_num (Velocity_get_symmetric (domain_stencil domain) u))
    = Some n_ ->
    grid domain <> [] ->
    (forall p, Forall2 lt p (grid domain) -> domain_flag domain n_ p = label ->
       exists r,
         Np.column (bv_indices b) r
         = shift 1 (map Z.of_nat p)
             (Velocity_v (Velocity_get_symmetric (domain_stencil domain) u)) /\
         nth_error (bv_distance b) r = Some (domain_distance domain n_ p)) /\
    (forall r, (r < length (bv_distance b))%nat ->
       exists p,
         Forall2 lt p (grid domain) /\ domain_flag domain n_ p = label /\
         Np.column (bv_indices b) r
         = shift 1 (map Z.of_nat p)
             (Velocity_v (Velocity_get_symmetric (domain_stencil domain) u)) /\
         nth_error (bv_distance b) r = Some (domain_distance domain n_ p)).
Proof.
  intros domain label ksym b u n_ H Hu Hn Hg.
  destruct (Boundary_Velocity_init_column _ _ _ _ _ _ H Hu Hn Hg)
    as (_ & _ & Hlen & Hcol).
  split.
  - intros p Hp Hf.
    assert (Hin : In p (filter (fun p => (domain_flag domain n_ p =? label)%Z)
                          (positions (grid domain)))).
    { apply filter_In. split; [apply positions_spec; exact Hp|].
      apply Z.eqb_eq. exact Hf. }
    apply In_nth_error in Hin. destruct Hin as (r & Hr).
    exists r. apply Hcol. exact Hr.
  - intros r Hr. rewrite Hlen in Hr.
    destruct (nth_error (filter (fun p => (domain_flag domain n_ p =? label)%Z)
                           (positions (grid domain))) r) as [p|] eqn:Ep;
      [|apply nth_error_None in Ep; lia].
    exists p. pose proof (nth_error_In _ _ Ep) as Hin.
    apply filter_In in Hin. destruct Hin as [Hpos Hf].
    split; [apply positions_spec; exact Hpos|].
    split; [apply Z.eqb_eq; exact Hf|]. apply Hcol. exact Ep.
Qed.

Lemma Boundary_Velocity_init_cells_witness :
  (forall p, Forall2 lt p (grid domain_x) -> domain_flag domain_x 0 p = 7%Z ->
     exists r,
       Np.column (bv_indices bv_x) r = shift 1 (map Z.of_nat p) [1]%Z /\
       nth_error (bv_distance bv_x) r = Some (domain_distance domain_x 0 p)) /\
  (forall r, (r < length (bv_distance bv_x))%nat ->
     exists p,
       Forall2 lt p (grid domain_x) /\ domain_flag domain_x 0 p = 7%Z /\
       Np.column (bv_indices bv_x) r = shift 1 (map Z.of_nat p) [1]%Z /\
       nth_error (bv_distance bv_x) r = Some (domain_distance domain_x 0 p)).
Proof.
  apply (Boundary_Velocity_init_cells domain_x 7%Z 1%nat bv_x
           (mkVelocity [-1]%Z 2) 0%nat).
  - reflexivity.
  - reflexivity.
  - reflexivity.
  - simpl. discriminate.
Defined.

(** ** The instances [Boundary] builds *)

Lemma zipWithM_rows_length (a : Np.table) : forall (v : list Z) r n,
  zipWithM (fun row c => Ok (map (fun x => x + c)%Z row)) a v = Ok r ->
  (forall row, In row a -> length row = n) ->
  forall row, In row r -> length row = n.
Proof.
  induction a as [|x a IH]; intros v r n H Hn row Hrow;
    destruct v as [|c v]; simpl in H; try discriminate.
  - injection H as <-. destruct Hrow.
  - bind_inv H r' Er. injection H as <-. destruct Hrow as [<-|Hrow].
    + rewrite length_map. apply Hn. left. reflexivity.
    + eapply IH; eauto. intros row' Hr. apply Hn. right. exact Hr.
Qed.

Lemma Boundary_Velocity_init_aligned domain label ksym b :
  Boundary_Velocity_init domain label ksym = Ok b ->
  forall row, In row (bv_indices b) -> length row = length (bv_distance b).
Proof.
  unfold Boundary_Velocity_init. intros H.
  bind_inv H self_v Hv. bind_inv H num_ Hnum. bind_inv H indices Hind.
  injection H as <-. simpl. rewrite length_map.
  match type of Hind with
  | (if ?c then _ else _) = _ => destruct c
  end.
  - injection Hind as <-. intros row Hrow. apply in_map_iff in Hrow.
    destruct Hrow as (i & <- & _). apply length_map.
  - apply (zipWithM_rows_length _ _ _ _ Hind).
    intros row Hrow. apply in_map_iff in Hrow.
    destruct Hrow as (i & <- & _). apply length_map.
Qed.

Lemma build_bv_aligned domain bv :
  build_bv domain = Ok bv -> bv_aligned (length (grid domain)) bv.
Proof.
  unfold build_bv. intros H.
  match type of H with
  | for_each ?body ?l ?s0 = _ =>
      assert (Hinv := for_each_inv (bv_aligned (length (grid domain)))
                        (fun _ => True) body)
  end.
  match type of Hinv with
  | ?A -> _ => assert (Hbody : A)
  end.
  { intros s x Hs.
    destruct (mapM _ _) as [l|e] eqn:El; simpl; [|exact I].
    intros label l' b Hget Hin. rewrite dict_get_set in Hget.
    destruct (x =? label)%Z.
    - injection Hget as <-.
      destruct (mapM_In _ _ _ _ El Hin) as (ksym & _ & Hb).
      split; [eapply Boundary_Velocity_init_rows; eauto|].
      eapply Boundary_Velocity_init_aligned; eauto.
    - eapply Hs; eauto. }
  specialize (Hinv Hbody (list_of_labels domain) []).
  rewrite H in Hinv. apply Hinv.
  intros label l b Hget. discriminate.
Qed.

Lemma velocity_block_aligned rank st bv label k inumk numk b :
  bv_aligned rank bv ->
  velocity_block st bv label k inumk numk = Ok (Some b) ->
  aligned (S rank) (istore_tmp b) (ilabel_tmp b) (distance_tmp b).
Proof.
  unfold velocity_block. intros Hbv H.
  bind_inv H bl Hbl. bind_inv H i Hi. bind_inv H rec Hrec.
  destruct (negb _) eqn:Es; [|discriminate].
  bind_inv H ptr Hptr. injection H as <-. simpl.
  apply of_option_Ok in Hbl. apply item_In in Hrec.
  destruct (Hbv _ _ _ Hbl Hrec) as (Hrows & Hlen).
  apply negb_true_iff in Es. apply Nat.eqb_neq in Es.
  unfold Np.size in Es.
  assert (Hn : Np.ncols (bv_indices rec) = length (bv_distance rec)).
  { destruct (bv_indices rec) as [|r0 rs]; [simpl in Es; lia|].
    simpl. apply Hlen. left. reflexivity. }
  unfold aligned. simpl. rewrite !repeat_length.
  repeat split.
  - f_equal. exact Hrows.
  - destruct (Np.ncols (bv_indices rec)); lia.
  - intros row [<-|Hrow]; [apply repeat_length|].
    rewrite Hn. apply Hlen. exact Hrow.
  - symmetry. exact Hn.
Qed.

Lemma happ_aligned rows T1 il1 di1 T2 il2 di2 :
  aligned rows T1 il1 di1 -> aligned rows T2 il2 di2 ->
  aligned rows (happ T1 T2) (il1 ++ il2) (di1 ++ di2).
Proof.
  intros (Hr1 & Hp1 & Hrow1 & Hil1 & Hdi1) (Hr2 & Hp2 & Hrow2 & Hil2 & Hdi2).
  assert (Hrows : forall row, In row (happ T1 T2) ->
                    length row = (Np.ncols T1 + Np.ncols T2)%nat).
  { intros row Hrow. unfold happ in Hrow. apply in_map_iff in Hrow.
    destruct Hrow as ([r1 r2] & <- & Hin). simpl. rewrite length_app.
    rewrite (Hrow1 r1), (Hrow2 r2); [reflexivity| |].
    - eapply in_combine_r; eauto.
    - eapply in_combine_l; eauto. }
  assert (Hn : Np.ncols (happ T1 T2) = (Np.ncols T1 + Np.ncols T2)%nat).
  { destruct T1 as [|a T1]; [simpl in Hp1; lia|].
    destruct T2 as [|c T2]; [simpl in Hp2; lia|].
    simpl. apply length_app. }
  unfold aligned. rewrite Hn, !length_app.
  repeat split; try lia; try exact Hrows.
  unfold happ. rewrite length_map, length_combine. lia.
Qed.

Lemma fold_happ_aligned rows : forall bs T il di,
  aligned rows T il di ->
  (forall b, In b bs ->
     aligned rows (istore_tmp b) (ilabel_tmp b) (distance_tmp b)) ->
  aligned rows (fold_left happ (map istore_tmp bs) T)
    (il ++ concat (map ilabel_tmp bs)) (di ++ concat (map distance_tmp bs)).
Proof.
  induction bs as [|b bs IH]; intros T il di HT Hbs; simpl.
  - rewrite !app_nil_r. exact HT.
  - rewrite !app_assoc. apply IH.
    + apply happ_aligned; [exact HT|]. apply Hbs. left. reflexivity.
    + intros b' Hb'. apply Hbs. right. exact Hb'.
Qed.

Lemma blocks_of_In v bs b : In b (blocks_of v bs) -> In (v, b) bs.
Proof.
  unfold blocks_of. intros H. apply in_map_iff in H.
  destruct H as ([v' b'] & Hb & Hin). simpl in Hb. subst b'.
  apply filter_In in Hin. destruct Hin as [Hin Hv]. simpl in Hv.
  apply method_class_eqb_eq in Hv. subst v'. exact Hin.
Qed.

(** Where a block of the traversal comes from. *)
Lemma traversal_block_origin domain dico blocks v b :
  traversal domain dico = Ok blocks -> In (v, b) blocks ->
  exists bv_ label e methods k inumk numk,
    build_bv domain = Ok bv_ /\
    In label (list_of_labels domain) /\ reserved label = false /\
    dict_get (match dico with Some d => d | None => [] end) label = Some e /\
    entry_method e = Some methods /\ In (k, v) methods /\
    velocity_block (domain_stencil domain) bv_ label k inumk numk = Ok (Some b).
Proof.
  unfold traversal. intros H Hin.
  bind_inv H bv_ Hbv. bind_inv H bss Hbss. injection H as <-.
  apply in_concat in Hin. destruct Hin as (bs & Hbs & Hin).
  destruct (mapM_In _ _ _ _ Hbss Hbs) as (label & Hlab & Hlabel).
  unfold label_blocks in Hlabel. fold (reserved label) in Hlabel.
  destruct (reserved label) eqn:Er.
  { injection Hlabel as <-. destruct Hin. }
  bind_inv Hlabel e He. bind_inv Hlabel ms Hms. bind_inv Hlabel fss Hfss.
  injection Hlabel as <-.
  apply in_concat in Hin. destruct Hin as (fb & Hfb & Hin).
  destruct (mapM_In _ _ _ _ Hfss Hfb) as ([k v'] & Hkv & Hfam).
  unfold family_blocks in Hfam. simpl in Hfam.
  bind_inv Hfam nums Hnums. bind_inv Hfam vss Hvss. injection Hfam as <-.
  apply in_concat in Hin. destruct Hin as (vb & Hvb & Hin).
  destruct (mapM_In _ _ _ _ Hvss Hvb) as (en & _ & Hen).
  bind_inv Hen ob Hob. injection Hen as <-.
  destruct ob as [b'|]; [|destruct Hin].
  destruct Hin as [Hin|[]]. injection Hin as <- <-.
  apply of_option_Ok in He, Hms.
  exists bv_, label, e, ms, k, (fst en), (snd en).
  repeat split; auto.
Qed.

Lemma Boundary_init_instance domain dico b m :
  Boundary_init domain dico = Ok b -> In m (methods b) ->
  exists bv_ t,
    build_bv domain = Ok bv_ /\
    for_each (add_label (domain_stencil domain) bv_
                (match dico with Some d => d | None => [] end))
             (list_of_labels domain) empty_tables = Ok t /\
    instantiate (domain_stencil domain) t (class_ m) = Ok m.
Proof.
  unfold Boundary_init. intros H Hin.
  bind_inv H bv_ Hbv. bind_inv H t Ht. bind_inv H ms Hms.
  injection H as <-. simpl in Hin.
  destruct (mapM_In _ _ _ _ Hms Hin) as (k & _ & Hk).
  exists bv_, t. repeat split; auto.
  destruct (instantiate_fields _ _ _ _ Hk) as (<- & _). exact Hk.
Qed.

(** X17: every instance [Boundary] builds is well-shaped: [istore] has one
    row for the velocity and one per axis of the grid, at least one column,
    rows of equal length, and [ilabel], [distance], [rhs] and the rows of
    [feq] have one entry per column; no load table exists yet and the
    stencil is the one of the domain. *)
Theorem Boundary_init_aligned :
  forall domain dico b m,
    Boundary_init domain dico = Ok b -> In m (methods b) ->
    aligned (S (length (grid domain))) (istore m) (ilabel m) (distance m) /\
    length (rhs m) = Np.ncols (istore m) /\
    (forall row, In row (feq m) -> length row = Np.ncols (istore m)) /\
    iload m = [] /\ stencil m = domain_stencil domain.
Proof.
  intros domain dico b m H Hin.
  destruct (Boundary_init_spec _ _ _ H) as (blocks & Htr & _ & Hm).
  destruct (Hm m Hin) as (Hist & Hil & Hdi).
  destruct (Boundary_init_instance _ _ _ _ H Hin) as (bv_ & t & Hbv & _ & Hinst).
  unfold instantiate in Hinst.
  bind_inv Hinst is_ E1. bind_inv Hinst il E2. bind_inv Hinst di E3.
  destruct (Boundary_method_init_fields _ _ _ _ _ _ _ Hinst)
    as (_ & Hi & _ & _ & Hst & Hload & _ & Hrhs & (nv & Hfeq) & _).
  split; [|rewrite Hrhs, Hfeq, Hi, repeat_length; repeat split; auto;
           intros row Hrow; apply repeat_spec in Hrow; subst row;
           apply repeat_length].
  assert (Hblocks : forall b0, In b0 (blocks_of (class_ m) blocks) ->
            aligned (S (length (grid domain))) (istore_tmp b0) (ilabel_tmp b0)
              (distance_tmp b0)).
  { intros b0 Hb0. apply blocks_of_In in Hb0.
    destruct (traversal_block_origin _ _ _ _ _ Htr Hb0)
      as (bv' & label & e & ms & k & inumk & numk & Hbv' & _ & _ & _ & _ & _ & Hvb).
    eapply velocity_block_aligned; [|exact Hvb].
    apply build_bv_aligned. exact Hbv'. }
  rewrite Hil, Hdi.
  destruct (blocks_of (class_ m) blocks) as [|b0 bs]; [discriminate|].
  simpl in Hist. injection Hist as ->. simpl.
  apply fold_happ_aligned.
  - apply Hblocks. left. reflexivity.
  - intros b' Hb'. apply Hblocks. right. exact Hb'.
Qed.

Lemma Boundary_init_aligned_witness :
  aligned (S (length (grid domain_x))) (istore (line_point bounce_back))
    (ilabel (line_point bounce_back)) (distance (line_point bounce_back)) /\
  length (rhs (line_point bounce_back))
  = Np.ncols (istore (line_point bounce_back)) /\
  (forall row, In row (feq (line_point bounce_back)) ->
               length row = Np.ncols (istore (line_point bounce_back))) /\
  iload (line_point bounce_back) = [] /\
  stencil (line_point bounce_back) = domain_stencil domain_x.
Proof.
  apply (Boundary_init_aligned domain_x dico_x boundary_x
           (line_point bounce_back)).
  - reflexivity.
  - left. reflexivity.
Defined.

Lemma happ_column (T1 T2 : Np.table) j :
  length T1 = length T2 ->
  (forall row, In row T1 -> length row = Np.ncols T1) ->
  Np.column (happ T1 T2) j
  = if (j <? Np.ncols T1)%nat then Np.column T1 j
    else Np.column T2 (j - Np.ncols T1).
Proof.
  generalize (Np.ncols T1) as n. intros n. revert T2.
  induction T1 as [|r1 T1 IH]; intros T2 Hlen Hrows;
    destruct T2 as [|r2 T2]; simpl in Hlen; try discriminate.
  - destruct (j <? n)%nat; reflexivity.
  - unfold happ, Np.column in *. simpl.
    assert (Hr1 : length r1 = n) by (apply Hrows; left; reflexivity).
    specialize (IH T2 (f_equal pred Hlen)
                  (fun row H => Hrows row (or_intror H))).
    destruct (j <? n)%nat eqn:Ej.
    + apply Nat.ltb_lt in Ej. f_equal; [|exact IH].
      apply app_nth1. lia.
    + apply Nat.ltb_ge in Ej. f_equal; [|exact IH].
      rewrite app_nth2 by lia. rewrite Hr1. reflexivity.
Qed.

Lemma nth_error_app_split {A} (l1 l2 : list A) j :
  nth_error (l1 ++ l2) j
  = if (j <? length l1)%nat then nth_error l1 j
    else nth_error l2 (j - length l1).
Proof.
  destruct (j <? length l1)%nat eqn:Ej.
  - apply nth_error_app1. apply Nat.ltb_lt. exact Ej.
  - apply nth_error_app2. apply Nat.ltb_ge. exact Ej.
Qed.

Lemma fold_happ_column rows : forall bs T il di j,
  aligned rows T il di ->
  (forall b, In b bs ->
     aligned rows (istore_tmp b) (ilabel_tmp b) (distance_tmp b)) ->
  (j < Np.ncols (fold_left happ (map istore_tmp bs) T))%nat ->
  (Np.column (fold_left happ (map istore_tmp bs) T) j = Np.column T j /\
   nth_error (il ++ concat (map ilabel_tmp bs)) j = nth_error il j /\
   nth_error (di ++ concat (map distance_tmp bs)) j = nth_error di j /\
   (j < Np.ncols T)%nat) \/
  (exists b r,
     In b bs /\ (r < Np.ncols (istore_tmp b))%nat /\
     Np.column (fold_left happ (map istore_tmp bs) T) j
     = Np.column (istore_tmp b) r /\
     nth_error (il ++ concat (map ilabel_tmp bs)) j
     = nth_error (ilabel_tmp b) r /\
     nth_error (di ++ concat (map distance_tmp bs)) j
     = nth_error (distance_tmp b) r).
Proof.
  induction bs as [|b bs IH]; intros T il di j HT Hbs Hj; simpl in *.
  - left. rewrite !app_nil_r. auto.
  - assert (Hb : aligned rows (istore_tmp b) (ilabel_tmp b) (distance_tmp b))
      by (apply Hbs; left; reflexivity).
    pose proof (happ_aligned _ _ _ _ _ _ _ HT Hb) as HT'.
    rewrite !app_assoc.
    destruct (IH (happ T (istore_tmp b)) (il ++ ilabel_tmp b)
                (di ++ distance_tmp b) j HT'
                (fun b' H => Hbs b' (or_intror H)) Hj)
      as [(Hc & Hl & Hd & Hlt)|(b' & r & Hin & Hr & Hc & Hl & Hd)].
    + destruct HT as (Hr1 & Hp1 & Hrow1 & Hil1 & Hdi1).
      destruct Hb as (Hr2 & Hp2 & Hrow2 & Hil2 & Hdi2).
      destruct HT' as (_ & _ & _ & Hil' & _).
      rewrite <- Hil', length_app, Hil1, Hil2 in Hlt.
      rewrite Hc, Hl, Hd.
      rewrite (happ_column _ _ j (eq_trans Hr1 (eq_sym Hr2)) Hrow1).
      rewrite !nth_error_app_split, Hil1, Hdi1.
      destruct (j <? Np.ncols T)%nat eqn:Ej.
      * left. apply Nat.ltb_lt in Ej. auto.
      * right. apply Nat.ltb_ge in Ej.
        exists b, (j - Np.ncols T)%nat. repeat split; auto. lia.
    + right. exists b', r. repeat split; auto.
Qed.

Lemma enumerate_In {A} (l : list A) i x :
  In (i, x) (enumerate l) -> nth_error l i = Some x.
Proof.
  unfold enumerate.
  assert (H : forall s, In (i, x) (combine (seq s (length l)) l) ->
                        (s <= i)%nat /\ nth_error l (i - s) = Some x).
  { induction l as [|a l IH]; simpl; intros s Hin; [destruct Hin|].
    destruct Hin as [Heq|Hin].
    - injection Heq as -> ->. rewrite Nat.sub_diag. auto.
    - destruct (IH _ Hin) as (Hs & Hn). split; [lia|].
      replace (i - s)%nat with (S (i - S s)) by lia. exact Hn. }
  intros Hin. destruct (H 0%nat Hin) as (_ & Hn).
  rewrite Nat.sub_0_r in Hn. exact Hn.
Qed.

Lemma family_blocks_origin st bv label k v bs b :
  family_blocks st bv label (k, v) = Ok bs -> In (v, b) bs ->
  exists nums inumk numk,
    Np.getitem (num st) k = Ok nums /\ nth_error nums inumk = Some numk /\
    velocity_block st bv label k inumk numk = Ok (Some b).
Proof.
  unfold family_blocks. simpl. intros H Hin.
  bind_inv H nums Hnums. bind_inv H vss Hvss. injection H as <-.
  apply in_concat in Hin. destruct Hin as (vb & Hvb & Hin).
  destruct (mapM_In _ _ _ _ Hvss Hvb) as ([inumk numk] & Hen & Hob).
  simpl in Hob. bind_inv Hob ob Eob. injection Hob as <-.
  destruct ob as [b'|]; [|destruct Hin].
  destruct Hin as [Hin|[]]. injection Hin as <-.
  exists nums, inumk, numk. repeat split; auto.
  apply enumerate_In. exact Hen.
Qed.

Lemma traversal_family_origin domain dico blocks v b :
  traversal domain dico = Ok blocks -> In (v, b) blocks ->
  exists bv_ label e methods k bs,
    build_bv domain = Ok bv_ /\
    In label (list_of_labels domain) /\ reserved label = false /\
    dict_get (match dico with Some d => d | None => [] end) label = Some e /\
    entry_method e = Some methods /\ In (k, v) methods /\
    family_blocks (domain_stencil domain) bv_ label (k, v) = Ok bs /\
    In (v, b) bs.
Proof.
  unfold traversal. intros H Hin.
  bind_inv H bv_ Hbv. bind_inv H bss Hbss. injection H as <-.
  apply in_concat in Hin. destruct Hin as (bs & Hbs & Hin).
  destruct (mapM_In _ _ _ _ Hbss Hbs) as (label & Hlab & Hlabel).
  unfold label_blocks in Hlabel. fold (reserved label) in Hlabel.
  destruct (reserved label) eqn:Er.
  { injection Hlabel as <-. destruct Hin. }
  bind_inv Hlabel e He. bind_inv Hlabel ms Hms. bind_inv Hlabel fss Hfss.
  injection Hlabel as <-.
  apply in_concat in Hin. destruct Hin as (fb & Hfb & Hin).
  destruct (mapM_In _ _ _ _ Hfss Hfb) as ([k v'] & Hkv & Hfam).
  assert (v' = v).
  { unfold family_blocks in Hfam. simpl in Hfam.
    bind_inv Hfam nums Hnums. bind_inv Hfam vss Hvss. injection Hfam as <-.
    apply in_concat in Hin. destruct Hin as (vb & Hvb & Hin).
    destruct (mapM_In _ _ _ _ Hvss Hvb) as (en & _ & Hen).
    bind_inv Hen ob Hob. injection Hen as <-.
    destruct ob as [b'|]; [|destruct Hin].
    destruct Hin as [Hin|[]]. injection Hin as <- _. reflexivity. }
  subst v'. apply of_option_Ok in He, Hms.
  exists bv_, label, e, ms, k, fb. repeat split; auto.
Qed.

Lemma velocity_block_column st bv label k inumk numk b r :
  velocity_block st bv label k inumk numk = Ok (Some b) ->
  (r < Np.ncols (istore_tmp b))%nat ->
  exists recs i rec ptr,
    dict_get bv label = Some recs /\ unum2index st numk = Some i /\
    nth_error recs i = Some rec /\ Np.getitem (nv_ptr st) k = Ok ptr /\
    Np.column (istore_tmp b) r
    = (Z.of_nat inumk + ptr)%Z :: Np.column (bv_indices rec) r /\
    nth_error (ilabel_tmp b) r = Some label /\
    distance_tmp b = bv_distance rec.
Proof.
  unfold velocity_block. intros H Hr.
  bind_inv H bl Hbl. bind_inv H i Hi. bind_inv H rec Hrec.
  destruct (negb _) eqn:Es; [|discriminate].
  bind_inv H ptr Hptr. injection H as <-. simpl in *.
  rewrite repeat_length in Hr.
  apply of_option_Ok in Hbl, Hi. apply item_nth_error in Hrec.
  exists bl, i, rec, ptr. repeat split; auto.
  - unfold Np.column. simpl. f_equal.
    apply nth_error_nth. apply nth_error_repeat. exact Hr.
  - apply nth_error_repeat. exact Hr.
Qed.

(** X18: where a column of an instance comes from.  Its label is a label of
    the domain that is not reserved; the configuration gives the class of
    the instance to a velocity family of that label; the first entry of the
    column is the place of a velocity in that family plus the family's
    offset [nv_ptr]; the rest of the column and its distance are a column
    and the matching distance of the locator record of that label and
    velocity. *)
Theorem Boundary_init_column_origin :
  forall domain dico b m j l,
    Boundary_init domain dico = Ok b -> In m (methods b) ->
    nth_error (ilabel m) j = Some l ->
    exists e methods k nums inumk numk ptr recs i rec r,
      In l (list_of_labels domain) /\ reserved l = false /\
      dict_get (match dico with Some d => d | None => [] end) l = Some e /\
      entry_method e = Some methods /\ In (k, class_ m) methods /\
      Np.getitem (num (domain_stencil domain)) k = Ok nums /\
      nth_error nums inumk = Some numk /\
      Np.getitem (nv_ptr (domain_stencil domain)) k = Ok ptr /\
      dict_get (bv b) l = Some recs /\
      unum2index (domain_stencil domain) numk = Some i /\
      nth_error recs i = Some rec /\
      Np.column (istore m) j
      = (Z.of_nat inumk + ptr)%Z :: Np.column (bv_indices rec) r /\
      nth_error (distance m) j = nth_error (bv_distance rec) r.
Proof.
  intros domain dico b m j l H Hin Hj.
  destruct (Boundary_init_spec _ _ _ H) as (blocks & Htr & _ & Hm).
  destruct (Hm m Hin) as (Hist & Hil & Hdi).
  assert (Hbv : build_bv domain = Ok (bv b)).
  { unfold Boundary_init in H. bind_inv H bv_ Hbv. bind_inv H t Ht.
    bind_inv H ms Hms. injection H as <-. exact Hbv. }
  assert (Hblocks : forall b0, In b0 (blocks_of (class_ m) blocks) ->
            aligned (S (length (grid domain))) (istore_tmp b0) (ilabel_tmp b0)
              (distance_tmp b0)).
  { intros b0 Hb0. apply blocks_of_In in Hb0.
    destruct (traversal_block_origin _ _ _ _ _ Htr Hb0)
      as (bv' & label & e & ms & k & inumk & numk & Hbv' & _ & _ & _ & _ & _ & Hvb).
    eapply velocity_block_aligned; [|exact Hvb].
    apply build_bv_aligned. exact Hbv'. }
  assert (Hcol : exists b0 r,
             In b0 (blocks_of (class_ m) blocks) /\
             (r < Np.ncols (istore_tmp b0))%nat /\
             Np.column (istore m) j = Np.column (istore_tmp b0) r /\
             nth_error (ilabel m) j = nth_error (ilabel_tmp b0) r /\
             nth_error (distance m) j = nth_error (distance_tmp b0) r).
  { rewrite Hil, Hdi. rewrite Hil in Hj.
    destruct (blocks_of (class_ m) blocks) as [|b0 bs]; [discriminate|].
    simpl in Hist. injection Hist as ->. simpl in *.
    assert (H0 : aligned (S (length (grid domain))) (istore_tmp b0)
                   (ilabel_tmp b0) (distance_tmp b0))
      by (apply Hblocks; left; reflexivity).
    assert (Hlt : (j < Np.ncols (fold_left happ (map istore_tmp bs)
                                   (istore_tmp b0)))%nat).
    { destruct (fold_happ_aligned _ bs _ _ _ H0
                  (fun b' Hb' => Hblocks b' (or_intror Hb')))
        as (_ & _ & _ & Hlen & _).
      rewrite <- Hlen. apply nth_error_Some. congruence. }
    destruct (fold_happ_column _ bs _ _ _ j H0
                (fun b' Hb' => Hblocks b' (or_intror Hb')) Hlt)
      as [(Hc & Hl & Hd & Hlt0)|(b' & r & Hb' & Hr & Hc & Hl & Hd)].
    - exists b0, j. repeat split; auto.
    - exists b', r. repeat split; auto. }
  destruct Hcol as (b0 & r & Hb0 & Hr & Hc & Hl & Hd).
  apply blocks_of_In in Hb0.
  destruct (traversal_family_origin _ _ _ _ _ Htr Hb0)
    as (bv' & label & e & ms & k & bs & Hbv' & Hlab & Hres & He & Hms & Hk
        & Hfam & Hbs).
  assert (bv' = bv b) by congruence. subst bv'.
  destruct (family_blocks_origin _ _ _ _ _ _ _ Hfam Hbs)
    as (nums & inumk & numk & Hnums & Hnumk & Hvb).
  destruct (velocity_block_column _ _ _ _ _ _ _ _ Hvb Hr)
    as (recs & i & rec & ptr & Hrecs & Hi & Hrec & Hptr & Hcolb & Hlb & Hdb).
  assert (label = l) by congruence. subst label.
  exists e, ms, k, nums, inumk, numk, ptr, recs, i, rec, r.
  repeat split; auto; congruence.
Qed.

Lemma Boundary_init_column_origin_witness :
  exists e methods k nums inumk numk ptr recs i rec r,
    In 7%Z (list_of_labels domain_x) /\ reserved 7 = false /\
    dict_get (match dico_x with Some d => d | None => [] end) 7 = Some e /\
    entry_method e = Some methods /\
    In (k, class_ (line_point bounce_back)) methods /\
    Np.getitem (num (domain_stencil domain_x)) k = Ok nums /\
    nth_error nums inumk = Some numk /\
    Np.getitem (nv_ptr (domain_stencil domain_x)) k = Ok ptr /\
    dict_get (bv boundary_x) 7 = Some recs /\
    unum2index (domain_stencil domain_x) numk = Some i /\
    nth_error recs i = Some rec /\
    Np.column (istore (line_point bounce_back)) 0
    = (Z.of_nat inumk + ptr)%Z :: Np.column (bv_indices rec) r /\
    nth_error (distance (line_point bounce_back)) 0
    = nth_error (bv_distance rec) r.
Proof.
  apply (Boundary_init_column_origin domain_x dico_x boundary_x
           (line_point bounce_back) 0%nat 7%Z).
  - reflexivity.
  - left. reflexivity.
  - reflexivity.
Defined.

(** ** The forcing term again *)

Lemma assign_all_Ok dst src r :
  assign_all dst src = Ok r -> r = src /\ length src = length dst.
Proof.
  unfold assign_all. destruct (length dst =? length src)%nat eqn:E; [|discriminate].
  intros H. injection H as <-. apply Nat.eqb_eq in E. auto.
Qed.

Lemma assign_all_same src : assign_all src src = Ok src.
Proof. unfold assign_all. rewrite Nat.eqb_refl. reflexivity. Qed.

(** X19: [set_rhs] changes [rhs] and nothing else, keeps its length, and
    does not depend on what [rhs] held: a second call on the result gives
    the same instance again. *)
Theorem set_rhs_idempotent :
  forall self self1,
    set_rhs self = Ok self1 ->
    self1 = with_rhs self (rhs self1) /\
    length (rhs self1) = length (rhs self) /\
    set_rhs self1 = Ok self1.
Proof.
  intros self self1 H.
  destruct self as [c lg ist fq rh il di st ld vb ss].
  unfold set_rhs, bounce_back_set_rhs, anti_bounce_back_set_rhs,
    Neumann_set_rhs, with_rhs in *; simpl in *.
  destruct c;
    try (injection H as <-; simpl; repeat split; reflexivity);
    (bind_inv H k Ek; bind_inv H ksym Eks; bind_inv H a Ea; bind_inv H b Eb;
     bind_inv H x Ex; bind_inv H r Er; injection H as <-; simpl;
     apply assign_all_Ok in Er; destruct Er as (-> & Hlen);
     split; [reflexivity|]; split; [exact Hlen|];
     rewrite Ek; cbn [bind]; rewrite Eks; cbn [bind];
     rewrite Ea; cbn [bind]; rewrite Eb; cbn [bind];
     rewrite Ex; cbn [bind]; rewrite assign_all_same; reflexivity).
Qed.

Lemma set_rhs_idempotent_witness :
  sign_ready bounce_back (2 - 1)
  = with_rhs (sign_loaded bounce_back) (rhs (sign_ready bounce_back (2 - 1))) /\
  length (rhs (sign_ready bounce_back (2 - 1)))
  = length (rhs (sign_loaded bounce_back)) /\
  set_rhs (sign_ready bounce_back (2 - 1))
  = Ok (sign_ready bounce_back (2 - 1)).
Proof.
  apply (set_rhs_idempotent (sign_loaded bounce_back)
           (sign_ready bounce_back (2 - 1))).
  reflexivity.
Defined.

(** ** [update] twice, and when [update] succeeds *)

(** The values [update] writes, and that they only depend on what the load
    tables read. *)
Lemma update_values self f self' f' :
  update self f = Ok (self', f') ->
  exists xs,
    Field_setitem f (istore self) xs = Ok f' /\
    forall g,
      (forall i L, (i < 2)%nat -> nth_error (iload self) i = Some L ->
                   Field_getitem g L = Field_getitem f L) ->
      update self g = (g' <- Field_setitem g (istore self) xs ;; Ok (self, g')).
Proof.
  intros H.
  assert (Hget : forall g,
            (forall i L, (i < 2)%nat -> nth_error (iload self) i = Some L ->
                         Field_getitem g L = Field_getitem f L) ->
            forall i L, (i < 2)%nat -> Np.item (iload self) i = Ok L ->
                        Field_getitem g L = Field_getitem f L).
  { intros g Hg i L Hi HL. apply (Hg i L Hi). apply item_nth_error. exact HL. }
  unfold update, bounce_back_update, Bouzidi_bounce_back_update,
    anti_bounce_back_update, Bouzidi_anti_bounce_back_update, Neumann_update
    in *.
  destruct (class_ self); inv_binds; injection H as <- <-;
    (eexists; split; [eassumption|]; intros g Hg;
     repeat match goal with
       | E : Np.item (iload self) ?i = Ok ?L |- context [Np.item (iload self) ?i] =>
           rewrite E; cbn [bind];
           rewrite (Hget g Hg i L) by (lia || exact E)
       | E : ?c = Ok _ |- context [?c] => rewrite E; cbn [bind]
       end; reflexivity).
Qed.

Lemma scatter_twice ps xs d p :
  length ps = length xs ->
  scatter (scatter d ps xs) ps xs p = scatter d ps xs p.
Proof.
  intros Hl. destruct (in_dec (list_eq_dec Nat.eq_dec) p ps) as [Hin|Hin].
  - apply scatter_same_written; assumption.
  - rewrite scatter_frame by exact Hin. reflexivity.
Qed.

(** X20: when no entry of the field that the load tables address is one
    that [istore] addresses, a second [update] succeeds and leaves the field
    as the first left it. *)
Theorem update_twice :
  forall self f self1 f1,
    update self f = Ok (self1, f1) ->
    (forall i L p, (i < 2)%nat -> nth_error (iload self) i = Some L ->
                   addressed f L p -> ~ addressed f (istore self) p) ->
    exists f2,
      update self1 f1 = Ok (self1, f2) /\
      shape f2 = shape f1 /\ forall p, data f2 p = data f1 p.
Proof.
  intros self f self1 f1 H Hdis.
  destruct (update_self _ _ _ _ H) as (-> & _).
  destruct (update_values _ _ _ _ H) as (xs & Hset & Hg).
  pose proof (Field_setitem_shape _ _ _ _ Hset) as Hs.
  rewrite (Hg f1).
  - unfold Field_setitem in *. rewrite Hs.
    destruct (mapM (norm_multi (shape f)) (Np.columns (istore self)))
      as [ps|e]; [|discriminate].
    cbn [bind] in *.
    destruct (Nat.eqb_spec (length ps) (length xs)) as [Hl|Hl]; [|discriminate].
    injection Hset as <-. simpl. eexists. split; [reflexivity|].
    split; [reflexivity|]. simpl. intros p. apply scatter_twice. exact Hl.
  - intros i L Hi HL. apply Field_getitem_agree; [exact Hs|].
    intros c q Hc Hq. rewrite Hs in Hq.
    apply (Field_setitem_frame _ _ _ _ _ Hset).
    intros c' Hc' Hq'.
    apply (Hdis i L q Hi HL); [exists c | exists c']; auto.
Qed.

Lemma update_twice_witness :
  exists f2,
    update loaded_point field1 = Ok (loaded_point, f2) /\
    shape f2 = shape field1 /\ forall p, data f2 p = data field1 p.
Proof.
  apply (update_twice loaded_point field0 loaded_point field1).
  - reflexivity.
  - intros i L p Hi HL (c & Hc & Hp) (c' & Hc' & Hp').
    destruct i as [|[|i]]; simpl in HL; try discriminate.
    injection HL as <-. simpl in Hc, Hc'.
    destruct Hc as [<-|[]]. destruct Hc' as [<-|[]].
    vm_compute in Hp, Hp'. congruence.
Defined.

Lemma Field_getitem_targets f t ps :
  targets f t = Ok ps -> Field_getitem f t = Ok (map (data f) ps).
Proof.
  unfold targets, Field_getitem. generalize (Np.columns t) as cs.
  intros cs. revert ps.
  induction cs as [|c cs IH]; simpl; intros ps H.
  - injection H as <-. reflexivity.
  - bind_inv H p Ep. bind_inv H ps' Eps. injection H as <-.
    rewrite Ep. cbn [bind]. rewrite (IH _ Eps). reflexivity.
Qed.

Lemma targets_length f t ps : targets f t = Ok ps -> length ps = Np.ncols t.
Proof.
  unfold targets. intros H. rewrite (mapM_length _ _ _ H).
  apply columns_length.
Qed.

Lemma zip_total {A B C} (g : A -> B -> C) (a : list A) (b : list B) :
  length a = length b ->
  exists c, zipWithM (fun x y => Ok (g x y)) a b = Ok c /\ length c = length a.
Proof.
  intros H. destruct (zipWithM_total g a b H) as (c & Hc).
  exists c. split; [exact Hc|].
  destruct (zipWithM_length _ _ _ _ Hc) as (<- & _). reflexivity.
Qed.

Lemma Field_setitem_total f t xs ps :
  targets f t = Ok ps -> length xs = Np.ncols t ->
  exists f', Field_setitem f t xs = Ok f'.
Proof.
  intros Ht Hl. pose proof (targets_length _ _ _ Ht) as Hps.
  unfold Field_setitem. unfold targets in Ht. rewrite Ht. cbn [bind].
  replace (length ps =? length xs)%nat with true
    by (symmetry; apply Nat.eqb_eq; congruence).
  eauto.
Qed.

(** X21: [update] succeeds, and returns the instance it was called on,
    whenever the load tables it reads exist, have as many columns as
    [istore], and address, like [istore], entries inside the field, and
    [rhs] and [s] have one entry per column. *)
Theorem update_succeeds :
  forall self f ps,
    targets f (istore self) = Ok ps ->
    (loads (class_ self) <= length (iload self))%nat ->
    (forall i L, (i < loads (class_ self))%nat ->
                 nth_error (iload self) i = Some L ->
                 Np.ncols L = Np.ncols (istore self) /\
                 exists qs, targets f L = Ok qs) ->
    length (rhs self) = Np.ncols (istore self) ->
    length (s self) = Np.ncols (istore self) ->
    exists f', update self f = Ok (self, f').
Proof.
  intros self f ps Hps Hn Hloads Hrhs Hs.
  assert (Hread : forall i, (i < loads (class_ self))%nat ->
            exists L a, Np.item (iload self) i = Ok L /\
                        Field_getitem f L = Ok a /\
                        length a = Np.ncols (istore self)).
  { intros i Hi.
    destruct (nth_error (iload self) i) as [L|] eqn:EL;
      [|apply nth_error_None in EL; lia].
    destruct (Hloads i L Hi EL) as (Hc & qs & Hqs).
    exists L, (map (data f) qs). unfold Np.item. rewrite EL.
    split; [reflexivity|]. split; [apply Field_getitem_targets; exact Hqs|].
    rewrite length_map, (targets_length _ _ _ Hqs). exact Hc. }
  unfold update, bounce_back_update, Bouzidi_bounce_back_update,
    anti_bounce_back_update, Bouzidi_anti_bounce_back_update, Neumann_update,
    vadd, vmul.
  unfold loads in Hread.
  destruct (class_ self); simpl in Hread;
    (destruct (Hread 0%nat) as (L0 & a & E0 & Ea & Ha); [lia|]);
    rewrite E0; cbn [bind]; rewrite Ea; cbn [bind].
  - destruct (zip_total Rplus a (rhs self)) as (x & -> & Hx); [congruence|].
    cbn [bind].
    destruct (Field_setitem_total f (istore self) x ps Hps) as (f' & ->);
      [congruence|]. cbn [bind]. eauto.
  - destruct (Hread 1%nat) as (L1 & b & E1 & Eb & Hb); [lia|].
    destruct (zip_total Rmult (s self) a) as (sa & -> & Hsa); [congruence|].
    cbn [bind]. rewrite E1. cbn [bind]. rewrite Eb. cbn [bind].
    destruct (zip_total Rmult (map (fun x => (1 - x)%R) (s self)) b)
      as (sb & -> & Hsb); [rewrite length_map; congruence|].
    cbn [bind]. rewrite length_map in Hsb.
    destruct (zip_total Rplus sa sb) as (y & -> & Hy); [congruence|].
    cbn [bind].
    destruct (zip_total Rplus y (rhs self)) as (x & -> & Hx); [congruence|].
    cbn [bind].
    destruct (Field_setitem_total f (istore self) x ps Hps) as (f' & ->);
      [congruence|]. cbn [bind]. eauto.
  - destruct (zip_total Rplus (map Ropp a) (rhs self)) as (x & -> & Hx);
      [rewrite length_map; congruence|].
    cbn [bind]. rewrite length_map in Hx.
    destruct (Field_setitem_total f (istore self) x ps Hps) as (f' & ->);
      [congruence|]. cbn [bind]. eauto.
  - destruct (Hread 1%nat) as (L1 & b & E1 & Eb & Hb); [lia|].
    destruct (zip_total Rmult (map Ropp (s self)) a) as (sa & -> & Hsa);
      [rewrite length_map; congruence|].
    cbn [bind]. rewrite length_map in Hsa.
    rewrite E1. cbn [bind]. rewrite Eb. cbn [bind].
    destruct (zip_total Rmult (map (fun x => (x - 1)%R) (s self)) b)
      as (sb & -> & Hsb); [rewrite length_map; congruence|].
    cbn [bind]. rewrite length_map in Hsb.
    destruct (zip_total Rplus sa sb) as (y & -> & Hy); [congruence|].
    cbn [bind].
    destruct (zip_total Rplus y (rhs self)) as (x & -> & Hx); [congruence|].
    cbn [bind].
    destruct (Field_setitem_total f (istore self) x ps Hps) as (f' & ->);
      [congruence|]. cbn [bind]. eauto.
  - destruct (Field_setitem_total f (istore self) a ps Hps) as (f' & ->);
      [congruence|]. cbn [bind]. eauto.
  - destruct (Field_setitem_total f (istore self) a ps Hps) as (f' & ->);
      [congruence|]. cbn [bind]. eauto.
  - destruct (Field_setitem_total f (istore self) a ps Hps) as (f' & ->);
      [congruence|]. cbn [bind]. eauto.
  - destruct (Field_setitem_total f (istore self) a ps Hps) as (f' & ->);
      [congruence|]. cbn [bind]. eauto.
Qed.

Lemma update_succeeds_witness :
  exists f', update Bouzidi_ready field0 = Ok (Bouzidi_ready, f').
Proof.
  apply (update_succeeds Bouzidi_ready field0 [[0; 5; 5; 5]%nat]).
  - reflexivity.
  - unfold loads. simpl. lia.
  - intros i L Hi HL.
    destruct i as [|[|i]]; [| |unfold loads in Hi; simpl in Hi; lia];
      simpl in HL; injection HL as <-; (split; [reflexivity|]);
      eexists; reflexivity.
  - reflexivity.
  - reflexivity.
Defined.

(** ** More on [Boundary] *)

(** X22: when every label of the domain is reserved (periodic or
    interface) and the locator pass succeeds, [Boundary] is built with no
    instance at all, whatever the configuration holds, even none. *)
Theorem Boundary_init_all_reserved :
  forall domain dico bv_,
    (forall l, In l (list_of_labels domain) -> reserved l = true) ->
    build_bv domain = Ok bv_ ->
    Boundary_init domain dico = Ok (mkBoundary bv_ []).
Proof.
  intros domain dico bv_ Hres Hbv.
  unfold Boundary_init. rewrite Hbv. cbn [bind].
  rewrite for_each_skip_reserved.
  replace (filter (fun l => negb (reserved l)) (list_of_labels domain))
    with (@nil Z).
  - reflexivity.
  - symmetry. induction (list_of_labels domain) as [|l ls IH]; [reflexivity|].
    simpl. rewrite (Hres l) by (left; reflexivity). simpl.
    apply IH. intros l' Hl'. apply Hres. right. exact Hl'.
Qed.

Lemma Boundary_init_all_reserved_witness :
  Boundary_init domain_periodic None = Ok (mkBoundary bv_periodic []).
Proof.
  apply (Boundary_init_all_reserved domain_periodic None bv_periodic).
  - intros l [<-|[<-|[]]]; reflexivity.
  - reflexivity.
Defined.

Lemma store_block_value_bc v t b t' :
  store_block v t b = Ok t' -> t_value_bc t' = t_value_bc t.
Proof.
  unfold store_block. destruct (cdict_get (t_istore t) v); intros H.
  - bind_inv H new En. bind_inv H il Eil. bind_inv H di Edi.
    injection H as <-. reflexivity.
  - injection H as <-. reflexivity.
Qed.

Lemma for_each_keeps {St X V} (proj : St -> V) (body : St -> X -> result St) :
  (forall s x s', body s x = Ok s' -> proj s' = proj s) ->
  forall l s s', for_each body l s = Ok s' -> proj s' = proj s.
Proof.
  intros Hb. induction l as [|x l IH]; simpl; intros s s' H.
  - injection H as <-. reflexivity.
  - bind_inv H s1 E1. rewrite (IH _ _ H). eapply Hb; eauto.
Qed.

Lemma add_family_value_bc st bv label t kv t' :
  add_family st bv label t kv = Ok t' -> t_value_bc t' = t_value_bc t.
Proof.
  unfold add_family. destruct kv as [k v]. intros H.
  bind_inv H nums En.
  apply (for_each_keeps t_value_bc _) in H; [exact H|].
  intros s x s' Hs. unfold add_velocity in Hs.
  bind_inv Hs ob Eob. destruct ob as [b|].
  - eapply store_block_value_bc; eauto.
  - injection Hs as <-. reflexivity.
Qed.

Lemma add_label_value_bc st bv dico_bound t label t' l x :
  add_label st bv dico_bound t label = Ok t' ->
  dict_get (t_value_bc t') l = Some x ->
  dict_get (t_value_bc t) l = Some x \/
  exists e, dict_get dico_bound l = Some e /\
            x = match entry_value e with Some y => y | None => VNone end.
Proof.
  unfold add_label. intros H Hx.
  destruct (label =? -1)%Z; [injection H as <-; auto|].
  destruct (label =? -2)%Z; [injection H as <-; auto|].
  bind_inv H e He. bind_inv H ms Hms. apply of_option_Ok in He.
  apply (for_each_keeps t_value_bc _) in H;
    [|intros s0 x0 s0'; apply add_family_value_bc].
  simpl in H. rewrite H, dict_get_set in Hx.
  destruct (Z.eqb_spec label l) as [->|Hne]; [|auto].
  injection Hx as <-. right. eauto.
Qed.

Lemma Boundary_method_init_lookup c ist il di st vbc self k :
  Boundary_method_init c ist il di st vbc = Ok self -> In k il ->
  exists x, dict_get vbc k = Some x /\ dict_get (value_bc self) k = Some x.
Proof.
  intros H Hin. unfold Boundary_method_init in H.
  bind_inv H nv Env. bind_inv H fq Efq. bind_inv H r Er.
  injection H as <-. simpl.
  pose proof (mapM_keys _ _ _ Er) as Hk.
  apply unique_In in Hin. rewrite <- Hk in Hin.
  apply in_map_iff in Hin. destruct Hin as ([k' x] & Hfst & Hin).
  simpl in Hfst. subst k'. exists x. split.
  - destruct (mapM_In _ _ _ _ Er Hin) as (k0 & _ & Hf).
    bind_inv Hf x0 Ex0. injection Hf as -> ->.
    apply of_option_Ok in Ex0. exact Ex0.
  - apply dict_get_sorted; [|exact Hin]. rewrite Hk. apply unique_sorted.
Qed.

(** X23: in every instance [Boundary] builds, each label of a column has an
    entry in the instance's own dictionary of values, and that entry is the
    ['value'] the configuration gives for the label, [None] when it gives
    none. *)
Theorem Boundary_init_value_bc :
  forall domain dico b m l,
    Boundary_init domain dico = Ok b -> In m (methods b) -> In l (ilabel m) ->
    exists e,
      dict_get (match dico with Some d => d | None => [] end) l = Some e /\
      dict_get (value_bc m) l
      = Some (match entry_value e with Some y => y | None => VNone end).
Proof.
  intros domain dico b m l H Hin Hl.
  destruct (Boundary_init_instance _ _ _ _ H Hin) as (bv_ & t & Hbv & Ht & Hinst).
  unfold instantiate in Hinst.
  bind_inv Hinst is_ E1. bind_inv Hinst il E2. bind_inv Hinst di E3.
  destruct (Boundary_method_init_fields _ _ _ _ _ _ _ Hinst)
    as (_ & _ & Hil & _).
  rewrite Hil in Hl.
  destruct (Boundary_method_init_lookup _ _ _ _ _ _ _ _ Hinst Hl)
    as (x & Hx & Hm).
  rewrite Hm.
  assert (Hinv : forall labels t0 t1,
            for_each (add_label (domain_stencil domain) bv_
                        (match dico with Some d => d | None => [] end))
                     labels t0 = Ok t1 ->
            dict_get (t_value_bc t1) l = Some x ->
            dict_get (t_value_bc t0) l = Some x \/
            exists e,
              dict_get (match dico with Some d => d | None => [] end) l = Some e /\
              x = match entry_value e with Some y => y | None => VNone end).
  { induction labels as [|lab labels IH]; simpl; intros t0 t1 Hf Hget.
    - injection Hf as <-. auto.
    - bind_inv Hf t' Et'. destruct (IH _ _ Hf Hget) as [Hold|Hnew]; [|auto].
      eapply add_label_value_bc; eauto. }
  destruct (Hinv _ _ _ Ht Hx) as [Hold|(e & He & ->)]; [discriminate|].
  exists e. auto.
Qed.

Lemma Boundary_init_value_bc_witness :
  exists e,
    dict_get (match dico_x with Some d => d | None => [] end) 7 = Some e /\
    dict_get (value_bc (line_point bounce_back)) 7
    = Some (match entry_value e with Some y => y | None => VNone end).
Proof.
  apply (Boundary_init_value_bc domain_x dico_x boundary_x
           (line_point bounce_back) 7%Z).
  - reflexivity.
  - left. reflexivity.
  - left. reflexivity.
Defined.

(** ** When [set_iload] succeeds *)

Lemma compress_total {A} : forall mask (a : list A),
  length mask = length a ->
  exists r, Np.compress mask a = Ok r /\ length r = ntrue mask /\
            forall x, In x r -> In x a.
Proof.
  induction mask as [|m mask IH]; intros [|x a] H; simpl in H; try discriminate.
  - exists []. repeat split; auto.
  - destruct (IH a) as (r & Hr & Hl & Hin); [lia|].
    simpl. rewrite Hr. cbn [bind]. unfold ntrue in *.
    destruct m; simpl; eexists; (split; [reflexivity|]); split;
      simpl; try lia; intros y Hy; simpl in Hy; intuition.
Qed.

Lemma mask_assign_total {A} : forall (dst : list A) mask src,
  length dst = length mask -> length src = ntrue mask ->
  exists r, Np.mask_assign dst mask src = Ok r /\ length r = length dst.
Proof.
  induction dst as [|d dst IH]; intros [|m mask] src H Hs; simpl in H;
    try discriminate.
  - destruct src; [|discriminate]. exists []. auto.
  - unfold ntrue in *. simpl. destruct m; simpl in Hs.
    + destruct src as [|x src]; [discriminate|].
      destruct (IH mask src) as (r & -> & Hl); [lia | simpl in Hs; lia|].
      cbn [bind]. eexists. split; [reflexivity|]. simpl. lia.
    + destruct (IH mask src) as (r & -> & Hl); [lia | exact Hs|].
      cbn [bind]. eexists. split; [reflexivity|]. simpl. lia.
Qed.

Lemma getitem_total {A} (a : list A) i :
  (0 <= i < Z.of_nat (length a))%Z -> exists x, Np.getitem a i = Ok x.
Proof.
  intros H. unfold Np.getitem, Np.norm_index.
  replace ((0 <=? i)%Z && (i <? Z.of_nat (length a))%Z) with true
    by (symmetry; apply andb_true_iff; split;
        [apply Z.leb_le | apply Z.ltb_lt]; lia).
  cbn [bind].
  destruct (nth_error a (Z.to_nat i)) as [x|] eqn:E; [simpl; eauto|].
  apply nth_error_None in E. lia.
Qed.

Lemma take_total {A} (a : list A) : forall k,
  (forall kj, In kj k -> (0 <= kj < Z.of_nat (length a))%Z) ->
  exists r, Np.take a k = Ok r /\ length r = length k.
Proof.
  intros k Hk. unfold Np.take.
  destruct (mapM_total (Np.getitem a) k) as (r & Hr).
  - intros kj Hkj. apply getitem_total. auto.
  - exists r. split; [exact Hr|]. eapply mapM_length; eauto.
Qed.

Lemma zipWithM_total_in {A B C} (f : A -> B -> result C) : forall a b,
  length a = length b ->
  (forall x y, In x a -> In y b -> exists z, f x y = Ok z) ->
  exists c, zipWithM f a b = Ok c.
Proof.
  induction a as [|x a IH]; intros [|y b] H Hf; simpl in H; try discriminate.
  - exists []. reflexivity.
  - simpl. destruct (Hf x y) as (z & ->); [left; auto | left; auto|].
    destruct (IH b) as (c & ->); [lia| |cbn [bind]; eauto].
    intros x' y' Hx Hy. apply Hf; right; assumption.
Qed.

Lemma zipWithM_rows {A B C} (f : A -> B -> result (list C)) n : forall a b c,
  zipWithM f a b = Ok c ->
  (forall x y z, In x a -> f x y = Ok z -> length z = n) ->
  forall row, In row c -> length row = n.
Proof.
  induction a as [|x a IH]; intros [|y b] c H Hf row Hrow; simpl in H;
    try discriminate.
  - injection H as <-. destruct Hrow.
  - bind_inv H z Ez. bind_inv H c' Ec. injection H as <-.
    destruct Hrow as [<-|Hrow].
    + eapply Hf; [left; reflexivity | exact Ez].
    + eapply (IH _ _ Ec); [|exact Hrow].
      intros x' y' z' Hx'. apply Hf. right. exact Hx'.
Qed.

Lemma add1_total a b :
  length a = length b ->
  exists c, Np.add1 a b = Ok c /\ length c = length a.
Proof. intros H. unfold Np.add1. apply zip_total. exact H. Qed.

Lemma add2_total r n (a b : Np.table) :
  rect r n a -> rect r n b ->
  exists c, Np.add2 a b = Ok c /\ rect r n c.
Proof.
  intros (Ha & Hra) (Hb & Hrb). unfold Np.add2.
  destruct (zipWithM_total_in Np.add1 a b) as (c & Hc); [congruence| |].
  - intros x y Hx Hy. destruct (add1_total x y) as (z & Hz & _); [|eauto].
    rewrite (Hra x Hx), (Hrb y Hy). reflexivity.
  - exists c. split; [exact Hc|]. split.
    + destruct (zipWithM_length _ _ _ _ Hc) as (<- & _). exact Ha.
    + apply (zipWithM_rows Np.add1 n _ _ _ Hc).
      intros x y z Hx Hz. unfold Np.add1 in Hz.
      destruct (zipWithM_length _ _ _ _ Hz) as (<- & _). auto.
Qed.

Lemma transpose_rect d (vk : Np.table) : rect d (length vk) (Np.transpose d vk).
Proof.
  unfold Np.transpose. split; [rewrite length_map, length_seq; reflexivity|].
  intros row H. apply in_map_iff in H. destruct H as (i & <- & _).
  apply length_map.
Qed.

Lemma scale2_rect c r n (a : Np.table) : rect r n a -> rect r n (Np.scale2 c a).
Proof.
  intros (Ha & Hr). unfold Np.scale2. split; [rewrite length_map; exact Ha|].
  intros row H. apply in_map_iff in H. destruct H as (x & <- & Hx).
  rewrite length_map. auto.
Qed.

Lemma compress_rows_total mask r (rows : Np.table) :
  rect r (length mask) rows ->
  exists rows_m, mapM (Np.compress mask) rows = Ok rows_m /\
                 rect r (ntrue mask) rows_m.
Proof.
  intros (Hr & Hrows).
  destruct (mapM_total (Np.compress mask) rows) as (rows_m & Hm).
  - intros x Hx. destruct (compress_total mask x) as (y & Hy & _); [|eauto].
    symmetry. auto.
  - exists rows_m. split; [exact Hm|]. split.
    + rewrite (mapM_length _ _ _ Hm). exact Hr.
    + intros row Hrow. destruct (mapM_In _ _ _ _ Hm Hrow) as (x & Hx & Hc).
      destruct (compress_total mask x) as (y & Hy & Hl & _);
        [symmetry; auto|].
      congruence.
Qed.

Lemma mask_assign_row0_total (t : Np.table) mask src r0 rest :
  t = r0 :: rest -> length r0 = length mask -> length src = ntrue mask ->
  exists r0', mask_assign_row0 t mask src = Ok (r0' :: rest) /\
              length r0' = length r0.
Proof.
  intros -> Hl Hs. simpl.
  destruct (mask_assign_total r0 mask src Hl Hs) as (r & -> & Hr).
  cbn [bind]. eauto.
Qed.

Lemma mask_assign_rows1_total r0 (rest : Np.table) mask (src : Np.table) r :
  rect r (length mask) rest -> rect r (ntrue mask) src ->
  exists rest', mask_assign_rows1 (r0 :: rest) mask src = Ok (r0 :: rest') /\
                rect r (length mask) rest'.
Proof.
  intros (Hr & Hrows) (Hs & Hsrc). simpl.
  destruct (zipWithM_total_in (fun r x => Np.mask_assign r mask x) rest src)
    as (c & Hc); [congruence| |].
  - intros x y Hx Hy.
    destruct (mask_assign_total x mask y) as (z & Hz & _); eauto.
  - rewrite Hc. cbn [bind]. exists c. split; [reflexivity|]. split.
    + destruct (zipWithM_length _ _ _ _ Hc) as (<- & _). exact Hr.
    + apply (zipWithM_rows (fun r x => Np.mask_assign r mask x) _ _ _ _ Hc).
      intros x y z Hx Hz. rewrite (mask_assign_length _ _ _ _ Hz). auto.
Qed.

Ltac solve_len :=
  unfold Np.logical_not; rewrite ?length_map in *; (congruence || lia).

Ltac run_compress :=
  match goal with
  | |- exists _, bind (Np.compress ?m ?a) _ = _ =>
      let r := fresh "c" in
      let E := fresh "E" in
      let Hl := fresh "Hl" in
      let Hin := fresh "Hin" in
      destruct (compress_total m a) as (r & E & Hl & Hin);
      [solve_len | rewrite E; cbn [bind]]
  end.

Ltac run_row0 :=
  match goal with
  | |- exists _, bind (mask_assign_row0 (?r0 :: ?rest) ?m ?src) _ = _ =>
      let r := fresh "a" in
      let E := fresh "E" in
      let Hl := fresh "Hl" in
      destruct (mask_assign_row0_total (r0 :: rest) m src r0 rest eq_refl)
        as (r & E & Hl);
      [solve_len | solve_len | rewrite E; cbn [bind]]
  end.

Ltac run_rows1 d :=
  match goal with
  | |- exists _, bind (mask_assign_rows1 (?r0 :: ?rest) ?m ?src) _ = _ =>
      let r := fresh "t" in
      let E := fresh "E" in
      let Hl := fresh "Hr" in
      destruct (mask_assign_rows1_total r0 rest m src d) as (r & E & Hl);
      [ | | rewrite E; cbn [bind]]
  end.

Ltac run_rows m d :=
  match goal with
  | |- exists _, bind (mapM (Np.compress m) ?rows) _ = _ =>
      let r := fresh "rows_m" in
      let E := fresh "E" in
      let Hl := fresh "Hr" in
      destruct (compress_rows_total m d rows) as (r & E & Hl);
      [ | rewrite E; cbn [bind]]
  end.

Ltac run_take :=
  match goal with
  | |- exists _, bind (Np.take ?a ?k) _ = _ =>
      let r := fresh "vk" in
      let E := fresh "E" in
      let Hl := fresh "Hl" in
      destruct (take_total a k) as (r & E & Hl);
      [ | rewrite E; cbn [bind]]
  end.

Ltac run_add2 d n :=
  match goal with
  | |- exists _, bind (Np.add2 ?a ?b) _ = _ =>
      let r := fresh "x" in
      let E := fresh "E" in
      let Hl := fresh "Hx" in
      destruct (add2_total d n a b) as (r & E & Hl);
      [ | | rewrite E; cbn [bind]]
  end.

Ltac run_assign :=
  match goal with
  | |- exists _, bind (Np.mask_assign ?dst ?m ?src) _ = _ =>
      let r := fresh "s" in
      let E := fresh "E" in
      let Hl := fresh "Hl" in
      destruct (mask_assign_total dst m src) as (r & E & Hl);
      [solve_len | solve_len | rewrite E; cbn [bind]]
  end.

Lemma rect_resize {A} r n n' (T : list (list A)) :
  n = n' -> rect r n T -> rect r n' T.
Proof. intros <-. auto. Qed.

(** X24: [set_iload] succeeds on a well-shaped instance: [istore] with one
    row more than the stencil has dimensions and rows of equal length, one
    distance and one weight per column, velocity indices in the first row
    that the tables of the stencil hold, and, for the class restricted to
    an axis, a stencil that has that axis. *)
Theorem set_iload_succeeds :
  forall self,
    aligned (S (dim (stencil self))) (istore self) (ilabel self) (distance self) ->
    (forall kj, In kj (hd [] (istore self)) ->
       (0 <= kj < Z.of_nat (length (get_symmetric (stencil self))))%Z /\
       (kj < Z.of_nat (length (get_all_velocities (stencil self))))%Z) ->
    length (s self) = Np.ncols (istore self) ->
    (axes_needed (class_ self) <= dim (stencil self))%nat ->
    exists self1, set_iload self = Ok self1.
Proof.
  intros self (Hrows & Hpos & Hrow & Hil & Hdi) Hk Hs Hax.
  destruct (istore self) as [|k rest] eqn:Eist; [discriminate|].
  simpl in Hrows, Hpos, Hrow, Hil, Hdi, Hk, Hs.
  set (d := dim (stencil self)) in *.
  set (v := get_all_velocities (stencil self)) in *.
  assert (Hrest : rect d (length k) rest).
  { split; [lia|]. intros row H. apply Hrow. right. exact H. }
  assert (Hkv : forall kj, In kj k -> (0 <= kj < Z.of_nat (length v))%Z).
  { intros kj H. destruct (Hk kj H). lia. }
  destruct (take_total (get_symmetric (stencil self)) k) as (ksym & Eksym & Hlksym).
  { intros kj H. apply (Hk kj H). }
  destruct (take_total v k Hkv) as (vk & Evk & Hlvk).
  pose proof (transpose_rect d vk) as Htr. rewrite Hlvk in Htr.
  destruct (add2_total _ _ rest _ Hrest Htr) as (ind & Eind & Hind).
  assert (Hitem : forall (T : Np.table) i, (i < d)%nat -> rect d (length k) T ->
            exists row, Np.item T i = Ok row /\ length row = length k).
  { intros T i Hi (HT & HTr). unfold Np.item.
    destruct (nth_error T i) as [row|] eqn:E;
      [|apply nth_error_None in E; lia].
    exists row. split; [reflexivity|]. apply HTr. eapply nth_error_In; eauto. }
  assert (Hiadd : forall r c, (r < d)%nat -> (c < d)%nat ->
            exists T, iadd_row rest r (Np.transpose d vk) c = Ok T).
  { intros r c Hr Hc. unfold iadd_row.
    destruct (Hitem rest r Hr Hrest) as (old & -> & Hold).
    destruct (Hitem _ c Hc Htr) as (inc & -> & Hinc). cbn [bind].
    destruct (add1_total old inc) as (new & -> & _); [congruence|].
    cbn [bind]. eauto. }
  unfold set_iload, bounce_back_set_iload, Bouzidi_bounce_back_set_iload,
    Neumann_set_iload, Neumann_x_set_iload, Neumann_y_set_iload,
    Neumann_z_set_iload.
  rewrite Eist. fold d. fold v.
  change (Np.item (k :: rest) 0) with (Ok (A:=list Z) k).
  change (tl (k :: rest)) with rest. cbn [bind].
  assert (Hbouzidi :
    exists self1,
      (ksym <- Np.take (get_symmetric (stencil self)) k ;;
       let mask := map (fun x => Rltb x (1/2)) (distance self) in
       ksym_m <- Np.compress mask ksym ;;
       iload1 <- mask_assign_row0 (Np.zeros_like (k :: rest)) mask ksym_m ;;
       iload2 <- mask_assign_row0 (Np.zeros_like (k :: rest)) mask ksym_m ;;
       istore_m <- mapM (Np.compress mask) rest ;;
       k_m <- Np.compress mask k ;;
       vk_m <- Np.take v k_m ;;
       x1 <- Np.add2 istore_m (Np.transpose d vk_m) ;;
       iload1 <- mask_assign_rows1 iload1 mask x1 ;;
       x2 <- Np.add2 istore_m (Np.scale2 2 (Np.transpose d vk_m)) ;;
       iload2 <- mask_assign_rows1 iload2 mask x2 ;;
       dist_m <- Np.compress mask (distance self) ;;
       s1 <- Np.mask_assign (s self) mask (map (fun x => 2 * x)%R dist_m) ;;
       let mask := Np.logical_not mask in
       ksym_m <- Np.compress mask ksym ;;
       iload1 <- mask_assign_row0 iload1 mask ksym_m ;;
       k_m <- Np.compress mask k ;;
       iload2 <- mask_assign_row0 iload2 mask k_m ;;
       istore_m <- mapM (Np.compress mask) rest ;;
       vk_m <- Np.take v k_m ;;
       x1 <- Np.add2 istore_m (Np.transpose d vk_m) ;;
       iload1 <- mask_assign_rows1 iload1 mask x1 ;;
       iload2 <- mask_assign_rows1 iload2 mask x1 ;;
       dist_m <- Np.compress mask (distance self) ;;
       s2 <- Np.mask_assign s1 mask (map (fun x => (1/2) / x)%R dist_m) ;;
       Ok (with_s (with_iload self (iload self ++ [iload1; iload2])) s2))
      = Ok self1).
  { rewrite Eksym. cbn [bind]. cbv zeta.
    set (mask := map (fun x => Rltb x (1/2)) (distance self)).
    assert (Hmask : length mask = length k)
      by (unfold mask; rewrite length_map; congruence).
    assert (Hnot : length (Np.logical_not mask) = length k)
      by (unfold Np.logical_not; rewrite length_map; exact Hmask).
    assert (Hzrest : rect d (length mask)
                       (map (map (fun _ : Z => 0%Z)) rest)).
    { destruct Hrest as (Hr1 & Hr2). split; [rewrite length_map; exact Hr1|].
      intros row H. apply in_map_iff in H. destruct H as (x & <- & Hx).
      rewrite length_map, Hmask. auto. }
    change (Np.zeros_like (k :: rest))
      with (map (fun _ : Z => 0%Z) k :: map (map (fun _ : Z => 0%Z)) rest).
    run_compress. run_row0.
    run_rows mask d.
    { eapply rect_resize; [|exact Hrest]. congruence. }
    run_compress. run_take.
    { intros kj H. apply Hkv. auto. }
    pose proof (transpose_rect d vk0) as Htr0.
    run_add2 d (ntrue mask).
    { exact Hr. }
    { eapply rect_resize; [|exact Htr0]. congruence. }
    run_rows1 d.
    { exact Hzrest. }
    { exact Hx. }
    run_add2 d (ntrue mask).
    { exact Hr. }
    { apply scale2_rect. eapply rect_resize; [|exact Htr0]. congruence. }
    run_rows1 d.
    { exact Hzrest. }
    { exact Hx0. }
    run_compress. run_assign.
    set (mask' := Np.logical_not mask) in *.
    assert (Hlen' : length mask' = length mask) by congruence.
    run_compress. run_row0. run_compress. run_row0.
    run_rows mask' d.
    { eapply rect_resize; [|exact Hrest]. congruence. }
    run_take.
    { intros kj H. apply Hkv. auto. }
    pose proof (transpose_rect d vk1) as Htr1.
    run_add2 d (ntrue mask').
    { assumption. }
    { eapply rect_resize; [|exact Htr1]. congruence. }
    run_rows1 d.
    { eapply rect_resize; [|eassumption]. congruence. }
    { assumption. }
    run_rows1 d.
    { eapply rect_resize; [|eassumption]. congruence. }
    { assumption. }
    run_compress. run_assign.
    eauto. }
  destruct (class_ self); simpl in Hax;
    try exact Hbouzidi;
    try (rewrite Eksym; cbn [bind]);
    rewrite Evk; cbn [bind];
    try (rewrite Eind; cbn [bind]; eauto; fail).
  - destruct (Hiadd 0%nat 0%nat) as (T & ->); try lia. cbn [bind]. eauto.
  - destruct (Hiadd 1%nat 1%nat) as (T & ->); try lia. cbn [bind]. eauto.
  - destruct (Hiadd 1%nat 2%nat) as (T & ->); try lia. cbn [bind]. eauto.
Qed.

Lemma set_iload_succeeds_witness :
  exists self1, set_iload (one_point Bouzidi_bounce_back) = Ok self1.
Proof.
  apply (set_iload_succeeds (one_point Bouzidi_bounce_back)).
  - unfold aligned. simpl. repeat split; try lia.
    intros row [<-|[<-|[<-|[<-|[]]]]]; reflexivity.
  - simpl. intros kj [<-|[]]. lia.
  - reflexivity.
  - simpl. lia.
Defined.

(** ** When [set_rhs] succeeds *)

Lemma getitem_In {A} (a : list A) i x : Np.getitem a i = Ok x -> In x a.
Proof.
  unfold Np.getitem. intros H. bind_inv H j Ej.
  apply of_option_Ok in H. eapply nth_error_In; eauto.
Qed.

Lemma take_In {A} (a : list A) k r x : Np.take a k = Ok r -> In x r -> In x a.
Proof.
  unfold Np.take. intros H Hx.
  destruct (mapM_In _ _ _ _ H Hx) as (kj & _ & Hg).
  eapply getitem_In; eauto.
Qed.

Lemma in_combine_seq {A} (k : list A) : forall s kj j,
  In (kj, j) (combine k (seq s (length k))) ->
  In kj k /\ (s <= j < s + length k)%nat.
Proof.
  induction k as [|a k IH]; simpl; intros s kj j H; [destruct H|].
  destruct H as [H|H].
  - injection H as -> ->. split; [auto | lia].
  - destruct (IH _ _ _ H). split; [auto | lia].
Qed.

Lemma take_diag_total (fq : list (list R)) k :
  (forall kj, In kj k -> (0 <= kj < Z.of_nat (length fq))%Z) ->
  (forall row, In row fq -> length row = length k) ->
  exists a, take_diag fq k = Ok a /\ length a = length k.
Proof.
  intros Hk Hrows. unfold take_diag.
  destruct (mapM_total (fun kj => entry fq (fst kj) (snd kj))
              (combine k (seq 0 (length k)))) as (a & Ha).
  - intros [kj j] Hin. apply in_combine_seq in Hin. destruct Hin as (Hkj & Hj).
    unfold entry. simpl.
    destruct (getitem_total fq kj (Hk kj Hkj)) as (row & Hrow).
    rewrite Hrow. cbn [bind]. unfold Np.item.
    destruct (nth_error row j) as [x|] eqn:E; [simpl; eauto|].
    apply nth_error_None in E.
    rewrite (Hrows row (getitem_In _ _ _ Hrow)) in E. lia.
  - exists a. split; [exact Ha|].
    rewrite (mapM_length _ _ _ Ha), length_combine, length_seq. lia.
Qed.

(** X25: [set_rhs] succeeds when [istore] has a first row of velocity
    indices that the table of symmetric velocities holds, every velocity
    index and every symmetric index names a row of [feq], and the rows of
    [feq] and [rhs] have one entry per column. *)
Theorem set_rhs_succeeds :
  forall self,
    istore self <> [] ->
    (forall kj, In kj (hd [] (istore self)) ->
       (0 <= kj < Z.of_nat (length (get_symmetric (stencil self))))%Z /\
       (kj < Z.of_nat (length (feq self)))%Z) ->
    (forall ks, In ks (get_symmetric (stencil self)) ->
       (0 <= ks < Z.of_nat (length (feq self)))%Z) ->
    (forall row, In row (feq self) -> length row = Np.ncols (istore self)) ->
    length (rhs self) = Np.ncols (istore self) ->
    exists self1, set_rhs self = Ok self1.
Proof.
  intros self Hne Hk Hsym Hrows Hrhs.
  destruct (istore self) as [|k rest] eqn:Eist; [congruence|].
  simpl in Hk, Hrows, Hrhs.
  destruct (take_total (get_symmetric (stencil self)) k) as (ksym & Eksym & Hlk).
  { intros kj H. apply (Hk kj H). }
  destruct (take_diag_total (feq self) k) as (a & Ea & Hla); [|exact Hrows|].
  { intros kj H. destruct (Hk kj H). lia. }
  destruct (take_diag_total (feq self) ksym) as (b & Eb & Hlb).
  { intros ks H. apply Hsym. eapply take_In; eauto. }
  { intros row H. rewrite Hlk. auto. }
  unfold set_rhs, bounce_back_set_rhs, anti_bounce_back_set_rhs,
    Neumann_set_rhs.
  rewrite Eist. change (Np.item (k :: rest) 0) with (Ok (A:=list Z) k).
  cbn [bind]. rewrite Eksym. cbn [bind]. rewrite Ea, Eb. cbn [bind].
  destruct (zip_total Rminus a b) as (x & Ex & Hx); [congruence|].
  destruct (zip_total Rplus a b) as (y & Ey & Hy); [congruence|].
  unfold assign_all.
  destruct (class_ self); eauto;
    rewrite ?Ex, ?Ey; cbn [bind];
    match goal with
    | |- context [(?n =? ?m)%nat] =>
        replace (n =? m)%nat with true
          by (symmetry; apply Nat.eqb_eq; congruence)
    end; cbn [bind]; eauto.
Qed.

Lemma set_rhs_succeeds_witness :
  exists self1, set_rhs (sign_loaded anti_bounce_back) = Ok self1.
Proof.
  apply (set_rhs_succeeds (sign_loaded anti_bounce_back)).
  - discriminate.
  - simpl. intros kj [<-|[]]. lia.
  - simpl. intros ks [<-|[<-|[]]]; lia.
  - simpl. intros row [<-|[<-|[]]]; reflexivity.
  - reflexivity.
Defined.
